(** * A shallow embedding of the Hazelcast Python client core

    The development follows the Python sources:

    - [hazelcast/core.py]: [Address] and [AddressHelper];
    - [hazelcast/proxy/map.py]: the [Map] proxy, its near-cache variant
      [MapFeatNearCache] and the blocking facade [BlockingMap];
    - the frame codec exercised by [tests/unit/client_message_test.py].

    Python code that mutates the client (the near cache, the lock reference
    id generator, the invocation service) is written in a state-and-exception
    monad; a raised Python exception is a [Raised] result. *)

From Stdlib Require Import ZArith String Ascii List Lia Bool.
From stdpp Require Import base option list gmap strings.

Local Open Scope string_scope.
Local Open Scope list_scope.
Local Open Scope Z_scope.

(* ===================================================================== *)
(** * Python builtins used by the sources *)
(* ===================================================================== *)

Module Py.

(** Exceptions raised by the embedded code. *)
Inductive Exn :=
| AssertionError (message : string)
| KeyError
| ValueError
| IndexError
| AttributeError
| TypeError
| RemoteError (code : Z).

(** Outcome of a Python call: a value or a raised exception. *)
Inductive Result (A : Type) :=
| Ok (a : A)
| Raised (e : Exn).
Arguments Ok {A} a.
Arguments Raised {A} e.

(** [x is None] *)
Definition is_None {A} (x : option A) : bool :=
  match x with None => true | Some _ => false end.

(** [len(s)] *)
Definition len (s : string) : Z := Z.of_nat (String.length s).

(** Python clamps a slice bound into [0 .. len]; a negative bound counts
    from the end. *)
Definition clamp (n i : Z) : Z :=
  if i <? 0 then Z.max (i + n) 0 else Z.min i n.

Fixpoint drop_chars (n : nat) (s : string) : string :=
  match n, s with
  | O, _ => s
  | S n', String _ s' => drop_chars n' s'
  | S _, EmptyString => EmptyString
  end.

Fixpoint take_chars (n : nat) (s : string) : string :=
  match n, s with
  | O, _ => EmptyString
  | S n', String c s' => String c (take_chars n' s')
  | S _, EmptyString => EmptyString
  end.

(** [s[lo:hi]]; [None] is an omitted bound. *)
Definition slice (s : string) (lo hi : option Z) : string :=
  let n := len s in
  let l := match lo with Some i => clamp n i | None => 0 end in
  let h := match hi with Some i => clamp n i | None => n end in
  take_chars (Z.to_nat (h - l)) (drop_chars (Z.to_nat l) s).

(** Index of the first [c] in [s], counted from [i]; [-1] when absent. *)
Fixpoint find_at (c : ascii) (s : string) (i : Z) : Z :=
  match s with
  | EmptyString => -1
  | String a s' => if Ascii.eqb a c then i else find_at c s' (i + 1)
  end.

(** [s.find(c)] for a one-character needle. *)
Definition find (s : string) (c : ascii) : Z := find_at c s 0.

(** [s.find(c, start)]: the search starts at the clamped [start]; a start
    beyond the end finds nothing. *)
Definition find_from (s : string) (c : ascii) (start : Z) : Z :=
  let n := len s in
  let st := if start <? 0 then Z.max (start + n) 0 else start in
  if n <? st then -1 else find_at c (drop_chars (Z.to_nat st) s) st.

(** Index of the last [c] in [s], counted from [i]; [-1] when absent. *)
Fixpoint rfind_at (c : ascii) (s : string) (i : Z) : Z :=
  match s with
  | EmptyString => -1
  | String a s' =>
      let r := rfind_at c s' (i + 1) in
      if 0 <=? r then r else if Ascii.eqb a c then i else -1
  end.

(** [s.rfind(c)] for a one-character needle. *)
Definition rfind (s : string) (c : ascii) : Z := rfind_at c s 0.

(** The white space [int] skips around the digits of an ASCII text: tab,
    line feed, vertical tab, form feed, carriage return and space. *)
Definition is_space (c : ascii) : bool :=
  let n := Z.of_N (N_of_ascii c) in
  ((9 <=? n) && (n <=? 13)) || (n =? 32).

Fixpoint lstrip (s : string) : string :=
  match s with
  | String c s' => if is_space c then lstrip s' else s
  | EmptyString => EmptyString
  end.

Fixpoint rstrip (s : string) : string :=
  match s with
  | String c s' =>
      match rstrip s' with
      | EmptyString => if is_space c then EmptyString else String c EmptyString
      | r => String c r
      end
  | EmptyString => EmptyString
  end.

Definition digit_of (c : ascii) : option Z :=
  let n := Z.of_N (N_of_ascii c) in
  if (48 <=? n) && (n <=? 57) then Some (n - 48) else None.

(** Decimal digits, a single underscore allowed between two digits. *)
Fixpoint digits (s : string) (acc : Z) (after_digit : bool) : option Z :=
  match s with
  | EmptyString => if after_digit then Some acc else None
  | String c s' =>
      match digit_of c with
      | Some d => digits s' (10 * acc + d) true
      | None =>
          if Ascii.eqb c "_" && after_digit
          then match s' with
               | EmptyString => None
               | String c' _ => if Ascii.eqb c' "_" then None else digits s' acc false
               end
          else None
      end
  end.

(** [int(s)] on an ASCII text, base ten: surrounding white space, an
    optional sign, digits.  [None] stands for the [ValueError] Python
    raises. *)
Definition int (s : string) : option Z :=
  match rstrip (lstrip s) with
  | String "-" ds => Z.opp <$> digits ds 0 false
  | String "+" ds => digits ds 0 false
  | ds => digits ds 0 false
  end.

End Py.

(* ===================================================================== *)
(** * hazelcast/core.py *)
(* ===================================================================== *)

Module Core.

(** class [Address] *)
Record Address := mkAddress { host : string; port : Z }.

Section AddressHelper.

(** The builtin [int], applied to the port text. *)
Variable int : string -> option Z.

(** [AddressHelper.address_from_str(address, port=-1)].  [None] is the
    [ValueError] of [int] on a port text that is not a number. *)
Definition address_from_str (address : string) (port : Z) : option Address :=
  let bracket_start_idx := Py.find address "[" in
  let bracket_end_idx := Py.find_from address "]" bracket_start_idx in
  let colon_idx := Py.find address ":" in
  let last_colon_idx := Py.rfind address ":" in
  if (-1 <? colon_idx) && (colon_idx <? last_colon_idx) then
    (* IPv6 *)
    if (bracket_start_idx =? 0) && (bracket_start_idx <? bracket_end_idx) then
      let host := Py.slice address (Some (bracket_start_idx + 1)) (Some bracket_end_idx) in
      if last_colon_idx =? bracket_end_idx + 1 then
        p ← int (Py.slice address (Some (last_colon_idx + 1)) None);
        Some (mkAddress host p)
      else Some (mkAddress host port)
    else Some (mkAddress address port)
  else if (0 <? colon_idx) && (colon_idx =? last_colon_idx) then
    let host := Py.slice address None (Some colon_idx) in
    p ← int (Py.slice address (Some (colon_idx + 1)) None);
    Some (mkAddress host p)
  else Some (mkAddress address port).

(** [range(n)] *)
Definition range (n : Z) : list Z := Z.of_nat <$> seq 0 (Z.to_nat n).

(** [AddressHelper.get_possible_addresses(address)]: the pair
    (primaries, secondaries). *)
Definition get_possible_addresses (address : string)
  : option (list Address * list Address) :=
  a ← address_from_str address (-1);
  let possible_port := port a in
  let port_try_count := 1 in
  let '(port_try_count, possible_port) :=
    if possible_port =? -1 then (3, 5701) else (port_try_count, possible_port) in
  let addresses := (fun i => mkAddress (host a) (possible_port + i)) <$> range port_try_count in
  (* [addresses.pop(0)] *)
  match addresses with
  | first :: rest => Some ([first], rest)
  | [] => None
  end.

End AddressHelper.

End Core.

(* ===================================================================== *)
(** * hazelcast/proxy/map.py: the client state and its collaborators *)
(* ===================================================================== *)

Module Proxy.
Import Py.

(** The request codecs of [hazelcast.protocol.codec] that the embedded
    methods call. *)
Inductive Codec :=
| map_clear_codec | map_contains_key_codec | map_contains_value_codec
| map_delete_codec | map_evict_codec | map_evict_all_codec
| map_force_unlock_codec | map_get_codec | map_get_entry_view_codec
| map_is_locked_codec | map_load_all_codec | map_load_given_keys_codec
| map_lock_codec | map_put_codec | map_put_if_absent_codec
| map_put_transient_codec | map_remove_codec | map_remove_if_same_codec
| map_replace_codec | map_replace_if_same_codec | map_set_codec
| map_try_lock_codec | map_try_put_codec | map_try_remove_codec
| map_unlock_codec | map_execute_on_key_codec | map_set_ttl_codec
| map_put_with_max_idle_codec | map_put_if_absent_with_max_idle_codec
| map_put_transient_with_max_idle_codec | map_set_with_max_idle_codec.

(** [create_map_proxy] builds a [Map] or, when the map has a near-cache
    configuration, a [MapFeatNearCache]. *)
Inductive MapClass := Map | MapFeatNearCache.

(** The [timeout] of an [Invocation]: left to the service, or [MAX_SIZE]. *)
Inductive Timeout := default_timeout | MAX_SIZE.

Section Model.

(** [Data] is a serialized key or value, [Obj] a Python object other
    than [None], [Message] an inbound client message. *)
Context {Data : Type} `{Countable Data}.
Context {Obj Message : Type}.

(** A Python value that may be [None]. *)
Abbreviation PyVal := (option Obj).

(** A parameter handed to a codec's [encode_request]. *)
Inductive Arg :=
| AStr (s : string)
| AData (d : Data)
| ALong (z : Z)
| ABool (b : bool)
| ADataList (l : list Data).

(** The message a codec builds: which codec, from which parameters. *)
Record Request := mkRequest { codec : Codec; parameters : list Arg }.

(** Modelled from the spec: [hazelcast.invocation.Invocation], not among
    the sources, with the attributes map.py and the proxy base class give
    it. *)
Record Invocation := mkInvocation {
  request : Request;
  partition_id : option Z;
  timeout : Timeout;
  response_handler : Message -> PyVal
}.

(** What the proxy did to its collaborators, in program order. *)
Inductive Effect :=
| NearCacheInvalidated (key_data : Data)
| NearCacheCleared
| NearCacheStored (key_data : Data) (value : PyVal)
| Encoded (r : Request)
| Invoked (correlation_id : nat) (inv : Invocation).

(** The mutable state a map proxy shares with its client: the near
    cache of the map, the lock reference id generator, the next
    correlation id of the invocation service, the replies the cluster
    gives (by correlation id) and the trace of effects. *)
Record Client := mkClient {
  near_cache : gmap Data PyVal;
  reference_id : Z;
  correlation_id : nat;
  replies : nat -> Result Message;
  trace : list Effect
}.

Definition set_near_cache (c : gmap Data PyVal) (s : Client) : Client :=
  mkClient c (reference_id s) (correlation_id s) (replies s) (trace s).

Definition log (e : Effect) (s : Client) : Client :=
  mkClient (near_cache s) (reference_id s) (correlation_id s) (replies s) (trace s ++ [e]).

(** Python code over the client state: a result or an exception, and
    the state as the code left it. *)
Definition M (A : Type) : Type := Client -> Result A * Client.

Definition ret {A} (a : A) : M A := fun s => (Ok a, s).

Definition raise {A} (e : Exn) : M A := fun s => (Raised e, s).

Definition bind {A B} (m : M A) (k : A -> M B) : M B :=
  fun s => match m s with
           | (Ok a, s') => k a s'
           | (Raised e, s') => (Raised e, s')
           end.

#[global] Instance M_ret : MRet M := @ret.
#[global] Instance M_bind : MBind M := fun A B k m => bind m k.

(** [try: body  except KeyError: handler] *)
Definition except_KeyError {A} (body handler : M A) : M A :=
  fun s => match body s with
           | (Raised KeyError, s') => handler s'
           | r => r
           end.

(** [for x in xs: body(x)] *)
Fixpoint for_each {A} (xs : list A) (body : A -> M unit) : M unit :=
  match xs with
  | [] => ret tt
  | x :: xs' => body x ;; for_each xs' body
  end.

(** * The attributes of a proxy and the module-level helpers it calls *)

(** Modelled from the spec: the attributes [hazelcast.proxy.base.Proxy]
    (not among the sources) gives a map proxy and that map.py reads:
    serialization, the partition service, the thread id, [to_millis] and
    the decoders of the codecs. *)
Record Proxy := mkProxy {
  cls : MapClass;
  name : string;
  _to_data : Obj -> Data;
  _to_object : option Data -> PyVal;
  get_partition_id : Data -> Z;
  thread_id : Z;
  to_millis : PyVal -> Z;
  (** [decode_response] of a codec whose answer is a plain value *)
  decode_response : Codec -> Message -> PyVal;
  (** [decode_response] of a codec whose answer is nullable [Data] *)
  decode_data : Codec -> Message -> option Data;
  (** the handler of [get_entry_view], which deserializes the view *)
  entry_view_handler : Message -> PyVal
}.

(** Modelled from the spec: [check_not_none] of [hazelcast.util] is not
    among the sources; the map operations use it as the guard "calling
    with None raises an assertion error" with the message given.  The
    value is handed back so that the code after the guard has it as a
    proper object. *)
Definition check_not_none {A} (val : option A) (message : string) : M A :=
  match val with
  | None => raise (AssertionError message)
  | Some v => ret v
  end.

(** Modelled from the spec: [codec.encode_request(...)] of
    [hazelcast.protocol.codec], which is not among the sources: "encode a
    request via the operation's codec".  The message is kept as the codec
    and its parameters. *)
Definition encode_request (c : Codec) (params : list Arg) : M Request :=
  fun s => let r := mkRequest c params in (Ok r, log (Encoded r) s).

(** Modelled from the spec:
    [self._reference_id_generator.get_and_increment()], the counter of the
    lock reference ids ([hazelcast.util] is not among the sources). *)
Definition get_and_increment : M Z :=
  fun s => (Ok (reference_id s),
            mkClient (near_cache s) (reference_id s + 1) (correlation_id s)
                     (replies s) (trace s)).

(** * Futures *)

(** Modelled from the spec: [hazelcast.future] is not among the sources.
    "A map operation ... hands [the request] to the invocation service,
    which ... resolves a future when a matching response frame arrives";
    [ImmediateFuture] is an already resolved future and
    [continue_with] chains a function of the finished future.
    [NotAFuture] is a plain Python value found where a future is
    expected; it has no [result] method. *)
Inductive Future :=
| ImmediateFuture (value : PyVal)
| InvocationFuture (correlation_id : nat) (inv : Invocation)
| ContinueWith (f : Future) (continuation : Result PyVal -> M PyVal)
| NotAFuture (value : PyVal).

(** Modelled from the spec: [future.continue_with(continuation_func,
    *args)] of [hazelcast.future], the future of what the continuation
    makes of the finished future. *)
Definition continue_with (f : Future) (continuation : Result PyVal -> M PyVal) : Future :=
  ContinueWith f continuation.

(** Modelled from the spec: [future.result()] of [hazelcast.future], which
    waits for the reply and gives the handled response, or raises what the
    invocation failed with; the continuations run on the way. *)
Fixpoint result (f : Future) : M PyVal :=
  match f with
  | ImmediateFuture value => ret value
  | InvocationFuture cid inv =>
      fun s => match replies s cid with
               | Ok message => (Ok (response_handler inv message), s)
               | Raised e => (Raised e, s)
               end
  | ContinueWith f' continuation =>
      fun s => let '(r, s') := result f' s in continuation r s'
  | NotAFuture _ => raise AttributeError
  end.

(** Modelled from the spec: the invocation service
    ([hazelcast.invocation]) is not among the sources.  "Allocate a new
    correlation id (monotonic, unique for the session)", register and
    transmit; the future of the invocation is returned to the caller. *)
Definition invoke (inv : Invocation) : M Future :=
  fun s =>
    let cid := correlation_id s in
    (Ok (InvocationFuture cid inv),
     mkClient (near_cache s) (reference_id s) (S cid) (replies s)
              (trace s ++ [Invoked cid inv])).

(** Modelled from the spec: [_no_op_response_handler] of
    [hazelcast.proxy.base], the default handler of the proxy. *)
Definition no_op_response_handler : Message -> PyVal := fun _ => None.

(** Modelled from the spec: the [Proxy] base class
    ([hazelcast.proxy.base]) is not among the sources.  [_invoke] sends
    to any member. *)
Definition _invoke (self : Proxy) (request : Request)
           (response_handler : Message -> PyVal) : M Future :=
  invoke (mkInvocation request None default_timeout response_handler).

(** Modelled from the spec: [Proxy._invoke_on_partition] of
    [hazelcast.proxy.base] sends to the given partition. *)
Definition _invoke_on_partition (self : Proxy) (request : Request) (partition_id : Z)
           (response_handler : Message -> PyVal) : M Future :=
  invoke (mkInvocation request (Some partition_id) default_timeout response_handler).

(** Modelled from the spec: [Proxy._invoke_on_key] of
    [hazelcast.proxy.base] sends to the partition that owns the key. *)
Definition _invoke_on_key (self : Proxy) (request : Request) (key_data : Data)
           (response_handler : Message -> PyVal) : M Future :=
  let partition_id := get_partition_id self key_data in
  invoke (mkInvocation request (Some partition_id) default_timeout response_handler).

(** * The near cache *)

(** Modelled from the spec: the [NearCache] class
    ([hazelcast.near_cache]) is not among the sources.  "NearCacheEntry:
    serialized key -> deserialized value"; a lookup of an absent key
    raises [KeyError] (the proxy catches it).  Expiry, eviction and
    statistics are left out. *)
Definition NearCache___getitem__ (key_data : Data) : M PyVal :=
  fun s => match near_cache s !! key_data with
           | Some value => (Ok value, s)
           | None => (Raised KeyError, s)
           end.

(** Modelled from the spec: [near_cache[key_data] = value] stores the
    value under the serialized key. *)
Definition NearCache___setitem__ (key_data : Data) (value : PyVal) : M unit :=
  fun s => (Ok tt, log (NearCacheStored key_data value)
                       (set_near_cache (<[key_data := value]> (near_cache s)) s)).

(** Modelled from the spec: [NearCache._invalidate(key_data)] drops one
    key, whether or not it is cached. *)
Definition NearCache__invalidate (key_data : Data) : M unit :=
  fun s => (Ok tt, log (NearCacheInvalidated key_data)
                       (set_near_cache (delete key_data (near_cache s)) s)).

(** Modelled from the spec: [NearCache.clear()] drops every entry. *)
Definition NearCache_clear : M unit :=
  fun s => (Ok tt, log NearCacheCleared (set_near_cache ∅ s)).

(** Modelled from the spec: [NearCache._clear()], the clearing that
    [clear()] does. *)
Definition NearCache__clear : M unit := NearCache_clear.

End Model.

Arguments Arg : clear implicits.
Arguments Request : clear implicits.
Arguments Invocation : clear implicits.
Arguments Effect : clear implicits.
Arguments Client Data {_ _} Obj Message.
Arguments M Data {_ _} Obj Message A.
Arguments Proxy : clear implicits.
Arguments Future Data {_ _} Obj Message.

End Proxy.

(* ===================================================================== *)
(** * hazelcast/proxy/map.py: [Map] and [MapFeatNearCache] *)
(* ===================================================================== *)

Module MapProxy.
Import Py Proxy.

Section Methods.

Context {Data : Type} `{Countable Data}.
Context {Obj Message : Type}.

Abbreviation PyVal := (option Obj).
Abbreviation M := (Proxy.M Data Obj Message).
Abbreviation Future := (Proxy.Future Data Obj Message).
Abbreviation Proxy := (Proxy.Proxy Data Obj Message).

Implicit Types (self : Proxy) (key_data value_data : Data).

(** ** [class Map]: the internals *)

Definition Map__contains_key_internal self key_data : M Future :=
  request ← encode_request map_contains_key_codec
              [AStr (name self); AData key_data; ALong (thread_id self)];
  _invoke_on_key self request key_data (decode_response self map_contains_key_codec).

Definition Map__get_internal self key_data : M Future :=
  let handler := fun message => _to_object self (decode_data self map_get_codec message) in
  request ← encode_request map_get_codec
              [AStr (name self); AData key_data; ALong (thread_id self)];
  _invoke_on_key self request key_data handler.

Definition Map__remove_internal self key_data : M Future :=
  let handler := fun message => _to_object self (decode_data self map_remove_codec message) in
  request ← encode_request map_remove_codec
              [AStr (name self); AData key_data; ALong (thread_id self)];
  _invoke_on_key self request key_data handler.

Definition Map__remove_if_same_internal_ self key_data value_data : M Future :=
  request ← encode_request map_remove_if_same_codec
              [AStr (name self); AData key_data; AData value_data; ALong (thread_id self)];
  _invoke_on_key self request key_data (decode_response self map_remove_if_same_codec).

Definition Map__delete_internal self key_data : M Future :=
  request ← encode_request map_delete_codec
              [AStr (name self); AData key_data; ALong (thread_id self)];
  _invoke_on_key self request key_data no_op_response_handler.

Definition Map__put_internal self key_data value_data (ttl max_idle : PyVal) : M Future :=
  let handler := fun message => _to_object self (decode_data self map_put_codec message) in
  request ←
    match max_idle with
    | Some _ =>
        encode_request map_put_with_max_idle_codec
          [AStr (name self); AData key_data; AData value_data; ALong (thread_id self);
           ALong (to_millis self ttl); ALong (to_millis self max_idle)]
    | None =>
        encode_request map_put_codec
          [AStr (name self); AData key_data; AData value_data; ALong (thread_id self);
           ALong (to_millis self ttl)]
    end;
  _invoke_on_key self request key_data handler.

Definition Map__set_internal self key_data value_data (ttl max_idle : PyVal) : M Future :=
  request ←
    match max_idle with
    | Some _ =>
        encode_request map_set_with_max_idle_codec
          [AStr (name self); AData key_data; AData value_data; ALong (thread_id self);
           ALong (to_millis self ttl); ALong (to_millis self max_idle)]
    | None =>
        encode_request map_set_codec
          [AStr (name self); AData key_data; AData value_data; ALong (thread_id self);
           ALong (to_millis self ttl)]
    end;
  _invoke_on_key self request key_data no_op_response_handler.

Definition Map__set_ttl_internal self key_data (ttl : PyVal) : M Future :=
  request ← encode_request map_set_ttl_codec
              [AStr (name self); AData key_data; ALong (to_millis self ttl)];
  _invoke_on_key self request key_data (decode_response self map_set_ttl_codec).

Definition Map__try_remove_internal self key_data (timeout : PyVal) : M Future :=
  request ← encode_request map_try_remove_codec
              [AStr (name self); AData key_data; ALong (thread_id self);
               ALong (to_millis self timeout)];
  _invoke_on_key self request key_data (decode_response self map_try_remove_codec).

Definition Map__try_put_internal self key_data value_data (timeout : PyVal) : M Future :=
  request ← encode_request map_try_put_codec
              [AStr (name self); AData key_data; AData value_data; ALong (thread_id self);
               ALong (to_millis self timeout)];
  _invoke_on_key self request key_data (decode_response self map_try_put_codec).

Definition Map__put_transient_internal self key_data value_data (ttl max_idle : PyVal)
  : M Future :=
  request ←
    match max_idle with
    | Some _ =>
        encode_request map_put_transient_with_max_idle_codec
          [AStr (name self); AData key_data; AData value_data; ALong (thread_id self);
           ALong (to_millis self ttl); ALong (to_millis self max_idle)]
    | None =>
        encode_request map_put_transient_codec
          [AStr (name self); AData key_data; AData value_data; ALong (thread_id self);
           ALong (to_millis self ttl)]
    end;
  _invoke_on_key self request key_data no_op_response_handler.

Definition Map__put_if_absent_internal self key_data value_data (ttl max_idle : PyVal)
  : M Future :=
  let handler :=
    fun message => _to_object self (decode_data self map_put_if_absent_codec message) in
  request ←
    match max_idle with
    | Some _ =>
        encode_request map_put_if_absent_with_max_idle_codec
          [AStr (name self); AData key_data; AData value_data; ALong (thread_id self);
           ALong (to_millis self ttl); ALong (to_millis self max_idle)]
    | None =>
        encode_request map_put_if_absent_codec
          [AStr (name self); AData key_data; AData value_data; ALong (thread_id self);
           ALong (to_millis self ttl)]
    end;
  _invoke_on_key self request key_data handler.

Definition Map__replace_if_same_internal self key_data (old_value_data new_value_data : Data)
  : M Future :=
  request ← encode_request map_replace_if_same_codec
              [AStr (name self); AData key_data; AData old_value_data;
               AData new_value_data; ALong (thread_id self)];
  _invoke_on_key self request key_data (decode_response self map_replace_if_same_codec).

Definition Map__replace_internal self key_data value_data : M Future :=
  let handler := fun message => _to_object self (decode_data self map_replace_codec message) in
  request ← encode_request map_replace_codec
              [AStr (name self); AData key_data; AData value_data; ALong (thread_id self)];
  _invoke_on_key self request key_data handler.

Definition Map__evict_internal self key_data : M Future :=
  request ← encode_request map_evict_codec
              [AStr (name self); AData key_data; ALong (thread_id self)];
  _invoke_on_key self request key_data (decode_response self map_evict_codec).

Definition Map__load_all_internal self (key_data_list : list Data)
           (replace_existing_values : bool) : M Future :=
  request ← encode_request map_load_given_keys_codec
              [AStr (name self); ADataList key_data_list; ABool replace_existing_values];
  _invoke self request no_op_response_handler.

Definition Map__execute_on_key_internal self key_data (entry_processor : Obj) : M Future :=
  let handler :=
    fun message => _to_object self (decode_data self map_execute_on_key_codec message) in
  let entry_processor_data := _to_data self entry_processor in
  request ← encode_request map_execute_on_key_codec
              [AStr (name self); AData entry_processor_data; AData key_data;
               ALong (thread_id self)];
  _invoke_on_key self request key_data handler.

(** ** [class MapFeatNearCache]: the invalidation handlers *)

Definition _invalidate_cache self key_data : M unit :=
  NearCache__invalidate key_data.

Definition _invalidate_cache_batch self (key_data_list : list Data) : M unit :=
  for_each key_data_list (fun key_data => NearCache__invalidate key_data).

(** [_handle_invalidation(key, source_uuid, partition_uuid, sequence)] *)
Definition _handle_invalidation self (key : option Data)
           (source_uuid partition_uuid : Z) (sequence : Z) : M unit :=
  match key with
  | None => NearCache__clear
  | Some key => _invalidate_cache self key
  end.

(** [_handle_batch_invalidation(keys, source_uuids, partition_uuids, sequences)] *)
Definition _handle_batch_invalidation self (keys : list Data)
           (source_uuids partition_uuids : list Z) (sequences : list Z) : M unit :=
  for_each keys (fun key_data => _invalidate_cache self key_data).

(** ** [class MapFeatNearCache]: the overridden internals *)

(** On a hit the cached value itself is returned, not a future. *)
Definition MapFeatNearCache__contains_key_internal self key_data : M Future :=
  except_KeyError
    (value ← NearCache___getitem__ key_data; mret (NotAFuture value))
    (Map__contains_key_internal self key_data).

Definition _update_cache self (f : Result PyVal) key_data : M PyVal :=
  match f with
  | Ok value => NearCache___setitem__ key_data value ;; mret value
  | Raised e => raise e
  end.

Definition MapFeatNearCache__get_internal self key_data : M Future :=
  except_KeyError
    (value ← NearCache___getitem__ key_data; mret (ImmediateFuture value))
    (future ← Map__get_internal self key_data;
     mret (continue_with future (fun f => _update_cache self f key_data))).

Definition MapFeatNearCache__try_remove_internal self key_data (timeout : PyVal) : M Future :=
  _invalidate_cache self key_data ;;
  Map__try_remove_internal self key_data timeout.

Definition MapFeatNearCache__try_put_internal self key_data value_data (timeout : PyVal)
  : M Future :=
  _invalidate_cache self key_data ;;
  Map__try_put_internal self key_data value_data timeout.

Definition MapFeatNearCache__set_internal self key_data value_data (ttl max_idle : PyVal)
  : M Future :=
  _invalidate_cache self key_data ;;
  Map__set_internal self key_data value_data ttl max_idle.

Definition MapFeatNearCache__set_ttl_internal self key_data (ttl : PyVal) : M Future :=
  _invalidate_cache self key_data ;;
  Map__set_ttl_internal self key_data ttl.

Definition MapFeatNearCache__replace_internal self key_data value_data : M Future :=
  _invalidate_cache self key_data ;;
  Map__replace_internal self key_data value_data.

Definition MapFeatNearCache__replace_if_same_internal self key_data
           (old_value_data new_value_data : Data) : M Future :=
  _invalidate_cache self key_data ;;
  Map__replace_if_same_internal self key_data old_value_data new_value_data.

Definition MapFeatNearCache__remove_internal self key_data : M Future :=
  _invalidate_cache self key_data ;;
  Map__remove_internal self key_data.

Definition MapFeatNearCache__remove_if_same_internal_ self key_data value_data : M Future :=
  _invalidate_cache self key_data ;;
  Map__remove_if_same_internal_ self key_data value_data.

Definition MapFeatNearCache__put_transient_internal self key_data value_data
           (ttl max_idle : PyVal) : M Future :=
  _invalidate_cache self key_data ;;
  Map__put_transient_internal self key_data value_data ttl max_idle.

Definition MapFeatNearCache__put_internal self key_data value_data (ttl max_idle : PyVal)
  : M Future :=
  _invalidate_cache self key_data ;;
  Map__put_internal self key_data value_data ttl max_idle.

Definition MapFeatNearCache__put_if_absent_internal self key_data value_data
           (ttl max_idle : PyVal) : M Future :=
  _invalidate_cache self key_data ;;
  Map__put_if_absent_internal self key_data value_data ttl max_idle.

Definition MapFeatNearCache__load_all_internal self (key_data_list : list Data)
           (replace_existing_values : bool) : M Future :=
  _invalidate_cache_batch self key_data_list ;;
  Map__load_all_internal self key_data_list replace_existing_values.

Definition MapFeatNearCache__execute_on_key_internal self key_data (entry_processor : Obj)
  : M Future :=
  _invalidate_cache self key_data ;;
  Map__execute_on_key_internal self key_data entry_processor.

Definition MapFeatNearCache__evict_internal self key_data : M Future :=
  _invalidate_cache self key_data ;;
  Map__evict_internal self key_data.

Definition MapFeatNearCache__delete_internal self key_data : M Future :=
  _invalidate_cache self key_data ;;
  Map__delete_internal self key_data.

(** ** Method resolution: [self._x_internal(...)] runs the override of
    the class of [self]. *)

Definition _contains_key_internal self key_data : M Future :=
  match cls self with
  | Map => Map__contains_key_internal self key_data
  | MapFeatNearCache => MapFeatNearCache__contains_key_internal self key_data
  end.

Definition _get_internal self key_data : M Future :=
  match cls self with
  | Map => Map__get_internal self key_data
  | MapFeatNearCache => MapFeatNearCache__get_internal self key_data
  end.

Definition _remove_internal self key_data : M Future :=
  match cls self with
  | Map => Map__remove_internal self key_data
  | MapFeatNearCache => MapFeatNearCache__remove_internal self key_data
  end.

Definition _remove_if_same_internal_ self key_data value_data : M Future :=
  match cls self with
  | Map => Map__remove_if_same_internal_ self key_data value_data
  | MapFeatNearCache => MapFeatNearCache__remove_if_same_internal_ self key_data value_data
  end.

Definition _delete_internal self key_data : M Future :=
  match cls self with
  | Map => Map__delete_internal self key_data
  | MapFeatNearCache => MapFeatNearCache__delete_internal self key_data
  end.

Definition _put_internal self key_data value_data (ttl max_idle : PyVal) : M Future :=
  match cls self with
  | Map => Map__put_internal self key_data value_data ttl max_idle
  | MapFeatNearCache => MapFeatNearCache__put_internal self key_data value_data ttl max_idle
  end.

Definition _set_internal self key_data value_data (ttl max_idle : PyVal) : M Future :=
  match cls self with
  | Map => Map__set_internal self key_data value_data ttl max_idle
  | MapFeatNearCache => MapFeatNearCache__set_internal self key_data value_data ttl max_idle
  end.

Definition _set_ttl_internal self key_data (ttl : PyVal) : M Future :=
  match cls self with
  | Map => Map__set_ttl_internal self key_data ttl
  | MapFeatNearCache => MapFeatNearCache__set_ttl_internal self key_data ttl
  end.

Definition _try_remove_internal self key_data (timeout : PyVal) : M Future :=
  match cls self with
  | Map => Map__try_remove_internal self key_data timeout
  | MapFeatNearCache => MapFeatNearCache__try_remove_internal self key_data timeout
  end.

Definition _try_put_internal self key_data value_data (timeout : PyVal) : M Future :=
  match cls self with
  | Map => Map__try_put_internal self key_data value_data timeout
  | MapFeatNearCache => MapFeatNearCache__try_put_internal self key_data value_data timeout
  end.

Definition _put_transient_internal self key_data value_data (ttl max_idle : PyVal)
  : M Future :=
  match cls self with
  | Map => Map__put_transient_internal self key_data value_data ttl max_idle
  | MapFeatNearCache =>
      MapFeatNearCache__put_transient_internal self key_data value_data ttl max_idle
  end.

Definition _put_if_absent_internal self key_data value_data (ttl max_idle : PyVal)
  : M Future :=
  match cls self with
  | Map => Map__put_if_absent_internal self key_data value_data ttl max_idle
  | MapFeatNearCache =>
      MapFeatNearCache__put_if_absent_internal self key_data value_data ttl max_idle
  end.

Definition _replace_if_same_internal self key_data (old_value_data new_value_data : Data)
  : M Future :=
  match cls self with
  | Map => Map__replace_if_same_internal self key_data old_value_data new_value_data
  | MapFeatNearCache =>
      MapFeatNearCache__replace_if_same_internal self key_data old_value_data new_value_data
  end.

Definition _replace_internal self key_data value_data : M Future :=
  match cls self with
  | Map => Map__replace_internal self key_data value_data
  | MapFeatNearCache => MapFeatNearCache__replace_internal self key_data value_data
  end.

Definition _evict_internal self key_data : M Future :=
  match cls self with
  | Map => Map__evict_internal self key_data
  | MapFeatNearCache => MapFeatNearCache__evict_internal self key_data
  end.

Definition _load_all_internal self (key_data_list : list Data)
           (replace_existing_values : bool) : M Future :=
  match cls self with
  | Map => Map__load_all_internal self key_data_list replace_existing_values
  | MapFeatNearCache =>
      MapFeatNearCache__load_all_internal self key_data_list replace_existing_values
  end.

Definition _execute_on_key_internal self key_data (entry_processor : Obj) : M Future :=
  match cls self with
  | Map => Map__execute_on_key_internal self key_data entry_processor
  | MapFeatNearCache => MapFeatNearCache__execute_on_key_internal self key_data entry_processor
  end.

(** ** [class Map]: the public operations *)

Definition Map_clear self : M Future :=
  request ← encode_request map_clear_codec [AStr (name self)];
  _invoke self request no_op_response_handler.

Definition Map_contains_key self (key : PyVal) : M Future :=
  key ← check_not_none key "key can't be None";
  let key_data := _to_data self key in
  _contains_key_internal self key_data.

Definition Map_contains_value self (value : PyVal) : M Future :=
  value ← check_not_none value "value can't be None";
  let value_data := _to_data self value in
  request ← encode_request map_contains_value_codec [AStr (name self); AData value_data];
  _invoke self request (decode_response self map_contains_value_codec).

Definition Map_delete self (key : PyVal) : M Future :=
  key ← check_not_none key "key can't be None";
  let key_data := _to_data self key in
  _delete_internal self key_data.

Definition Map_evict self (key : PyVal) : M Future :=
  key ← check_not_none key "key can't be None";
  let key_data := _to_data self key in
  _evict_internal self key_data.

Definition Map_evict_all self : M Future :=
  request ← encode_request map_evict_all_codec [AStr (name self)];
  _invoke self request no_op_response_handler.

Definition Map_execute_on_key self (key : PyVal) (entry_processor : Obj) : M Future :=
  key ← check_not_none key "key can't be None";
  let key_data := _to_data self key in
  _execute_on_key_internal self key_data entry_processor.

Definition Map_force_unlock self (key : PyVal) : M Future :=
  key ← check_not_none key "key can't be None";
  let key_data := _to_data self key in
  reference_id ← get_and_increment;
  request ← encode_request map_force_unlock_codec
              [AStr (name self); AData key_data; ALong reference_id];
  _invoke_on_key self request key_data no_op_response_handler.

Definition Map_get self (key : PyVal) : M Future :=
  key ← check_not_none key "key can't be None";
  let key_data := _to_data self key in
  _get_internal self key_data.

Definition Map_get_entry_view self (key : PyVal) : M Future :=
  key ← check_not_none key "key can't be None";
  let handler := entry_view_handler self in
  let key_data := _to_data self key in
  request ← encode_request map_get_entry_view_codec
              [AStr (name self); AData key_data; ALong (thread_id self)];
  _invoke_on_key self request key_data handler.

Definition Map_is_locked self (key : PyVal) : M Future :=
  key ← check_not_none key "key can't be None";
  let key_data := _to_data self key in
  request ← encode_request map_is_locked_codec [AStr (name self); AData key_data];
  _invoke_on_key self request key_data (decode_response self map_is_locked_codec).

(** [if keys:] holds for a non-empty sequence only. *)
Definition Map_load_all self (keys : option (list Obj)) (replace_existing_values : bool)
  : M Future :=
  match keys with
  | Some ((_ :: _) as keys) =>
      let key_data_list := _to_data self <$> keys in
      _load_all_internal self key_data_list replace_existing_values
  | _ =>
      request ← encode_request map_load_all_codec
                  [AStr (name self); ABool replace_existing_values];
      _invoke self request no_op_response_handler
  end.

Definition Map_lock self (key lease_time : PyVal) : M Future :=
  key ← check_not_none key "key can't be None";
  let key_data := _to_data self key in
  reference_id ← get_and_increment;
  request ← encode_request map_lock_codec
              [AStr (name self); AData key_data; ALong (thread_id self);
               ALong (to_millis self lease_time); ALong reference_id];
  let partition_id := get_partition_id self key_data in
  let invocation := mkInvocation request (Some partition_id) MAX_SIZE no_op_response_handler in
  invoke invocation.

Definition Map_put self (key value ttl max_idle : PyVal) : M Future :=
  key ← check_not_none key "key can't be None";
  value ← check_not_none value "value can't be None";
  let key_data := _to_data self key in
  let value_data := _to_data self value in
  _put_internal self key_data value_data ttl max_idle.

Definition Map_put_if_absent self (key value ttl max_idle : PyVal) : M Future :=
  key ← check_not_none key "key can't be None";
  value ← check_not_none value "value can't be None";
  let key_data := _to_data self key in
  let value_data := _to_data self value in
  _put_if_absent_internal self key_data value_data ttl max_idle.

Definition Map_put_transient self (key value ttl max_idle : PyVal) : M Future :=
  key ← check_not_none key "key can't be None";
  value ← check_not_none value "value can't be None";
  let key_data := _to_data self key in
  let value_data := _to_data self value in
  _put_transient_internal self key_data value_data ttl max_idle.

Definition Map_remove self (key : PyVal) : M Future :=
  key ← check_not_none key "key can't be None";
  let key_data := _to_data self key in
  _remove_internal self key_data.

Definition Map_remove_if_same self (key value : PyVal) : M Future :=
  key ← check_not_none key "key can't be None";
  value ← check_not_none value "value can't be None";
  let key_data := _to_data self key in
  let value_data := _to_data self value in
  _remove_if_same_internal_ self key_data value_data.

Definition Map_replace self (key value : PyVal) : M Future :=
  key ← check_not_none key "key can't be None";
  value ← check_not_none value "value can't be None";
  let key_data := _to_data self key in
  let value_data := _to_data self value in
  _replace_internal self key_data value_data.

Definition Map_replace_if_same self (key old_value new_value : PyVal) : M Future :=
  key ← check_not_none key "key can't be None";
  old_value ← check_not_none old_value "old_value can't be None";
  new_value ← check_not_none new_value "new_value can't be None";
  let key_data := _to_data self key in
  let old_value_data := _to_data self old_value in
  let new_value_data := _to_data self new_value in
  _replace_if_same_internal self key_data old_value_data new_value_data.

Definition Map_set self (key value ttl max_idle : PyVal) : M Future :=
  key ← check_not_none key "key can't be None";
  value ← check_not_none value "value can't be None";
  let key_data := _to_data self key in
  let value_data := _to_data self value in
  _set_internal self key_data value_data ttl max_idle.

Definition Map_set_ttl self (key ttl : PyVal) : M Future :=
  key ← check_not_none key "key can't be None";
  _ ← check_not_none ttl "ttl can't be None";
  let key_data := _to_data self key in
  _set_ttl_internal self key_data ttl.

Definition Map_try_lock self (key lease_time timeout : PyVal) : M Future :=
  key ← check_not_none key "key can't be None";
  let key_data := _to_data self key in
  reference_id ← get_and_increment;
  request ← encode_request map_try_lock_codec
              [AStr (name self); AData key_data; ALong (thread_id self);
               ALong (to_millis self lease_time); ALong (to_millis self timeout);
               ALong reference_id];
  let partition_id := get_partition_id self key_data in
  let invocation :=
    mkInvocation request (Some partition_id) MAX_SIZE
                 (decode_response self map_try_lock_codec) in
  invoke invocation.

Definition Map_try_put self (key value timeout : PyVal) : M Future :=
  key ← check_not_none key "key can't be None";
  value ← check_not_none value "value can't be None";
  let key_data := _to_data self key in
  let value_data := _to_data self value in
  _try_put_internal self key_data value_data timeout.

Definition Map_try_remove self (key timeout : PyVal) : M Future :=
  key ← check_not_none key "key can't be None";
  let key_data := _to_data self key in
  _try_remove_internal self key_data timeout.

Definition Map_unlock self (key : PyVal) : M Future :=
  key ← check_not_none key "key can't be None";
  let key_data := _to_data self key in
  reference_id ← get_and_increment;
  request ← encode_request map_unlock_codec
              [AStr (name self); AData key_data; ALong (thread_id self);
               ALong reference_id];
  _invoke_on_key self request key_data no_op_response_handler.

(** ** [class MapFeatNearCache]: the overridden public operations *)

Definition MapFeatNearCache_clear self : M Future :=
  NearCache__clear ;;
  Map_clear self.

Definition MapFeatNearCache_evict_all self : M Future :=
  NearCache_clear ;;
  Map_evict_all self.

Definition MapFeatNearCache_load_all self (keys : option (list Obj))
           (replace_existing_values : bool) : M Future :=
  (if is_None keys && replace_existing_values
   then NearCache_clear else mret tt) ;;
  Map_load_all self keys replace_existing_values.

(** [self.clear()], [self.evict_all()], [self.load_all(...)] by the
    class of [self]. *)
Definition clear self : M Future :=
  match cls self with
  | Map => Map_clear self
  | MapFeatNearCache => MapFeatNearCache_clear self
  end.

Definition evict_all self : M Future :=
  match cls self with
  | Map => Map_evict_all self
  | MapFeatNearCache => MapFeatNearCache_evict_all self
  end.

Definition load_all self (keys : option (list Obj)) (replace_existing_values : bool)
  : M Future :=
  match cls self with
  | Map => Map_load_all self keys replace_existing_values
  | MapFeatNearCache => MapFeatNearCache_load_all self keys replace_existing_values
  end.

(** ** Invalidation events *)

(** Modelled from the spec: the event side of
    [map_add_near_cache_invalidation_listener_codec] is not among the
    sources.  "InvalidationEvent: either a single entry (key, or null
    meaning clear everything, source member id, partition id, sequence)
    or a batch (parallel sequences of the same fields)". *)
Inductive InvalidationEvent :=
| SingleInvalidation (key : option Data) (source_uuid partition_uuid sequence : Z)
| BatchInvalidation (keys : list Data) (source_uuids partition_uuids sequences : list Z).

(** Modelled from the spec: [codec.handle(m, self._handle_invalidation,
    self._handle_batch_invalidation)], which hands the fields of the event
    to the matching handler. *)
Definition handle self (event : InvalidationEvent) : M unit :=
  match event with
  | SingleInvalidation key source_uuid partition_uuid sequence =>
      _handle_invalidation self key source_uuid partition_uuid sequence
  | BatchInvalidation keys source_uuids partition_uuids sequences =>
      _handle_batch_invalidation self keys source_uuids partition_uuids sequences
  end.

(** Modelled from the spec: the listener service runs the handler on the
    events of a subscription in the order received. *)
Definition handle_all self (events : list InvalidationEvent) : M unit :=
  for_each events (handle self).

(** The keys the events name, and whether one of them is a single event
    with a null key. *)
Definition named_keys (events : list InvalidationEvent) : list Data :=
  events ≫= fun event =>
    match event with
    | SingleInvalidation (Some key) _ _ _ => [key]
    | SingleInvalidation None _ _ _ => []
    | BatchInvalidation keys _ _ _ => keys
    end.

Definition has_null_key (events : list InvalidationEvent) : bool :=
  existsb (fun event =>
             match event with
             | SingleInvalidation None _ _ _ => true
             | _ => false
             end) events.

(** The (partition, sequence) pairs the events carry, as observed. *)
Definition observed_sequences (events : list InvalidationEvent) : list (Z * Z) :=
  events ≫= fun event =>
    match event with
    | SingleInvalidation _ _ partition_uuid sequence => [(partition_uuid, sequence)]
    | BatchInvalidation _ _ partition_uuids sequences => zip partition_uuids sequences
    end.

(** In the words of the specification, "the client detects it missed
    sequence numbers (a gap)": some partition is observed at a sequence
    number more than one past the last one observed for it. *)
Fixpoint spec_gap_from (last : gmap Z Z) (observed : list (Z * Z)) : bool :=
  match observed with
  | [] => false
  | (partition, sequence) :: rest =>
      match last !! partition with
      | Some previous =>
          (previous + 1 <? sequence) || spec_gap_from (<[partition := sequence]> last) rest
      | None => spec_gap_from (<[partition := sequence]> last) rest
      end
  end.

Definition spec_sequence_gap (events : list InvalidationEvent) : bool :=
  spec_gap_from ∅ (observed_sequences events).

(** ** The key-addressed mutating operations, called with proper keys *)

Inductive Mutation :=
| mutation_put (key value : Obj) (ttl max_idle : PyVal)
| mutation_put_if_absent (key value : Obj) (ttl max_idle : PyVal)
| mutation_put_transient (key value : Obj) (ttl max_idle : PyVal)
| mutation_set (key value : Obj) (ttl max_idle : PyVal)
| mutation_set_ttl (key ttl : Obj)
| mutation_remove (key : Obj)
| mutation_remove_if_same (key value : Obj)
| mutation_delete (key : Obj)
| mutation_replace (key value : Obj)
| mutation_replace_if_same (key old_value new_value : Obj)
| mutation_evict (key : Obj)
| mutation_try_put (key value : Obj) (timeout : PyVal)
| mutation_try_remove (key : Obj) (timeout : PyVal)
| mutation_execute_on_key (key entry_processor : Obj)
| mutation_load_all (keys : list Obj) (replace_existing_values : bool).

Definition run_mutation self (m : Mutation) : M Future :=
  match m with
  | mutation_put key value ttl max_idle => Map_put self (Some key) (Some value) ttl max_idle
  | mutation_put_if_absent key value ttl max_idle =>
      Map_put_if_absent self (Some key) (Some value) ttl max_idle
  | mutation_put_transient key value ttl max_idle =>
      Map_put_transient self (Some key) (Some value) ttl max_idle
  | mutation_set key value ttl max_idle => Map_set self (Some key) (Some value) ttl max_idle
  | mutation_set_ttl key ttl => Map_set_ttl self (Some key) (Some ttl)
  | mutation_remove key => Map_remove self (Some key)
  | mutation_remove_if_same key value => Map_remove_if_same self (Some key) (Some value)
  | mutation_delete key => Map_delete self (Some key)
  | mutation_replace key value => Map_replace self (Some key) (Some value)
  | mutation_replace_if_same key old_value new_value =>
      Map_replace_if_same self (Some key) (Some old_value) (Some new_value)
  | mutation_evict key => Map_evict self (Some key)
  | mutation_try_put key value timeout => Map_try_put self (Some key) (Some value) timeout
  | mutation_try_remove key timeout => Map_try_remove self (Some key) timeout
  | mutation_execute_on_key key entry_processor =>
      Map_execute_on_key self (Some key) entry_processor
  | mutation_load_all keys replace_existing_values =>
      load_all self (Some keys) replace_existing_values
  end.

(** The serialized key or keys the operation addresses. *)
Definition mutation_keys self (m : Mutation) : list Data :=
  match m with
  | mutation_put key _ _ _ | mutation_put_if_absent key _ _ _
  | mutation_put_transient key _ _ _ | mutation_set key _ _ _
  | mutation_set_ttl key _ | mutation_remove key | mutation_remove_if_same key _
  | mutation_delete key | mutation_replace key _ | mutation_replace_if_same key _ _
  | mutation_evict key | mutation_try_put key _ _ | mutation_try_remove key _
  | mutation_execute_on_key key _ => [_to_data self key]
  | mutation_load_all keys _ => _to_data self <$> keys
  end.

(** ** The map-wide operations *)

Inductive MapWideCall :=
| map_wide_clear
| map_wide_evict_all
| map_wide_load_all (keys : option (list Obj)) (replace_existing_values : bool).

Definition run_map_wide self (c : MapWideCall) : M Future :=
  match c with
  | map_wide_clear => clear self
  | map_wide_evict_all => evict_all self
  | map_wide_load_all keys replace_existing_values =>
      load_all self keys replace_existing_values
  end.

(** The guard of [MapFeatNearCache]: [clear] and [evict_all] always
    clear the near cache, [load_all] when [keys is None and
    replace_existing_values]. *)
Definition clears_near_cache (c : MapWideCall) : bool :=
  match c with
  | map_wide_clear | map_wide_evict_all => true
  | map_wide_load_all keys replace_existing_values =>
      Py.is_None keys && replace_existing_values
  end.

(** ** The operations that take a key or a value, arguments as given *)

Inductive KeyedCall :=
| keyed_get (key : PyVal)
| keyed_put (key value ttl max_idle : PyVal)
| keyed_set (key value ttl max_idle : PyVal)
| keyed_remove (key : PyVal)
| keyed_delete (key : PyVal)
| keyed_replace (key value : PyVal)
| keyed_replace_if_same (key old_value new_value : PyVal)
| keyed_remove_if_same (key value : PyVal)
| keyed_evict (key : PyVal)
| keyed_contains_key (key : PyVal)
| keyed_contains_value (value : PyVal)
| keyed_lock (key lease_time : PyVal)
| keyed_try_lock (key lease_time timeout : PyVal)
| keyed_unlock (key : PyVal)
| keyed_force_unlock (key : PyVal)
| keyed_try_put (key value timeout : PyVal)
| keyed_try_remove (key timeout : PyVal)
| keyed_put_if_absent (key value ttl max_idle : PyVal)
| keyed_put_transient (key value ttl max_idle : PyVal)
| keyed_set_ttl (key ttl : PyVal)
| keyed_execute_on_key (key : PyVal) (entry_processor : Obj)
| keyed_get_entry_view (key : PyVal)
| keyed_is_locked (key : PyVal).

Definition run_keyed self (c : KeyedCall) : M Future :=
  match c with
  | keyed_get key => Map_get self key
  | keyed_put key value ttl max_idle => Map_put self key value ttl max_idle
  | keyed_set key value ttl max_idle => Map_set self key value ttl max_idle
  | keyed_remove key => Map_remove self key
  | keyed_delete key => Map_delete self key
  | keyed_replace key value => Map_replace self key value
  | keyed_replace_if_same key old_value new_value =>
      Map_replace_if_same self key old_value new_value
  | keyed_remove_if_same key value => Map_remove_if_same self key value
  | keyed_evict key => Map_evict self key
  | keyed_contains_key key => Map_contains_key self key
  | keyed_contains_value value => Map_contains_value self value
  | keyed_lock key lease_time => Map_lock self key lease_time
  | keyed_try_lock key lease_time timeout => Map_try_lock self key lease_time timeout
  | keyed_unlock key => Map_unlock self key
  | keyed_force_unlock key => Map_force_unlock self key
  | keyed_try_put key value timeout => Map_try_put self key value timeout
  | keyed_try_remove key timeout => Map_try_remove self key timeout
  | keyed_put_if_absent key value ttl max_idle =>
      Map_put_if_absent self key value ttl max_idle
  | keyed_put_transient key value ttl max_idle =>
      Map_put_transient self key value ttl max_idle
  | keyed_set_ttl key ttl => Map_set_ttl self key ttl
  | keyed_execute_on_key key entry_processor => Map_execute_on_key self key entry_processor
  | keyed_get_entry_view key => Map_get_entry_view self key
  | keyed_is_locked key => Map_is_locked self key
  end.

(** The key and value arguments of the call. *)
Definition key_value_arguments (c : KeyedCall) : list PyVal :=
  match c with
  | keyed_get key | keyed_remove key | keyed_delete key | keyed_evict key
  | keyed_contains_key key | keyed_lock key _ | keyed_try_lock key _ _
  | keyed_unlock key | keyed_force_unlock key | keyed_try_remove key _
  | keyed_set_ttl key _ | keyed_execute_on_key key _ | keyed_get_entry_view key
  | keyed_is_locked key => [key]
  | keyed_contains_value value => [value]
  | keyed_put key value _ _ | keyed_set key value _ _ | keyed_replace key value
  | keyed_remove_if_same key value | keyed_try_put key value _
  | keyed_put_if_absent key value _ _ | keyed_put_transient key value _ _ => [key; value]
  | keyed_replace_if_same key old_value new_value => [key; old_value; new_value]
  end.

Definition some_argument_is_None (c : KeyedCall) : bool :=
  existsb Py.is_None (key_value_arguments c).

End Methods.

Arguments InvalidationEvent : clear implicits.
Arguments Mutation : clear implicits.
Arguments KeyedCall : clear implicits.
Arguments MapWideCall : clear implicits.

(** ** A small client to run the operations on: string keys, numbers as
    objects and as messages. *)
Definition demo_map (class : MapClass) : Proxy.Proxy string Z Z :=
  {| cls := class;
     name := "demo";
     _to_data := fun o => if o =? 1 then "k1" else if o =? 2 then "k2" else "k";
     _to_object := fun d => match d with Some "seven" => Some 7 | _ => None end;
     get_partition_id := fun d => Z.of_nat (String.length d);
     thread_id := 11;
     to_millis := fun v => match v with Some n => 1000 * n | None => -1 end;
     decode_response := fun _ m => Some m;
     decode_data := fun _ m => if m =? 7 then Some "seven" else None;
     entry_view_handler := fun m => Some m |}.

Definition demo_client (cache : gmap string (option Z)) : Client string Z Z :=
  mkClient cache 0 0 (fun _ => Ok 7) [].

Definition demo_near_cache_map : Proxy.Proxy string Z Z := demo_map MapFeatNearCache.

Definition demo_two_entries : gmap string (option Z) :=
  <["k1" := Some 10]> (<["k2" := Some 20]> ∅).

(** Two single events for [k1] on partition 0, sequence 1 and then 3:
    sequence 2 was missed. *)
Definition demo_gapped : list (InvalidationEvent string) :=
  [SingleInvalidation (Some "k1") 7 0 1; SingleInvalidation (Some "k1") 7 0 3].

End MapProxy.

(* ===================================================================== *)
(** * hazelcast/proxy/map.py: [BlockingMap] *)
(* ===================================================================== *)

Module Blocking.
Import Py Proxy MapProxy.

(** An argument with a default may be left out of a call. *)
Inductive Optional (A : Type) :=
| omitted
| given (a : A).
Arguments omitted {A}.
Arguments given {A} a.

Definition default {A} (d : A) (o : Optional A) : A :=
  match o with omitted => d | given a => a end.

Section Facade.

Context {Data : Type} `{Countable Data}.
Context {Obj Message : Type}.

Abbreviation PyVal := (option Obj).
Abbreviation M := (Proxy.M Data Obj Message).
Abbreviation Future := (Proxy.Future Data Obj Message).

(** [IndexType.SORTED] of [hazelcast.config] and the number [0], the
    two defaults of the signatures that are not [None] or a boolean. *)
Variables (IndexType_SORTED zero : Obj).

(** The object a [BlockingMap] wraps: a [Map] or a [MapFeatNearCache],
    seen through its public operations, all arguments supplied. *)
Record MapObject := mkMapObject {
  m_add_entry_listener :
    bool -> PyVal -> PyVal -> PyVal -> PyVal -> PyVal -> PyVal -> PyVal -> PyVal ->
    PyVal -> PyVal -> PyVal -> M Future;
  m_add_index : PyVal -> PyVal -> PyVal -> PyVal -> M Future;
  m_add_interceptor : PyVal -> M Future;
  m_aggregate : PyVal -> PyVal -> M Future;
  m_clear : M Future;
  m_contains_key : PyVal -> M Future;
  m_contains_value : PyVal -> M Future;
  m_delete : PyVal -> M Future;
  m_entry_set : PyVal -> M Future;
  m_evict : PyVal -> M Future;
  m_evict_all : M Future;
  m_execute_on_entries : PyVal -> PyVal -> M Future;
  m_execute_on_key : PyVal -> Obj -> M Future;
  m_execute_on_keys : PyVal -> PyVal -> M Future;
  m_flush : M Future;
  m_force_unlock : PyVal -> M Future;
  m_get : PyVal -> M Future;
  m_get_all : PyVal -> M Future;
  m_get_entry_view : PyVal -> M Future;
  m_is_empty : M Future;
  m_is_locked : PyVal -> M Future;
  m_key_set : PyVal -> M Future;
  m_load_all : option (list Obj) -> bool -> M Future;
  m_lock : PyVal -> PyVal -> M Future;
  m_project : PyVal -> PyVal -> M Future;
  m_put : PyVal -> PyVal -> PyVal -> PyVal -> M Future;
  m_put_all : PyVal -> M Future;
  m_put_if_absent : PyVal -> PyVal -> PyVal -> PyVal -> M Future;
  m_put_transient : PyVal -> PyVal -> PyVal -> PyVal -> M Future;
  m_remove : PyVal -> M Future;
  m_remove_if_same : PyVal -> PyVal -> M Future;
  m_remove_entry_listener : PyVal -> M Future;
  m_remove_interceptor : PyVal -> M Future;
  m_replace : PyVal -> PyVal -> M Future;
  m_replace_if_same : PyVal -> PyVal -> PyVal -> M Future;
  m_set : PyVal -> PyVal -> PyVal -> PyVal -> M Future;
  m_set_ttl : PyVal -> PyVal -> M Future;
  m_size : M Future;
  m_try_lock : PyVal -> PyVal -> PyVal -> M Future;
  m_try_put : PyVal -> PyVal -> PyVal -> M Future;
  m_try_remove : PyVal -> PyVal -> M Future;
  m_unlock : PyVal -> M Future;
  m_values : PyVal -> M Future
}.

(** The operations of [Map] and [MapFeatNearCache] embedded above as
    such an object; the others are taken from [rest]. *)
Definition as_MapObject (self : Proxy.Proxy Data Obj Message) (rest : MapObject)
  : MapObject :=
  {| m_add_entry_listener := m_add_entry_listener rest;
     m_add_index := m_add_index rest;
     m_add_interceptor := m_add_interceptor rest;
     m_aggregate := m_aggregate rest;
     m_clear := clear self;
     m_contains_key := Map_contains_key self;
     m_contains_value := Map_contains_value self;
     m_delete := Map_delete self;
     m_entry_set := m_entry_set rest;
     m_evict := Map_evict self;
     m_evict_all := evict_all self;
     m_execute_on_entries := m_execute_on_entries rest;
     m_execute_on_key := Map_execute_on_key self;
     m_execute_on_keys := m_execute_on_keys rest;
     m_flush := m_flush rest;
     m_force_unlock := Map_force_unlock self;
     m_get := Map_get self;
     m_get_all := m_get_all rest;
     m_get_entry_view := Map_get_entry_view self;
     m_is_empty := m_is_empty rest;
     m_is_locked := Map_is_locked self;
     m_key_set := m_key_set rest;
     m_load_all := load_all self;
     m_lock := Map_lock self;
     m_project := m_project rest;
     m_put := Map_put self;
     m_put_all := m_put_all rest;
     m_put_if_absent := Map_put_if_absent self;
     m_put_transient := Map_put_transient self;
     m_remove := Map_remove self;
     m_remove_if_same := Map_remove_if_same self;
     m_remove_entry_listener := m_remove_entry_listener rest;
     m_remove_interceptor := m_remove_interceptor rest;
     m_replace := Map_replace self;
     m_replace_if_same := Map_replace_if_same self;
     m_set := Map_set self;
     m_set_ttl := Map_set_ttl self;
     m_size := m_size rest;
     m_try_lock := Map_try_lock self;
     m_try_put := Map_try_put self;
     m_try_remove := Map_try_remove self;
     m_unlock := Map_unlock self;
     m_values := m_values rest |}.

(** A call of a map operation as the caller writes it: the operation and
    its argument tuple, defaulted arguments possibly left out. *)
Inductive MapCall :=
| call_add_entry_listener (include_value : Optional bool)
    (key predicate added_func removed_func updated_func evicted_func evict_all_func
     clear_all_func merged_func expired_func loaded_func : Optional PyVal)
| call_add_index (attributes index_type name bitmap_index_options : Optional PyVal)
| call_add_interceptor (interceptor : PyVal)
| call_aggregate (aggregator : PyVal) (predicate : Optional PyVal)
| call_clear
| call_contains_key (key : PyVal)
| call_contains_value (value : PyVal)
| call_delete (key : PyVal)
| call_entry_set (predicate : Optional PyVal)
| call_evict (key : PyVal)
| call_evict_all
| call_execute_on_entries (entry_processor : PyVal) (predicate : Optional PyVal)
| call_execute_on_key (key : PyVal) (entry_processor : Obj)
| call_execute_on_keys (keys entry_processor : PyVal)
| call_flush
| call_force_unlock (key : PyVal)
| call_get (key : PyVal)
| call_get_all (keys : PyVal)
| call_get_entry_view (key : PyVal)
| call_is_empty
| call_is_locked (key : PyVal)
| call_key_set (predicate : Optional PyVal)
| call_load_all (keys : Optional (option (list Obj))) (replace_existing_values : Optional bool)
| call_lock (key : PyVal) (lease_time : Optional PyVal)
| call_project (projection : PyVal) (predicate : Optional PyVal)
| call_put (key value : PyVal) (ttl max_idle : Optional PyVal)
| call_put_all (map : PyVal)
| call_put_if_absent (key value : PyVal) (ttl max_idle : Optional PyVal)
| call_put_transient (key value : PyVal) (ttl max_idle : Optional PyVal)
| call_remove (key : PyVal)
| call_remove_if_same (key value : PyVal)
| call_remove_entry_listener (registration_id : PyVal)
| call_remove_interceptor (registration_id : PyVal)
| call_replace (key value : PyVal)
| call_replace_if_same (key old_value new_value : PyVal)
| call_set (key value : PyVal) (ttl max_idle : Optional PyVal)
| call_set_ttl (key ttl : PyVal)
| call_size
| call_try_lock (key : PyVal) (lease_time timeout : Optional PyVal)
| call_try_put (key value : PyVal) (timeout : Optional PyVal)
| call_try_remove (key : PyVal) (timeout : Optional PyVal)
| call_unlock (key : PyVal)
| call_values (predicate : Optional PyVal).

(** [wrapped.op(args)]: a call on the wrapped object; what the caller
    left out is filled in from the signatures of [class Map]. *)
Definition call_on (wrapped : MapObject) (c : MapCall) : M Future :=
  match c with
  | call_add_entry_listener include_value key predicate added_func removed_func
      updated_func evicted_func evict_all_func clear_all_func merged_func expired_func
      loaded_func =>
      m_add_entry_listener wrapped (default false include_value) (default None key)
        (default None predicate) (default None added_func) (default None removed_func)
        (default None updated_func) (default None evicted_func)
        (default None evict_all_func) (default None clear_all_func)
        (default None merged_func) (default None expired_func) (default None loaded_func)
  | call_add_index attributes index_type name bitmap_index_options =>
      m_add_index wrapped (default None attributes)
        (default (Some IndexType_SORTED) index_type) (default None name)
        (default None bitmap_index_options)
  | call_add_interceptor interceptor => m_add_interceptor wrapped interceptor
  | call_aggregate aggregator predicate =>
      m_aggregate wrapped aggregator (default None predicate)
  | call_clear => m_clear wrapped
  | call_contains_key key => m_contains_key wrapped key
  | call_contains_value value => m_contains_value wrapped value
  | call_delete key => m_delete wrapped key
  | call_entry_set predicate => m_entry_set wrapped (default None predicate)
  | call_evict key => m_evict wrapped key
  | call_evict_all => m_evict_all wrapped
  | call_execute_on_entries entry_processor predicate =>
      m_execute_on_entries wrapped entry_processor (default None predicate)
  | call_execute_on_key key entry_processor => m_execute_on_key wrapped key entry_processor
  | call_execute_on_keys keys entry_processor =>
      m_execute_on_keys wrapped keys entry_processor
  | call_flush => m_flush wrapped
  | call_force_unlock key => m_force_unlock wrapped key
  | call_get key => m_get wrapped key
  | call_get_all keys => m_get_all wrapped keys
  | call_get_entry_view key => m_get_entry_view wrapped key
  | call_is_empty => m_is_empty wrapped
  | call_is_locked key => m_is_locked wrapped key
  | call_key_set predicate => m_key_set wrapped (default None predicate)
  | call_load_all keys replace_existing_values =>
      m_load_all wrapped (default None keys) (default true replace_existing_values)
  | call_lock key lease_time => m_lock wrapped key (default None lease_time)
  | call_project projection predicate =>
      m_project wrapped projection (default None predicate)
  | call_put key value ttl max_idle =>
      m_put wrapped key value (default None ttl) (default None max_idle)
  | call_put_all map => m_put_all wrapped map
  | call_put_if_absent key value ttl max_idle =>
      m_put_if_absent wrapped key value (default None ttl) (default None max_idle)
  | call_put_transient key value ttl max_idle =>
      m_put_transient wrapped key value (default None ttl) (default None max_idle)
  | call_remove key => m_remove wrapped key
  | call_remove_if_same key value => m_remove_if_same wrapped key value
  | call_remove_entry_listener registration_id =>
      m_remove_entry_listener wrapped registration_id
  | call_remove_interceptor registration_id => m_remove_interceptor wrapped registration_id
  | call_replace key value => m_replace wrapped key value
  | call_replace_if_same key old_value new_value =>
      m_replace_if_same wrapped key old_value new_value
  | call_set key value ttl max_idle =>
      m_set wrapped key value (default None ttl) (default None max_idle)
  | call_set_ttl key ttl => m_set_ttl wrapped key ttl
  | call_size => m_size wrapped
  | call_try_lock key lease_time timeout =>
      m_try_lock wrapped key (default None lease_time) (default (Some zero) timeout)
  | call_try_put key value timeout =>
      m_try_put wrapped key value (default (Some zero) timeout)
  | call_try_remove key timeout => m_try_remove wrapped key (default (Some zero) timeout)
  | call_unlock key => m_unlock wrapped key
  | call_values predicate => m_values wrapped (default None predicate)
  end.

(** What the facade is to be, in the words of the specification: the
    resolved result of the same call on the wrapped map,
    [wrapped.op(args).result()]. *)
Definition blocking_spec (wrapped : MapObject) (c : MapCall) : M PyVal :=
  future ← call_on wrapped c; result future.

(** ** [class BlockingMap] *)

Record BlockingMap := mkBlockingMap {
  name : string;
  service_name : string;
  _wrapped : MapObject
}.

Implicit Types (self : BlockingMap).

Definition BlockingMap_add_entry_listener self (include_value : bool)
           (key predicate added_func removed_func updated_func evicted_func evict_all_func
            clear_all_func merged_func expired_func loaded_func : PyVal) : M PyVal :=
  f ← m_add_entry_listener (_wrapped self) include_value key predicate added_func
        removed_func updated_func evicted_func evict_all_func clear_all_func merged_func
        expired_func loaded_func;
  result f.

Definition BlockingMap_add_index self (attributes index_type name bitmap_index_options : PyVal)
  : M PyVal :=
  f ← m_add_index (_wrapped self) attributes index_type name bitmap_index_options; result f.

Definition BlockingMap_add_interceptor self (interceptor : PyVal) : M PyVal :=
  f ← m_add_interceptor (_wrapped self) interceptor; result f.

Definition BlockingMap_aggregate self (aggregator predicate : PyVal) : M PyVal :=
  f ← m_aggregate (_wrapped self) aggregator predicate; result f.

Definition BlockingMap_clear self : M PyVal :=
  f ← m_clear (_wrapped self); result f.

Definition BlockingMap_contains_key self (key : PyVal) : M PyVal :=
  f ← m_contains_key (_wrapped self) key; result f.

Definition BlockingMap_contains_value self (value : PyVal) : M PyVal :=
  f ← m_contains_value (_wrapped self) value; result f.

Definition BlockingMap_delete self (key : PyVal) : M PyVal :=
  f ← m_delete (_wrapped self) key; result f.

Definition BlockingMap_entry_set self (predicate : PyVal) : M PyVal :=
  f ← m_entry_set (_wrapped self) predicate; result f.

Definition BlockingMap_evict self (key : PyVal) : M PyVal :=
  f ← m_evict (_wrapped self) key; result f.

Definition BlockingMap_evict_all self : M PyVal :=
  f ← m_evict_all (_wrapped self); result f.

Definition BlockingMap_execute_on_entries self (entry_processor predicate : PyVal)
  : M PyVal :=
  f ← m_execute_on_entries (_wrapped self) entry_processor predicate; result f.

Definition BlockingMap_execute_on_key self (key : PyVal) (entry_processor : Obj) : M PyVal :=
  f ← m_execute_on_key (_wrapped self) key entry_processor; result f.

Definition BlockingMap_execute_on_keys self (keys entry_processor : PyVal) : M PyVal :=
  f ← m_execute_on_keys (_wrapped self) keys entry_processor; result f.

Definition BlockingMap_flush self : M PyVal :=
  f ← m_flush (_wrapped self); result f.

Definition BlockingMap_force_unlock self (key : PyVal) : M PyVal :=
  f ← m_force_unlock (_wrapped self) key; result f.

Definition BlockingMap_get self (key : PyVal) : M PyVal :=
  f ← m_get (_wrapped self) key; result f.

Definition BlockingMap_get_all self (keys : PyVal) : M PyVal :=
  f ← m_get_all (_wrapped self) keys; result f.

Definition BlockingMap_get_entry_view self (key : PyVal) : M PyVal :=
  f ← m_get_entry_view (_wrapped self) key; result f.

Definition BlockingMap_is_empty self : M PyVal :=
  f ← m_is_empty (_wrapped self); result f.

Definition BlockingMap_is_locked self (key : PyVal) : M PyVal :=
  f ← m_is_locked (_wrapped self) key; result f.

Definition BlockingMap_key_set self (predicate : PyVal) : M PyVal :=
  f ← m_key_set (_wrapped self) predicate; result f.

Definition BlockingMap_load_all self (keys : option (list Obj))
           (replace_existing_values : bool) : M PyVal :=
  f ← m_load_all (_wrapped self) keys replace_existing_values; result f.

Definition BlockingMap_lock self (key lease_time : PyVal) : M PyVal :=
  f ← m_lock (_wrapped self) key lease_time; result f.

Definition BlockingMap_project self (projection predicate : PyVal) : M PyVal :=
  f ← m_project (_wrapped self) projection predicate; result f.

Definition BlockingMap_put self (key value ttl max_idle : PyVal) : M PyVal :=
  f ← m_put (_wrapped self) key value ttl max_idle; result f.

Definition BlockingMap_put_all self (map : PyVal) : M PyVal :=
  f ← m_put_all (_wrapped self) map; result f.

Definition BlockingMap_put_if_absent self (key value ttl max_idle : PyVal) : M PyVal :=
  f ← m_put_if_absent (_wrapped self) key value ttl max_idle; result f.

Definition BlockingMap_put_transient self (key value ttl max_idle : PyVal) : M PyVal :=
  f ← m_put_transient (_wrapped self) key value ttl max_idle; result f.

Definition BlockingMap_remove self (key : PyVal) : M PyVal :=
  f ← m_remove (_wrapped self) key; result f.

Definition BlockingMap_remove_if_same self (key value : PyVal) : M PyVal :=
  f ← m_remove_if_same (_wrapped self) key value; result f.

Definition BlockingMap_remove_entry_listener self (registration_id : PyVal) : M PyVal :=
  f ← m_remove_entry_listener (_wrapped self) registration_id; result f.

Definition BlockingMap_remove_interceptor self (registration_id : PyVal) : M PyVal :=
  f ← m_remove_interceptor (_wrapped self) registration_id; result f.

Definition BlockingMap_replace self (key value : PyVal) : M PyVal :=
  f ← m_replace (_wrapped self) key value; result f.

Definition BlockingMap_replace_if_same self (key old_value new_value : PyVal) : M PyVal :=
  f ← m_replace_if_same (_wrapped self) key old_value new_value; result f.

Definition BlockingMap_set self (key value ttl max_idle : PyVal) : M PyVal :=
  f ← m_set (_wrapped self) key value ttl max_idle; result f.

Definition BlockingMap_set_ttl self (key ttl : PyVal) : M PyVal :=
  f ← m_set_ttl (_wrapped self) key ttl; result f.

Definition BlockingMap_size self : M PyVal :=
  f ← m_size (_wrapped self); result f.

Definition BlockingMap_try_lock self (key lease_time timeout : PyVal) : M PyVal :=
  f ← m_try_lock (_wrapped self) key lease_time timeout; result f.

Definition BlockingMap_try_put self (key value timeout : PyVal) : M PyVal :=
  f ← m_try_put (_wrapped self) key value timeout; result f.

Definition BlockingMap_try_remove self (key timeout : PyVal) : M PyVal :=
  f ← m_try_remove (_wrapped self) key timeout; result f.

Definition BlockingMap_unlock self (key : PyVal) : M PyVal :=
  f ← m_unlock (_wrapped self) key; result f.

Definition BlockingMap_values self (predicate : PyVal) : M PyVal :=
  f ← m_values (_wrapped self) predicate; result f.

(** [blocking_map.op(args)]: a call on the facade; what the caller left
    out is filled in from the signatures of [class BlockingMap]. *)
Definition BlockingMap_call self (c : MapCall) : M PyVal :=
  match c with
  | call_add_entry_listener include_value key predicate added_func removed_func
      updated_func evicted_func evict_all_func clear_all_func merged_func expired_func
      loaded_func =>
      BlockingMap_add_entry_listener self (default false include_value) (default None key)
        (default None predicate) (default None added_func) (default None removed_func)
        (default None updated_func) (default None evicted_func)
        (default None evict_all_func) (default None clear_all_func)
        (default None merged_func) (default None expired_func) (default None loaded_func)
  | call_add_index attributes index_type name bitmap_index_options =>
      BlockingMap_add_index self (default None attributes)
        (default (Some IndexType_SORTED) index_type) (default None name)
        (default None bitmap_index_options)
  | call_add_interceptor interceptor => BlockingMap_add_interceptor self interceptor
  | call_aggregate aggregator predicate =>
      BlockingMap_aggregate self aggregator (default None predicate)
  | call_clear => BlockingMap_clear self
  | call_contains_key key => BlockingMap_contains_key self key
  | call_contains_value value => BlockingMap_contains_value self value
  | call_delete key => BlockingMap_delete self key
  | call_entry_set predicate => BlockingMap_entry_set self (default None predicate)
  | call_evict key => BlockingMap_evict self key
  | call_evict_all => BlockingMap_evict_all self
  | call_execute_on_entries entry_processor predicate =>
      BlockingMap_execute_on_entries self entry_processor (default None predicate)
  | call_execute_on_key key entry_processor =>
      BlockingMap_execute_on_key self key entry_processor
  | call_execute_on_keys keys entry_processor =>
      BlockingMap_execute_on_keys self keys entry_processor
  | call_flush => BlockingMap_flush self
  | call_force_unlock key => BlockingMap_force_unlock self key
  | call_get key => BlockingMap_get self key
  | call_get_all keys => BlockingMap_get_all self keys
  | call_get_entry_view key => BlockingMap_get_entry_view self key
  | call_is_empty => BlockingMap_is_empty self
  | call_is_locked key => BlockingMap_is_locked self key
  | call_key_set predicate => BlockingMap_key_set self (default None predicate)
  | call_load_all keys replace_existing_values =>
      BlockingMap_load_all self (default None keys) (default true replace_existing_values)
  | call_lock key lease_time => BlockingMap_lock self key (default None lease_time)
  | call_project projection predicate =>
      BlockingMap_project self projection (default None predicate)
  | call_put key value ttl max_idle =>
      BlockingMap_put self key value (default None ttl) (default None max_idle)
  | call_put_all map => BlockingMap_put_all self map
  | call_put_if_absent key value ttl max_idle =>
      BlockingMap_put_if_absent self key value (default None ttl) (default None max_idle)
  | call_put_transient key value ttl max_idle =>
      BlockingMap_put_transient self key value (default None ttl) (default None max_idle)
  | call_remove key => BlockingMap_remove self key
  | call_remove_if_same key value => BlockingMap_remove_if_same self key value
  | call_remove_entry_listener registration_id =>
      BlockingMap_remove_entry_listener self registration_id
  | call_remove_interceptor registration_id =>
      BlockingMap_remove_interceptor self registration_id
  | call_replace key value => BlockingMap_replace self key value
  | call_replace_if_same key old_value new_value =>
      BlockingMap_replace_if_same self key old_value new_value
  | call_set key value ttl max_idle =>
      BlockingMap_set self key value (default None ttl) (default None max_idle)
  | call_set_ttl key ttl => BlockingMap_set_ttl self key ttl
  | call_size => BlockingMap_size self
  | call_try_lock key lease_time timeout =>
      BlockingMap_try_lock self key (default None lease_time) (default (Some zero) timeout)
  | call_try_put key value timeout =>
      BlockingMap_try_put self key value (default (Some zero) timeout)
  | call_try_remove key timeout =>
      BlockingMap_try_remove self key (default (Some zero) timeout)
  | call_unlock key => BlockingMap_unlock self key
  | call_values predicate => BlockingMap_values self (default None predicate)
  end.

(** [BlockingMap(wrapped)], the constructor. *)
Definition BlockingMap___init__ (wrapped_name wrapped_service_name : string)
           (wrapped : MapObject) : BlockingMap :=
  mkBlockingMap wrapped_name wrapped_service_name wrapped.

End Facade.

End Blocking.

(* ===================================================================== *)
(** * The frame and message codec

    Modelled from the spec: [hazelcast/protocol/client_message.py], the
    reader of [hazelcast/connection.py] and
    [hazelcast/protocol/builtin.py] are not among the sources; only their
    unit test is.  The model follows sections 3, 4.1 and 6 of the
    specification ("Frame layout: [4-byte length][2-byte flags][payload],
    little-endian", "composite values nest as begin-frame ... members ...
    end-frame", "null/empty/non-empty are three distinct encodings") and the
    calls and constants of [tests/unit/client_message_test.py] (the begin
    flag [1 << 12], the end flag [1 << 11], a frame buffer that excludes the
    six bytes of length and flags). *)
(* ===================================================================== *)

Module ClientMessage.

(** Modelled from the spec: a [bytearray], the outbound buffer or the payload
    of a frame; bytes are numbers in [0 .. 255]. *)
Definition bytearray := list Z.

(** Modelled from the spec: the size constants of the frame header, "Frame
    layout: [4-byte length][2-byte flags][payload]". *)
Definition INT_SIZE_IN_BYTES : Z := 4.
Definition SIZE_OF_FRAME_LENGTH_AND_FLAGS : Z := 6.

(** Modelled from the spec: the flag bits, "final-frame, begin-structure,
    end-structure, is-null" in this order below the two fragmentation bits;
    the unit test fixes begin as [1 << 12] and end as [1 << 11]. *)
Definition DEFAULT_FLAGS : Z := 0.
Definition BEGIN_FRAGMENT_FLAG : Z := Z.shiftl 1 15.
Definition END_FRAGMENT_FLAG : Z := Z.shiftl 1 14.
Definition UNFRAGMENTED_MESSAGE : Z := Z.lor BEGIN_FRAGMENT_FLAG END_FRAGMENT_FLAG.
Definition IS_FINAL_FLAG : Z := Z.shiftl 1 13.
Definition BEGIN_DATA_STRUCTURE_FLAG : Z := Z.shiftl 1 12.
Definition END_DATA_STRUCTURE_FLAG : Z := Z.shiftl 1 11.
Definition IS_NULL_FLAG : Z := Z.shiftl 1 10.

(** Modelled from the spec: [struct.pack] of a little-endian integer, [n]
    little-endian bytes of [z] (two's complement for a negative [z]). *)
Fixpoint le_bytes (n : nat) (z : Z) : bytearray :=
  match n with
  | O => []
  | S n' => z mod 256 :: le_bytes n' (z / 256)
  end.

(** Modelled from the spec: [struct.unpack] of a little-endian unsigned
    integer, the number a little-endian byte string spells. *)
Fixpoint le_value (bs : bytearray) : Z :=
  match bs with
  | [] => 0
  | b :: bs' => b + 256 * le_value bs'
  end.

(** Modelled from the spec: the signed reading of an unsigned [w]-bit number,
    as [struct.unpack] gives it for [int32] and [int64]. *)
Definition signed (w : Z) (u : Z) : Z :=
  if u <? 2 ^ (w - 1) then u else u - 2 ^ w.

(** Modelled from the spec: [buf[offset : offset + n]], the bytes
    [unpack_from(buf, offset)] looks at. *)
Definition read_at (buf : bytearray) (offset : Z) (n : nat) : bytearray :=
  take n (drop (Z.to_nat offset) buf).

(** Modelled from the spec: [struct.pack_into(buf, offset, ...)], overwrite
    [length bs] bytes of [buf] at [offset]. *)
Definition write_at (buf : bytearray) (offset : Z) (bs : bytearray) : bytearray :=
  take (Z.to_nat offset) buf ++ bs ++ drop (Z.to_nat offset + length bs) buf.

(** Modelled from the spec: class [Frame], "a byte payload plus a flag
    bitset". *)
Record Frame := mkFrame { buf : bytearray; flags : Z }.

(** Modelled from the spec: the flag tests of a frame. *)
Definition is_flag_set (flags flag_mask : Z) : bool :=
  Z.land flags flag_mask =? flag_mask.

(** Modelled from the spec: [frame.is_begin_frame()] and its siblings, the
    tests of the four structural flags. *)
Definition is_begin_frame (f : Frame) : bool := is_flag_set (flags f) BEGIN_DATA_STRUCTURE_FLAG.
Definition is_end_frame (f : Frame) : bool := is_flag_set (flags f) END_DATA_STRUCTURE_FLAG.
Definition is_null_frame (f : Frame) : bool := is_flag_set (flags f) IS_NULL_FLAG.
Definition is_final_frame (f : Frame) : bool := is_flag_set (flags f) IS_FINAL_FLAG.

(** Modelled from the spec: the frames without payload that bracket a
    structure or stand for a null value, and their final variants. *)
Definition BEGIN_FRAME : Frame := mkFrame [] BEGIN_DATA_STRUCTURE_FLAG.
Definition END_FRAME : Frame := mkFrame [] END_DATA_STRUCTURE_FLAG.
Definition NULL_FRAME : Frame := mkFrame [] IS_NULL_FLAG.
Definition END_FINAL_FRAME : Frame := mkFrame [] (Z.lor END_DATA_STRUCTURE_FLAG IS_FINAL_FLAG).
Definition NULL_FINAL_FRAME : Frame := mkFrame [] (Z.lor IS_NULL_FLAG IS_FINAL_FLAG).

(** Modelled from the spec: the wire form of a frame, "[4-byte
    length][2-byte flags][payload], little-endian", the length counting the
    six header bytes. *)
Definition frame_bytes (f : Frame) : bytearray :=
  le_bytes 4 (SIZE_OF_FRAME_LENGTH_AND_FLAGS + Z.of_nat (length (buf f)))
    ++ le_bytes 2 (flags f) ++ buf f.

(** Modelled from the spec: "frames concatenate to form a message". *)
Definition wire (fs : list Frame) : bytearray := concat (frame_bytes <$> fs).

(** Modelled from the spec: class [InboundMessage], "an ordered,
    cursor-addressed view over frames": the frames received and the cursor,
    the index of the next frame to read. *)
Record InboundMessage := mkInbound { frames : list Frame; cursor : nat }.

(** Modelled from the spec: [InboundMessage(start_frame)]. *)
Definition InboundMessage___init__ (start_frame : Frame) : InboundMessage :=
  mkInbound [start_frame] 0.

(** Modelled from the spec: [msg.add_frame(frame)]. *)
Definition add_frame (msg : InboundMessage) (f : Frame) : InboundMessage :=
  mkInbound (frames msg ++ [f]) (cursor msg).

(** Modelled from the spec: [msg.has_next_frame()]. *)
Definition has_next_frame (msg : InboundMessage) : bool :=
  bool_decide (cursor msg < length (frames msg))%nat.

(** Modelled from the spec: [msg.peek_next_frame()]. *)
Definition peek_next_frame (msg : InboundMessage) : option Frame :=
  frames msg !! cursor msg.

(** Modelled from the spec: [msg.next_frame()], the frame under the cursor,
    the cursor moved on ("forward-only"); nothing when the message is
    exhausted. *)
Definition next_frame (msg : InboundMessage) : option (Frame * InboundMessage) :=
  f ← frames msg !! cursor msg;
  Some (f, mkInbound (frames msg) (S (cursor msg))).

(** Modelled from the spec: the reader of the connection, which cuts [data]
    into frames up to the first final frame.  Every frame takes at least
    six bytes, so [fuel] need not exceed the number of bytes. *)
Fixpoint read_frames (fuel : nat) (data : bytearray) : option (list Frame) :=
  match fuel with
  | O => None
  | S fuel' =>
      if Z.of_nat (length data) <? SIZE_OF_FRAME_LENGTH_AND_FLAGS then None
      else
        let frame_length := signed 32 (le_value (read_at data 0 4)) in
        let flags := le_value (read_at data INT_SIZE_IN_BYTES 2) in
        let size := frame_length - SIZE_OF_FRAME_LENGTH_AND_FLAGS in
        if (size <? 0) || (Z.of_nat (length data) <? frame_length) then None
        else
          let f := mkFrame (read_at data SIZE_OF_FRAME_LENGTH_AND_FLAGS (Z.to_nat size)) flags in
          if is_final_frame f then Some [f]
          else cons f <$> read_frames fuel' (drop (Z.to_nat frame_length) data)
  end.

(** Modelled from the spec: [_Reader.read(buf)] followed by
    [_read_message()], as the unit test calls them. *)
Definition read_message (data : bytearray) : option InboundMessage :=
  fs ← read_frames (length data) data;
  Some (mkInbound fs 0).

(** Modelled from the spec: [create_initial_buffer(size, message_type,
    is_final)], the initial frame, [size] bytes with the header of section
    6: length(4) | flags(2) | type(4) | correlationId(8) | partitionId(4),
    the partition id preset to [-1]. *)
Definition create_initial_buffer (size message_type : Z) (is_final : bool) : bytearray :=
  let b := repeat 0 (Z.to_nat size) in
  let b := write_at b 0 (le_bytes 4 size) in
  let flags := if is_final then Z.lor UNFRAGMENTED_MESSAGE IS_FINAL_FLAG
               else UNFRAGMENTED_MESSAGE in
  let b := write_at b INT_SIZE_IN_BYTES (le_bytes 2 flags) in
  let b := write_at b 6 (le_bytes 4 message_type) in
  write_at b 18 (le_bytes 4 (-1)).

End ClientMessage.

Module Builtin.
Import ClientMessage.

(** ** [CodecUtil] *)

(** Modelled from the spec: the loop of
    [CodecUtil.fast_forward_to_end_frame], which "decrements a nesting
    counter while advancing the cursor past a full begin/end-bracketed
    region without interpreting its contents".  [rest] are the frames from
    the cursor on; an exhausted message is an error. *)
Fixpoint fast_forward_loop (rest : list Frame) (num_expected_end_frames : Z) (cursor : nat)
  : option nat :=
  if num_expected_end_frames =? 0 then Some cursor
  else match rest with
       | [] => None
       | frame :: rest' =>
           if is_end_frame frame
           then fast_forward_loop rest' (num_expected_end_frames - 1) (S cursor)
           else if is_begin_frame frame
                then fast_forward_loop rest' (num_expected_end_frames + 1) (S cursor)
                else fast_forward_loop rest' num_expected_end_frames (S cursor)
       end.

(** Modelled from the spec: [CodecUtil.fast_forward_to_end_frame(msg)],
    called once the begin frame of the structure has been read (as
    [test_fast_forward] does), whence the counter starts at one. *)
Definition fast_forward_to_end_frame (msg : InboundMessage) : option InboundMessage :=
  c ← fast_forward_loop (drop (cursor msg) (frames msg)) 1 (cursor msg);
  Some (mkInbound (frames msg) c).

(** A run of member frames, in the words of the specification:
    "nested/composite values are represented as a begin-frame, a run of
    member frames, and an end-frame -- a flattened tree".  A member is a
    frame that is neither a begin nor an end frame, or a nested structure
    with its own begin frame, members and end frame. *)
Inductive members : list Frame -> Prop :=
| members_none : members []
| members_frame f rest :
    is_begin_frame f = false -> is_end_frame f = false ->
    members rest -> members (f :: rest)
| members_structure b inner e rest :
    is_begin_frame b = true -> is_end_frame b = false -> is_end_frame e = true ->
    members inner -> members rest -> members (b :: inner ++ e :: rest).

(** The message of [InboundMessageTest.test_fast_forward]. *)
Definition test_fast_forward_message : InboundMessage :=
  let message := InboundMessage___init__ BEGIN_FRAME in
  let message := add_frame message BEGIN_FRAME in
  let message := add_frame message (mkFrame [] 0) in
  let message := add_frame message END_FRAME in
  add_frame message END_FRAME.

(** Modelled from the spec: the shape of the codecs the unit test calls.  An
    encoder appends the wire form of a value to the outbound buffer,
    [encode(buf, value, is_final)]; a decoder reads a value at the cursor of
    an inbound message and moves the cursor past it, [decode(msg)]. *)
Definition Encoder (A : Type) : Type := bytearray -> A -> bool -> bytearray.
Definition Decoder (A : Type) : Type := InboundMessage -> option (A * InboundMessage).

(** Modelled from the spec:
    [CodecUtil.next_frame_is_data_structure_end_frame(msg)]. *)
Definition next_frame_is_data_structure_end_frame (msg : InboundMessage) : option bool :=
  is_end_frame <$> peek_next_frame msg.

(** Modelled from the spec: [CodecUtil.next_frame_is_null_frame(msg)]; a null
    frame is consumed. *)
Definition next_frame_is_null_frame (msg : InboundMessage) : option (bool * InboundMessage) :=
  f ← peek_next_frame msg;
  if is_null_frame f then Some (true, mkInbound (frames msg) (S (cursor msg)))
  else Some (false, msg).

(** Modelled from the spec: [CodecUtil.encode_nullable(buf, value, encoder,
    is_final)]; [None] is one null frame, a third encoding next to the empty
    and the non-empty list. *)
Definition encode_nullable {A} (encoder : Encoder A) : Encoder (option A) :=
  fun buf value is_final =>
    match value with
    | None => buf ++ frame_bytes (if is_final then NULL_FINAL_FRAME else NULL_FRAME)
    | Some v => encoder buf v is_final
    end.

(** Modelled from the spec: [CodecUtil.decode_nullable(msg, decoder)]. *)
Definition decode_nullable {A} (decoder : Decoder A) : Decoder (option A) :=
  fun msg =>
    '(is_null, msg) ← next_frame_is_null_frame msg;
    if (is_null : bool) then Some (None, msg)
    else '(v, msg) ← decoder msg; Some (Some v, msg).

(** ** [FixSizedTypesCodec]: scalars at an offset of a buffer *)

(** Modelled from the spec: the sizes of the "fixed-size scalars (bool, byte,
    short, int, long, float, double, UUID -- 16 bytes)"; a UUID takes one
    more byte, the flag that lets [test_none_uuid] encode [None]. *)
Definition BYTE_SIZE_IN_BYTES : Z := 1.
Definition BOOLEAN_SIZE_IN_BYTES : Z := 1.
Definition SHORT_SIZE_IN_BYTES : Z := 2.
Definition LONG_SIZE_IN_BYTES : Z := 8.
Definition FLOAT_SIZE_IN_BYTES : Z := 4.
Definition DOUBLE_SIZE_IN_BYTES : Z := 8.
Definition UUID_SIZE_IN_BYTES : Z := 17.

(** Modelled from the spec: [FixSizedTypesCodec.encode_byte] and
    [decode_byte], a signed byte at an offset of a buffer. *)
Definition encode_byte (b : bytearray) (offset value : Z) : bytearray :=
  write_at b offset (le_bytes 1 value).

(** Modelled from the spec: [FixSizedTypesCodec.decode_byte(buf, offset)]. *)
Definition decode_byte (b : bytearray) (offset : Z) : Z :=
  signed 8 (le_value (read_at b offset 1)).

(** Modelled from the spec: [FixSizedTypesCodec.encode_boolean] and
    [decode_boolean], one byte, 1 for true. *)
Definition encode_boolean (b : bytearray) (offset : Z) (value : bool) : bytearray :=
  write_at b offset (le_bytes 1 (if value then 1 else 0)).

(** Modelled from the spec: [FixSizedTypesCodec.decode_boolean(buf, offset)]. *)
Definition decode_boolean (b : bytearray) (offset : Z) : bool :=
  le_value (read_at b offset 1) =? 1.

(** Modelled from the spec: [FixSizedTypesCodec.encode_short] and
    [decode_short], two bytes little-endian, signed. *)
Definition encode_short (b : bytearray) (offset value : Z) : bytearray :=
  write_at b offset (le_bytes 2 value).

(** Modelled from the spec: [FixSizedTypesCodec.decode_short(buf, offset)]. *)
Definition decode_short (b : bytearray) (offset : Z) : Z :=
  signed 16 (le_value (read_at b offset 2)).

(** Modelled from the spec: [FixSizedTypesCodec.encode_int] and [decode_int],
    four bytes little-endian, signed. *)
Definition encode_int (b : bytearray) (offset value : Z) : bytearray :=
  write_at b offset (le_bytes 4 value).

(** Modelled from the spec: [FixSizedTypesCodec.decode_int(buf, offset)]. *)
Definition decode_int (b : bytearray) (offset : Z) : Z :=
  signed 32 (le_value (read_at b offset 4)).

(** Modelled from the spec: [FixSizedTypesCodec.encode_long] and
    [decode_long], eight bytes little-endian, signed. *)
Definition encode_long (b : bytearray) (offset value : Z) : bytearray :=
  write_at b offset (le_bytes 8 value).

(** Modelled from the spec: [FixSizedTypesCodec.decode_long(buf, offset)]. *)
Definition decode_long (b : bytearray) (offset : Z) : Z :=
  signed 64 (le_value (read_at b offset 8)).

(** Modelled from the spec: [FixSizedTypesCodec.encode_float] and
    [decode_float].  A float and a double travel as their IEEE-754 bit
    patterns, 32 and 64 bits wide; their arithmetic value is not looked at. *)
Definition encode_float (b : bytearray) (offset bits : Z) : bytearray :=
  write_at b offset (le_bytes 4 bits).

(** Modelled from the spec: [FixSizedTypesCodec.decode_float(buf, offset)]. *)
Definition decode_float (b : bytearray) (offset : Z) : Z :=
  le_value (read_at b offset 4).

(** Modelled from the spec: [FixSizedTypesCodec.encode_double] and
    [decode_double], the 64-bit pattern. *)
Definition encode_double (b : bytearray) (offset bits : Z) : bytearray :=
  write_at b offset (le_bytes 8 bits).

(** Modelled from the spec: [FixSizedTypesCodec.decode_double(buf, offset)]. *)
Definition decode_double (b : bytearray) (offset : Z) : Z :=
  le_value (read_at b offset 8).

(** Modelled from the spec: [FixSizedTypesCodec.encode_uuid].  A UUID is a
    128-bit number or [None]: a null flag, then the most and the least
    significant 64 bits. *)
Definition encode_uuid (b : bytearray) (offset : Z) (value : option Z) : bytearray :=
  let is_null := Py.is_None value in
  let b := encode_boolean b offset is_null in
  match value with
  | None => b
  | Some u =>
      let b := write_at b (offset + BOOLEAN_SIZE_IN_BYTES) (le_bytes 8 (u / 2 ^ 64)) in
      write_at b (offset + BOOLEAN_SIZE_IN_BYTES + LONG_SIZE_IN_BYTES) (le_bytes 8 (u mod 2 ^ 64))
  end.

(** Modelled from the spec: [FixSizedTypesCodec.decode_uuid]. *)
Definition decode_uuid (b : bytearray) (offset : Z) : option Z :=
  if decode_boolean b offset then None
  else
    let msb := le_value (read_at b (offset + BOOLEAN_SIZE_IN_BYTES) 8) in
    let lsb := le_value (read_at b (offset + BOOLEAN_SIZE_IN_BYTES + LONG_SIZE_IN_BYTES) 8) in
    Some (msb * 2 ^ 64 + lsb).

(** The fixed-size scalar types of the protocol. *)
Inductive FixType := TBoolean | TByte | TShort | TInt | TLong | TFloat | TDouble | TUUID.

Definition fix_value (t : FixType) : Type :=
  match t with
  | TBoolean => bool
  | TUUID => option Z
  | _ => Z
  end.

Definition fix_size (t : FixType) : Z :=
  match t with
  | TBoolean => BOOLEAN_SIZE_IN_BYTES
  | TByte => BYTE_SIZE_IN_BYTES
  | TShort => SHORT_SIZE_IN_BYTES
  | TInt => INT_SIZE_IN_BYTES
  | TLong => LONG_SIZE_IN_BYTES
  | TFloat => FLOAT_SIZE_IN_BYTES
  | TDouble => DOUBLE_SIZE_IN_BYTES
  | TUUID => UUID_SIZE_IN_BYTES
  end.

(** The values of the type: what fits its width. *)
Definition fix_valid (t : FixType) : fix_value t -> Prop :=
  match t with
  | TBoolean => fun _ => True
  | TByte => fun v => - 2 ^ 7 <= v < 2 ^ 7
  | TShort => fun v => - 2 ^ 15 <= v < 2 ^ 15
  | TInt => fun v => - 2 ^ 31 <= v < 2 ^ 31
  | TLong => fun v => - 2 ^ 63 <= v < 2 ^ 63
  | TFloat => fun v => 0 <= v < 2 ^ 32
  | TDouble => fun v => 0 <= v < 2 ^ 64
  | TUUID => fun v => match v with Some u => 0 <= u < 2 ^ 128 | None => True end
  end.

Definition fix_encode (t : FixType) : bytearray -> Z -> fix_value t -> bytearray :=
  match t with
  | TBoolean => encode_boolean
  | TByte => encode_byte
  | TShort => encode_short
  | TInt => encode_int
  | TLong => encode_long
  | TFloat => encode_float
  | TDouble => encode_double
  | TUUID => encode_uuid
  end.

Definition fix_decode (t : FixType) : bytearray -> Z -> fix_value t :=
  match t with
  | TBoolean => decode_boolean
  | TByte => decode_byte
  | TShort => decode_short
  | TInt => decode_int
  | TLong => decode_long
  | TFloat => decode_float
  | TDouble => decode_double
  | TUUID => decode_uuid
  end.

(** ** UTF-8 *)

(** Modelled from the spec: the UTF-8 form of one code point ("UTF-8
    strings"); a string is its sequence of code points. *)
Definition utf8_char (cp : Z) : bytearray :=
  if cp <? 128 then [cp]
  else if cp <? 2048 then [192 + cp / 64; 128 + cp mod 64]
  else if cp <? 65536 then [224 + cp / 4096; 128 + (cp / 64) mod 64; 128 + cp mod 64]
  else [240 + cp / 262144; 128 + (cp / 4096) mod 64; 128 + (cp / 64) mod 64; 128 + cp mod 64].

(** Modelled from the spec: [value.encode("utf-8")]. *)
Definition utf8_encode (s : list Z) : bytearray := concat (utf8_char <$> s).

(** Modelled from the spec: a continuation byte of UTF-8. *)
Definition is_continuation (b : Z) : bool := (128 <=? b) && (b <? 192).

(** Modelled from the spec: what UTF-8 can carry, a code point that is not a
    surrogate. *)
Definition is_scalar (cp : Z) : bool :=
  (0 <=? cp) && (cp <? 1114112) && negb ((55296 <=? cp) && (cp <? 57344)).

(** Modelled from the spec: [buf.decode("utf-8")], strict: no overlong form
    and no surrogate. *)
Fixpoint utf8_decode (bs : bytearray) : option (list Z) :=
  match bs with
  | [] => Some []
  | b0 :: r0 =>
      if (0 <=? b0) && (b0 <? 128) then cons b0 <$> utf8_decode r0
      else if (192 <=? b0) && (b0 <? 224) then
        match r0 with
        | b1 :: r1 =>
            let cp := (b0 - 192) * 64 + (b1 - 128) in
            if is_continuation b1 && (128 <=? cp)
            then cons cp <$> utf8_decode r1 else None
        | _ => None
        end
      else if (224 <=? b0) && (b0 <? 240) then
        match r0 with
        | b1 :: b2 :: r2 =>
            let cp := (b0 - 224) * 4096 + (b1 - 128) * 64 + (b2 - 128) in
            if is_continuation b1 && is_continuation b2 && (2048 <=? cp) && is_scalar cp
            then cons cp <$> utf8_decode r2 else None
        | _ => None
        end
      else if (240 <=? b0) && (b0 <? 248) then
        match r0 with
        | b1 :: b2 :: b3 :: r3 =>
            let cp := (b0 - 240) * 262144 + (b1 - 128) * 4096 + (b2 - 128) * 64 + (b3 - 128) in
            if is_continuation b1 && is_continuation b2 && is_continuation b3
               && (65536 <=? cp) && is_scalar cp
            then cons cp <$> utf8_decode r3 else None
        | _ => None
        end
      else None
  end.

(** ** The variable-size codecs, one or more frames each *)

(** Modelled from the spec: the one frame of a value that fits a frame. *)
Definition frame_of (payload : bytearray) (is_final : bool) : Frame :=
  mkFrame payload (if is_final then IS_FINAL_FLAG else DEFAULT_FLAGS).

(** Modelled from the spec: [ByteArrayCodec.encode] and [decode], the bytes
    as the payload of one frame. *)
Definition ByteArrayCodec_encode : Encoder bytearray :=
  fun buf value is_final => buf ++ frame_bytes (frame_of value is_final).

(** Modelled from the spec: [ByteArrayCodec.decode(msg)]. *)
Definition ByteArrayCodec_decode : Decoder bytearray :=
  fun msg => '(f, msg) ← next_frame msg; Some (ClientMessage.buf f, msg).

(** Modelled from the spec: [StringCodec.encode] and [decode], the UTF-8 form
    as the payload of one frame. *)
Definition StringCodec_encode : Encoder (list Z) :=
  fun buf value is_final => buf ++ frame_bytes (frame_of (utf8_encode value) is_final).

(** Modelled from the spec: [StringCodec.decode(msg)]. *)
Definition StringCodec_decode : Decoder (list Z) :=
  fun msg =>
    '(f, msg) ← next_frame msg;
    s ← utf8_decode (ClientMessage.buf f);
    Some (s, msg).

(** Modelled from the spec: the loop of the composite decoders, [while not
    next_frame_is_data_structure_end_frame(msg): item(msg)]; every item
    takes a frame, so [fuel] need not exceed the frames left. *)
Fixpoint decode_until_end {A} (fuel : nat) (item : Decoder A) (msg : InboundMessage)
  : option (list A * InboundMessage) :=
  match fuel with
  | O => None
  | S fuel' =>
      at_end ← next_frame_is_data_structure_end_frame msg;
      if (at_end : bool) then Some ([], msg)
      else
        '(x, msg) ← item msg;
        '(xs, msg) ← decode_until_end fuel' item msg;
        Some (x :: xs, msg)
  end.

(** Modelled from the spec: the number of frames from the cursor on. *)
Definition frames_left (msg : InboundMessage) : nat :=
  length (frames msg) - cursor msg.

(** Modelled from the spec: [ListMultiFrameCodec.encode] and [decode],
    "composite values nest as begin-frame ... members ... end-frame". *)
Definition ListMultiFrameCodec_encode {A} (encoder : Encoder A) : Encoder (list A) :=
  fun buf arr is_final =>
    let buf := buf ++ frame_bytes BEGIN_FRAME in
    let buf := foldl (fun buf item => encoder buf item false) buf arr in
    buf ++ frame_bytes (if is_final then END_FINAL_FRAME else END_FRAME).

(** Modelled from the spec: [ListMultiFrameCodec.decode(msg, decoder)]. *)
Definition ListMultiFrameCodec_decode {A} (decoder : Decoder A) : Decoder (list A) :=
  fun msg =>
    '(_, msg) ← next_frame msg;
    '(result, msg) ← decode_until_end (frames_left msg) decoder msg;
    '(_, msg) ← next_frame msg;
    Some (result, msg).

(** Modelled from the spec: [EntryListCodec.encode] and [decode], "ordered
    key-value entry lists": a begin frame, key and value in turn, an end
    frame. *)
Definition EntryListCodec_encode {K V} (key_encoder : Encoder K) (value_encoder : Encoder V)
  : Encoder (list (K * V)) :=
  fun buf entries is_final =>
    let buf := buf ++ frame_bytes BEGIN_FRAME in
    let buf := foldl (fun buf '(key, value) =>
                        value_encoder (key_encoder buf key false) value false) buf entries in
    buf ++ frame_bytes (if is_final then END_FINAL_FRAME else END_FRAME).

(** Modelled from the spec: [EntryListCodec.decode(msg, key_decoder,
    value_decoder)]. *)
Definition EntryListCodec_decode {K V} (key_decoder : Decoder K) (value_decoder : Decoder V)
  : Decoder (list (K * V)) :=
  fun msg =>
    '(_, msg) ← next_frame msg;
    '(result, msg) ←
      decode_until_end (frames_left msg)
        (fun msg => '(key, msg) ← key_decoder msg;
                    '(value, msg) ← value_decoder msg;
                    Some ((key, value), msg)) msg;
    '(_, msg) ← next_frame msg;
    Some (result, msg).

(** Modelled from the spec: [EntryListCodec.encode_nullable] and
    [decode_nullable]. *)
Definition EntryListCodec_encode_nullable {K V} (key_encoder : Encoder K)
           (value_encoder : Encoder V) : Encoder (option (list (K * V))) :=
  encode_nullable (EntryListCodec_encode key_encoder value_encoder).

(** Modelled from the spec: [EntryListCodec.decode_nullable(msg, key_decoder,
    value_decoder)]. *)
Definition EntryListCodec_decode_nullable {K V} (key_decoder : Decoder K)
           (value_decoder : Decoder V) : Decoder (option (list (K * V))) :=
  decode_nullable (EntryListCodec_decode key_decoder value_decoder).

(** Modelled from the spec: [range(n)]. *)
Definition range (n : Z) : list Z := Z.of_nat <$> seq 0 (Z.to_nat n).

(** Modelled from the spec: [ListIntegerCodec.encode] and [decode]; "fixed-size
    scalar fields ... are packed contiguously inside one frame". *)
Definition ListIntegerCodec_encode : Encoder (list Z) :=
  fun buf arr is_final =>
    buf ++ frame_bytes (frame_of (concat (le_bytes 4 <$> arr)) is_final).

(** Modelled from the spec: [ListIntegerCodec.decode(msg)]. *)
Definition ListIntegerCodec_decode : Decoder (list Z) :=
  fun msg =>
    '(f, msg) ← next_frame msg;
    let b := ClientMessage.buf f in
    let n := Z.of_nat (length b) / INT_SIZE_IN_BYTES in
    Some ((fun i => decode_int b (i * INT_SIZE_IN_BYTES)) <$> range n, msg).

(** Modelled from the spec: [ListLongCodec.encode] and [decode]. *)
Definition ListLongCodec_encode : Encoder (list Z) :=
  fun buf arr is_final =>
    buf ++ frame_bytes (frame_of (concat (le_bytes 8 <$> arr)) is_final).

(** Modelled from the spec: [ListLongCodec.decode(msg)]. *)
Definition ListLongCodec_decode : Decoder (list Z) :=
  fun msg =>
    '(f, msg) ← next_frame msg;
    let b := ClientMessage.buf f in
    let n := Z.of_nat (length b) / LONG_SIZE_IN_BYTES in
    Some ((fun i => decode_long b (i * LONG_SIZE_IN_BYTES)) <$> range n, msg).

(** Modelled from the spec: the seventeen bytes of a UUID. *)
Definition uuid_bytes (u : option Z) : bytearray :=
  encode_uuid (repeat 0 (Z.to_nat UUID_SIZE_IN_BYTES)) 0 u.

(** Modelled from the spec: [ListUUIDCodec.encode] and [decode]. *)
Definition ListUUIDCodec_encode : Encoder (list (option Z)) :=
  fun buf arr is_final =>
    buf ++ frame_bytes (frame_of (concat (uuid_bytes <$> arr)) is_final).

(** Modelled from the spec: [ListUUIDCodec.decode(msg)]. *)
Definition ListUUIDCodec_decode : Decoder (list (option Z)) :=
  fun msg =>
    '(f, msg) ← next_frame msg;
    let b := ClientMessage.buf f in
    let n := Z.of_nat (length b) / UUID_SIZE_IN_BYTES in
    Some ((fun i => decode_uuid b (i * UUID_SIZE_IN_BYTES)) <$> range n, msg).

(** Modelled from the spec: [EntryListUUIDLongCodec], the "list of (UUID,
    long)" of batched invalidations: entries of a UUID and a long, packed in
    one frame. *)
Definition ENTRY_SIZE_IN_BYTES : Z := UUID_SIZE_IN_BYTES + LONG_SIZE_IN_BYTES.

(** Modelled from the spec: [EntryListUUIDLongCodec.encode(buf, entries,
    is_final)]. *)
Definition EntryListUUIDLongCodec_encode : Encoder (list (option Z * Z)) :=
  fun buf entries is_final =>
    buf ++ frame_bytes
      (frame_of (concat ((fun '(key, value) => uuid_bytes key ++ le_bytes 8 value) <$> entries))
                is_final).

(** Modelled from the spec: [EntryListUUIDLongCodec.decode(msg)]. *)
Definition EntryListUUIDLongCodec_decode : Decoder (list (option Z * Z)) :=
  fun msg =>
    '(f, msg) ← next_frame msg;
    let b := ClientMessage.buf f in
    let n := Z.of_nat (length b) / ENTRY_SIZE_IN_BYTES in
    Some ((fun i => (decode_uuid b (i * ENTRY_SIZE_IN_BYTES),
                     decode_long b (i * ENTRY_SIZE_IN_BYTES + UUID_SIZE_IN_BYTES)))
            <$> range n, msg).

(** Modelled from the spec: [EntryListUUIDListIntegerCodec], the "list of
    (UUID, list-of-int)" of partition tables: the integer lists as a
    multi-frame list, then the UUIDs in one frame. *)
Definition EntryListUUIDListIntegerCodec_encode : Encoder (list (option Z * list Z)) :=
  fun buf entries is_final =>
    let buf := ListMultiFrameCodec_encode ListIntegerCodec_encode buf (snd <$> entries) false in
    ListUUIDCodec_encode buf (fst <$> entries) is_final.

(** Modelled from the spec: [EntryListUUIDListIntegerCodec.decode(msg)]. *)
Definition EntryListUUIDListIntegerCodec_decode : Decoder (list (option Z * list Z)) :=
  fun msg =>
    '(values, msg) ← ListMultiFrameCodec_decode ListIntegerCodec_decode msg;
    '(keys, msg) ← ListUUIDCodec_decode msg;
    Some (zip keys values, msg).

(** ** The supported variable-size types and their codecs *)

Inductive VarType :=
| TString
| TByteArray
| TListMultiFrame (item : VarType)
| TEntryList (key value : VarType)
| TListInteger
| TListLong
| TListUUID
| TEntryListUUIDListInteger
| TEntryListUUIDLong.

Fixpoint var_value (t : VarType) : Type :=
  match t with
  | TString => list Z
  | TByteArray => bytearray
  | TListMultiFrame item => list (var_value item)
  | TEntryList key value => list (var_value key * var_value value)
  | TListInteger => list Z
  | TListLong => list Z
  | TListUUID => list (option Z)
  | TEntryListUUIDListInteger => list (option Z * list Z)
  | TEntryListUUIDLong => list (option Z * Z)
  end.

Fixpoint var_encode (t : VarType) : Encoder (var_value t) :=
  match t with
  | TString => StringCodec_encode
  | TByteArray => ByteArrayCodec_encode
  | TListMultiFrame item => ListMultiFrameCodec_encode (var_encode item)
  | TEntryList key value => EntryListCodec_encode (var_encode key) (var_encode value)
  | TListInteger => ListIntegerCodec_encode
  | TListLong => ListLongCodec_encode
  | TListUUID => ListUUIDCodec_encode
  | TEntryListUUIDListInteger => EntryListUUIDListIntegerCodec_encode
  | TEntryListUUIDLong => EntryListUUIDLongCodec_encode
  end.

Fixpoint var_decode (t : VarType) : Decoder (var_value t) :=
  match t with
  | TString => StringCodec_decode
  | TByteArray => ByteArrayCodec_decode
  | TListMultiFrame item => ListMultiFrameCodec_decode (var_decode item)
  | TEntryList key value => EntryListCodec_decode (var_decode key) (var_decode value)
  | TListInteger => ListIntegerCodec_decode
  | TListLong => ListLongCodec_decode
  | TListUUID => ListUUIDCodec_decode
  | TEntryListUUIDListInteger => EntryListUUIDListIntegerCodec_decode
  | TEntryListUUIDLong => EntryListUUIDLongCodec_decode
  end.

Definition valid_uuid (u : option Z) : Prop := fix_valid TUUID u.

(** The values of a type: strings of scalar code points, integers that
    fit their width, and so on through the items. *)
Fixpoint var_valid (t : VarType) : var_value t -> Prop :=
  match t with
  | TString => fun s => Forall (fun cp => is_scalar cp = true) s
  | TByteArray => fun _ => True
  | TListMultiFrame item => fun l => Forall (var_valid item) l
  | TEntryList key value =>
      fun l => Forall (fun e => var_valid key (fst e) /\ var_valid value (snd e)) l
  | TListInteger => fun l => Forall (fix_valid TInt) l
  | TListLong => fun l => Forall (fix_valid TLong) l
  | TListUUID => fun l => Forall valid_uuid l
  | TEntryListUUIDListInteger =>
      fun l => Forall (fun e => valid_uuid (fst e) /\ Forall (fix_valid TInt) (snd e)) l
  | TEntryListUUIDLong =>
      fun l => Forall (fun e => valid_uuid (fst e) /\ fix_valid TLong (snd e)) l
  end.

(** The state of the buffer of [EncodeDecodeTest]: the initial frame of
    [setUp], marked as not final. *)
Definition mark_initial_frame_as_non_final (b : bytearray) : bytearray :=
  let flags := Z.lor (Z.shiftl 1 11) (Z.shiftl 1 12) in
  write_at b INT_SIZE_IN_BYTES (le_bytes 2 flags).

Definition initial_buffer : bytearray :=
  mark_initial_frame_as_non_final (create_initial_buffer 50 0 true).

(** A string literal as its code points. *)
Definition str (s : string) : list Z :=
  (fun c => Z.of_N (N_of_ascii c)) <$> list_ascii_of_string s.

(** ** The frames a value takes

    The frames an encoder appends for a value, last one final on demand:
    one frame for strings, byte arrays and packed lists; a begin frame, the
    frames of the items and an end frame for the composite lists. *)

Definition end_frame_of (is_final : bool) : Frame :=
  if is_final then END_FINAL_FRAME else END_FRAME.

Fixpoint var_frames (t : VarType) : var_value t -> bool -> list Frame :=
  match t with
  | TString => fun value is_final => [frame_of (utf8_encode value) is_final]
  | TByteArray => fun value is_final => [frame_of value is_final]
  | TListMultiFrame item =>
      fun arr is_final =>
        BEGIN_FRAME :: (arr ≫= fun x => var_frames item x false) ++ [end_frame_of is_final]
  | TEntryList key value =>
      fun entries is_final =>
        BEGIN_FRAME
          :: (entries ≫= fun e => var_frames key (fst e) false ++ var_frames value (snd e) false)
          ++ [end_frame_of is_final]
  | TListInteger => fun arr is_final => [frame_of (concat (le_bytes 4 <$> arr)) is_final]
  | TListLong => fun arr is_final => [frame_of (concat (le_bytes 8 <$> arr)) is_final]
  | TListUUID => fun arr is_final => [frame_of (concat (uuid_bytes <$> arr)) is_final]
  | TEntryListUUIDListInteger =>
      fun entries is_final =>
        (BEGIN_FRAME
           :: ((snd <$> entries) ≫= fun x => [frame_of (concat (le_bytes 4 <$> x)) false])
           ++ [END_FRAME])
          ++ [frame_of (concat (uuid_bytes <$> (fst <$> entries))) is_final]
  | TEntryListUUIDLong =>
      fun entries is_final =>
        [frame_of
           (concat ((fun '(key, value) => uuid_bytes key ++ le_bytes 8 value) <$> entries))
           is_final]
  end.

(** ** Vocabulary for the properties of decoders *)

(** A message whose frames [before] have been read, the cursor on the
    first frame of [rest]. *)
Definition at_cursor (before rest : list Frame) : InboundMessage :=
  mkInbound (before ++ rest) (length before).

(** The decoder reads [x] off the frames [fs], wherever they stand in a
    message, and leaves the cursor right after them. *)
Definition decodes_as {A} (decoder : Decoder A) (fs : list Frame) (x : A) : Prop :=
  forall before rest,
    decoder (at_cursor before (fs ++ rest)) = Some (x, at_cursor (before ++ fs) rest).

(** The frames of a value start with a frame that is neither an end frame
    nor a null frame. *)
Definition starts_with_value (fs : list Frame) : Prop :=
  match fs with
  | f :: _ => is_end_frame f = false /\ is_null_frame f = false
  | [] => False
  end.

(** The flags fit the two bytes of the frame header. *)
Definition flags_fit (f : Frame) : Prop := 0 <= flags f < 2 ^ 16.

(** The flags fit the two bytes and the length the four signed bytes of the
    frame header. *)
Definition fits_header (f : Frame) : Prop :=
  flags_fit f
  /\ SIZE_OF_FRAME_LENGTH_AND_FLAGS + Z.of_nat (length (ClientMessage.buf f)) < 2 ^ 31.

(** Only the last frame may be final, and is when asked to. *)
Definition terminated (is_final : bool) (fs : list Frame) : Prop :=
  exists init last,
    fs = init ++ [last]
    /\ Forall (fun f => is_final_frame f = false) init
    /\ is_final_frame last = is_final.

(** The frame of [initial_buffer]. *)
Definition initial_frame : Frame :=
  mkFrame (drop 6 initial_buffer) (Z.lor (Z.shiftl 1 11) (Z.shiftl 1 12)).

(** A message read from the wire: the initial frame has been read, the
    cursor is on the first frame after it. *)
Definition after_initial_frame (data : bytearray) : option InboundMessage :=
  msg ← read_message data;
  '(_, msg) ← next_frame msg;
  Some msg.

(** ** [EncodeDecodeTest.test_entry_list] *)

Definition test_entries : list (list Z * list Z) :=
  [(str "a", str "1"); (str "b", str "2"); (str "c", str "3")].

Definition test_entry_list_buffer : bytearray :=
  let buf := initial_buffer in
  let buf := EntryListCodec_encode StringCodec_encode StringCodec_encode buf test_entries false in
  let buf := EntryListCodec_encode_nullable StringCodec_encode StringCodec_encode buf
               (Some test_entries) false in
  EntryListCodec_encode_nullable StringCodec_encode StringCodec_encode buf None true.

(** The three values the test decodes, in order. *)
Definition test_entry_list_decoded
  : option (list (list Z * list Z) * option (list (list Z * list Z))
            * option (list (list Z * list Z))) :=
  message ← after_initial_frame test_entry_list_buffer;
  '(first, message) ← EntryListCodec_decode StringCodec_decode StringCodec_decode message;
  '(second, message) ←
    EntryListCodec_decode_nullable StringCodec_decode StringCodec_decode message;
  '(third, message) ←
    EntryListCodec_decode_nullable StringCodec_decode StringCodec_decode message;
  Some (first, second, third).

End Builtin.

(* ===================================================================== *)
(** * The shapes of an address text *)
(* ===================================================================== *)

Module AddressText.

(** [s.count(c)] for a one-character needle. *)
Fixpoint count (s : string) (c : ascii) : nat :=
  match s with
  | EmptyString => O
  | String a s' => if Ascii.eqb a c then S (count s' c) else count s' c
  end.

(** [s.startswith(c)] for a one-character prefix. *)
Definition startswith (s : string) (c : ascii) : bool :=
  match s with
  | EmptyString => false
  | String a _ => Ascii.eqb a c
  end.

End AddressText.

(* ===================================================================== *)
(** * hazelcast/proxy/map.py: what a call sends *)
(* ===================================================================== *)

Module MapCalls.
Import Py Proxy MapProxy.

Section Calls.

Context {Data : Type} `{Countable Data}.
Context {Obj Message : Type}.

Abbreviation PyVal := (option Obj).
Abbreviation M := (Proxy.M Data Obj Message).
Abbreviation Future := (Proxy.Future Data Obj Message).
Abbreviation Proxy := (Proxy.Proxy Data Obj Message).
Abbreviation Effect := (Proxy.Effect Data Obj Message).
Abbreviation Invocation := (Proxy.Invocation Data Obj Message).

Implicit Types (self : Proxy).

(** The invocations among the effects, in the order issued. *)
Definition invocations (effects : list Effect) : list Invocation :=
  omap (fun e => match e with Invoked _ inv => Some inv | _ => None end) effects.

(** The key a call addresses; [contains_value] addresses none. *)
Definition addressed_key (c : KeyedCall Obj) : PyVal :=
  match c with
  | keyed_get key | keyed_remove key | keyed_delete key | keyed_evict key
  | keyed_contains_key key | keyed_lock key _ | keyed_try_lock key _ _
  | keyed_unlock key | keyed_force_unlock key | keyed_try_remove key _
  | keyed_set_ttl key _ | keyed_execute_on_key key _ | keyed_get_entry_view key
  | keyed_is_locked key | keyed_put key _ _ _ | keyed_set key _ _ _ | keyed_replace key _
  | keyed_remove_if_same key _ | keyed_try_put key _ _
  | keyed_put_if_absent key _ _ _ | keyed_put_transient key _ _ _
  | keyed_replace_if_same key _ _ => key
  | keyed_contains_value _ => None
  end.

(** The partition that owns the addressed key. *)
Definition owner_partition self (c : KeyedCall Obj) : option Z :=
  key ← addressed_key c; Some (get_partition_id self (_to_data self key)).

(** The calls that take a lock wait for it without the invocation timeout. *)
Definition waits_for_lock (c : KeyedCall Obj) : bool :=
  match c with
  | keyed_lock _ _ | keyed_try_lock _ _ _ => true
  | _ => false
  end.

(** The guards of the call let it pass: no key and no value is [None],
    nor is the [ttl] of [set_ttl]. *)
Definition passes_guards (c : KeyedCall Obj) : bool :=
  negb (some_argument_is_None c)
  && match c with
     | keyed_set_ttl _ ttl => negb (is_None ttl)
     | _ => true
     end.

(** ** The lock operations, called with a proper key *)

Inductive LockCall :=
| lock_call (key : Obj) (lease_time : PyVal)
| try_lock_call (key : Obj) (lease_time timeout : PyVal)
| unlock_call (key : Obj)
| force_unlock_call (key : Obj).

Definition run_lock self (c : LockCall) : M Future :=
  match c with
  | lock_call key lease_time => Map_lock self (Some key) lease_time
  | try_lock_call key lease_time timeout => Map_try_lock self (Some key) lease_time timeout
  | unlock_call key => Map_unlock self (Some key)
  | force_unlock_call key => Map_force_unlock self (Some key)
  end.

(** One call after the other. *)
Fixpoint run_locks self (calls : list LockCall) : M (list Future) :=
  match calls with
  | [] => mret []
  | c :: calls' =>
      future ← run_lock self c;
      futures ← run_locks self calls';
      mret (future :: futures)
  end.

(** The reference id of a lock request is its last parameter. *)
Definition reference_id_of (inv : Invocation) : option Z :=
  match last (parameters (request inv)) with
  | Some (ALong z) => Some z
  | _ => None
  end.

(** The client after one request was built and invoked. *)
Definition after_invocation (s : Client Data Obj Message) (inv : Invocation)
  : Client Data Obj Message :=
  mkClient (near_cache s) (reference_id s) (S (correlation_id s)) (replies s)
           (trace s ++ [Encoded (request inv); Invoked (correlation_id s) inv]).

End Calls.

Arguments LockCall : clear implicits.

End MapCalls.

(* ===================================================================== *)
(** * Python dictionaries *)
(* ===================================================================== *)

Module PyDict.
Import Py.

(** A [dict] keeps its items in the order in which the keys were first
    inserted. *)
Abbreviation dict K V := (list (K * V)).

(** ** Keys that are numbers of one type

    The partition ids: two of them are the same key when they are the
    same number, and every one of them can be hashed. *)
Section Dict.

Context {K V : Type} `{EqDecision K}.

(** [d[k]]; [None] stands for the [KeyError] of an absent key. *)
Fixpoint getitem (d : dict K V) (k : K) : option V :=
  match d with
  | [] => None
  | (k', v) :: d' => if decide (k' = k) then Some v else getitem d' k
  end.

(** [d[k] = v]: the value of a key that is present is replaced where it
    stands, a new key goes last. *)
Fixpoint setitem (d : dict K V) (k : K) (v : V) : dict K V :=
  match d with
  | [] => [(k, v)]
  | (k', v') :: d' => if decide (k' = k) then (k', v) :: d' else (k', v') :: setitem d' k v
  end.

(** [d.keys()], [d.values()] and [d.items()] *)
Definition keys (d : dict K V) : list K := d.*1.
Definition values (d : dict K V) : list V := d.*2.
Definition items (d : dict K V) : list (K * V) := d.

End Dict.

(** ** Keys of any type

    The keys the caller hands in.  A dictionary asks the keys themselves
    whether two of them are the same key: [hashable k] says that
    [hash(k)] gives a value, and [same_key k' k] that the two keys have
    equal hashes and are one object or are equal by [==], as [1], [1.0]
    and [True] are.  An operation with a key that cannot be hashed, a list
    for one, raises [TypeError].  The first item whose key is the same as
    the one looked for is the item found; for keys that behave, with
    [same_key] an equivalence, a dictionary holds one such item at
    most. *)
Section ObjectKeys.

Context {K V : Type}.

Variable hashable : K -> bool.
Variable same_key : K -> K -> bool.

(** The value of the item whose key is the same as [k]. *)
Fixpoint lookup_key (d : dict K V) (k : K) : option V :=
  match d with
  | [] => None
  | (k', v) :: d' => if same_key k' k then Some v else lookup_key d' k
  end.

(** The value goes to the item whose key is the same as [k], and the key
    of that item stays; a new key goes last. *)
Fixpoint store_key (d : dict K V) (k : K) (v : V) : dict K V :=
  match d with
  | [] => [(k, v)]
  | (k', v') :: d' => if same_key k' k then (k', v) :: d' else (k', v') :: store_key d' k v
  end.

(** The item whose key is the same as [k] leaves. *)
Fixpoint remove_key (d : dict K V) (k : K) : dict K V :=
  match d with
  | [] => []
  | (k', v') :: d' => if same_key k' k then d' else (k', v') :: remove_key d' k
  end.

(** [d[k]] *)
Definition getitem_object (d : dict K V) (k : K) : Result V :=
  if hashable k then
    match lookup_key d k with
    | Some v => Ok v
    | None => Raised KeyError
    end
  else Raised TypeError.

(** [d[k] = v]; [{k: v}] is the assignment to the empty dictionary. *)
Definition setitem_object (d : dict K V) (k : K) (v : V) : Result (dict K V) :=
  if hashable k then Ok (store_key d k v) else Raised TypeError.

(** [del d[k]] *)
Definition delitem_object (d : dict K V) (k : K) : Result (dict K V) :=
  if hashable k then
    match lookup_key d k with
    | Some _ => Ok (remove_key d k)
    | None => Raised KeyError
    end
  else Raised TypeError.

End ObjectKeys.

End PyDict.

(* ===================================================================== *)
(** * hazelcast/proxy/map.py: the operations on several keys *)
(* ===================================================================== *)

Module MapBulk.
Import Py Proxy MapProxy PyDict.

Section Methods.

Context {Data : Type} `{Countable Data}.
Context {Obj Message : Type} `{EqDecision Obj}.

Abbreviation PyVal := (option Obj).
Abbreviation M := (Proxy.M Data Obj Message).
Abbreviation Future := (Proxy.Future Data Obj Message).
Abbreviation Proxy := (Proxy.Proxy Data Obj Message).
Abbreviation Request := (Proxy.Request Data).

Implicit Types (self : Proxy) (key_data value_data : Data).

(** ** What these operations call and the sources do not hold

    The codecs of the three operations, [combine_futures] of
    [hazelcast.future], [ImmutableLazyDataList] of [hazelcast.util] and
    the Python values [(key, value)], [{}] and [[]] are left open: what is
    proved holds whatever they are. *)

(** [map_put_all_codec.encode_request(name, entries, trigger_map_loader)] *)
Variable map_put_all_codec_encode_request : string -> list (Data * Data) -> bool -> Request.

(** [map_get_all_codec.encode_request(name, keys)] *)
Variable map_get_all_codec_encode_request : string -> list Data -> Request.

(** [map_execute_on_keys_codec.encode_request(name, entry_processor, keys)] *)
Variable map_execute_on_keys_codec_encode_request : string -> Data -> list Data -> Request.

(** What [decode_response] of the two codecs gives. *)
Context {Decoded : Type}.
Variable map_get_all_codec_decode_response : Message -> Decoded.
Variable map_execute_on_keys_codec_decode_response : Message -> Decoded.

(** [ImmutableLazyDataList(list_data, to_object)] *)
Variable ImmutableLazyDataList : Decoded -> (option Data -> PyVal) -> Obj.

(** [combine_futures(futures)] *)
Variable combine_futures : list Future -> Future.

(** The closure [merge] of [_get_all_internal]: the [dict] of the chained
    results of the finished future. *)
Variable dict_of_chained_results : Result PyVal -> M PyVal.

(** The tuple [(key, value)], the empty dictionary and the empty list. *)
Variable tuple : Obj -> PyVal -> Obj.
Variables (empty_dict empty_list : Obj).

(** What a dictionary asks of the keys of the caller: whether [hash(key)]
    gives a value, and whether two keys are the same key of a dictionary,
    by their hashes and [==]. *)
Variable hashable : Obj -> bool.
Variable same_key : Obj -> Obj -> bool.

(** Modelled from the spec: [codec.encode_request(...)] of a codec that is
    not among the sources, "encode a request via the operation's codec".
    The request built is noted in the trace, as [encode_request] does for
    the codecs of the operations on one key. *)
Definition encoded (request : Request) : M Request :=
  fun s => (Ok request, log (Encoded request) s).

(** ** [Map.put_all] *)

(** [for key, value in map.items(): ...], the entries gathered by
    partition. *)
Fixpoint put_all_entries self (items : list (PyVal * PyVal))
         (partition_map : dict Z (list (Data * Data))) : M (dict Z (list (Data * Data))) :=
  match items with
  | [] => mret partition_map
  | (key, value) :: items' =>
      key ← check_not_none key "key can't be None";
      value ← check_not_none value "value can't be None";
      let entry := (_to_data self key, _to_data self value) in
      let partition_id := get_partition_id self entry.1 in
      let partition_map :=
        match getitem partition_map partition_id with
        | Some entry_list => setitem partition_map partition_id (entry_list ++ [entry])
        | None (* except KeyError *) => setitem partition_map partition_id [entry]
        end in
      put_all_entries self items' partition_map
  end.

(** [for partition_id, entry_list in partition_map.items(): ...] *)
Fixpoint put_all_partitions self (items : list (Z * list (Data * Data)))
         (futures : list Future) : M (list Future) :=
  match items with
  | [] => mret futures
  | (partition_id, entry_list) :: items' =>
      request ← encoded (map_put_all_codec_encode_request (name self) entry_list false);
      future ← _invoke_on_partition self request partition_id no_op_response_handler;
      put_all_partitions self items' (futures ++ [future])
  end.

(** [Map.put_all(map)]; the dictionary is given by its items.
    [MapFeatNearCache] does not override it. *)
Definition Map_put_all self (map : option (list (PyVal * PyVal))) : M Future :=
  map ← check_not_none map "map can't be None";
  match map with
  | [] => mret (ImmediateFuture None)
  | _ =>
      partition_map ← put_all_entries self map [];
      futures ← put_all_partitions self (items partition_map) [];
      mret (combine_futures futures)
  end.

(** ** [Map.get_all] *)

(** The outcome of an operation on a dictionary, which leaves the client
    as it is. *)
Definition dict_op {A} (r : Result A) : M A := fun s => (r, s).

(** [for key in keys: ...], the keys gathered by partition.  The
    dictionary of the partition is changed in place; a key that cannot be
    hashed raises [TypeError], which [except KeyError] lets through. *)
Fixpoint get_all_keys self (keys : list PyVal)
         (partition_to_keys : dict Z (dict Obj Data)) : M (dict Z (dict Obj Data)) :=
  match keys with
  | [] => mret partition_to_keys
  | key :: keys' =>
      key ← check_not_none key "key can't be None";
      let key_data := _to_data self key in
      let partition_id := get_partition_id self key_data in
      partition_to_keys ←
        match getitem partition_to_keys partition_id with
        | Some key_dict =>
            key_dict ← dict_op (setitem_object hashable same_key key_dict key key_data);
            mret (setitem partition_to_keys partition_id key_dict)
        | None (* except KeyError *) =>
            key_dict ← dict_op (setitem_object hashable same_key [] key key_data);
            mret (setitem partition_to_keys partition_id key_dict)
        end;
      get_all_keys self keys' partition_to_keys
  end.

(** [for partition_id, key_dict in partition_to_keys.items(): ...] *)
Fixpoint get_all_partitions self (handler : Message -> PyVal)
         (items : list (Z * dict Obj Data)) (futures : list Future) : M (list Future) :=
  match items with
  | [] => mret futures
  | (partition_id, key_dict) :: items' =>
      request ← encoded (map_get_all_codec_encode_request (name self) (values key_dict));
      future ← _invoke_on_partition self request partition_id handler;
      get_all_partitions self handler items' (futures ++ [future])
  end.

(** [Map._get_all_internal(partition_to_keys, futures=None)] *)
Definition Map__get_all_internal self (partition_to_keys : dict Z (dict Obj Data))
           (futures : option (list Future)) : M Future :=
  let futures := match futures with None => [] | Some futures => futures end in
  let handler := fun message =>
    Some (ImmutableLazyDataList (map_get_all_codec_decode_response message)
                                (_to_object self)) in
  futures ← get_all_partitions self handler (items partition_to_keys) futures;
  let merge := dict_of_chained_results in
  mret (continue_with (combine_futures futures) merge).

(** [for key in list(key_dic.keys()): ...]: a key found in the near cache
    gives a finished future and leaves the dictionary.  [del] is the last
    statement under [try]: were it to raise [KeyError], the future would
    be in the list already. *)
Fixpoint get_all_cached_keys (keys : list Obj) (key_dic : dict Obj Data)
         (futures : list Future) : M (dict Obj Data * list Future) :=
  match keys with
  | [] => mret (key_dic, futures)
  | key :: keys' =>
      '(key_dic, futures) ←
        except_KeyError
          (key_data ← dict_op (getitem_object hashable same_key key_dic key);
           value ← NearCache___getitem__ key_data;
           let future := ImmediateFuture (Some (tuple key value)) in
           let futures := futures ++ [future] in
           except_KeyError
             (key_dic ← dict_op (delitem_object hashable same_key key_dic key);
              mret (key_dic, futures))
             (mret (key_dic, futures)))
          (mret (key_dic, futures));
      get_all_cached_keys keys' key_dic futures
  end.

(** [for key_dic in partition_to_keys.values(): ...]; the dictionaries
    are changed in place. *)
Fixpoint get_all_cached (partition_to_keys : dict Z (dict Obj Data))
         (futures : list Future) : M (dict Z (dict Obj Data) * list Future) :=
  match partition_to_keys with
  | [] => mret ([], futures)
  | (partition_id, key_dic) :: rest =>
      '(key_dic, futures) ← get_all_cached_keys (keys key_dic) key_dic futures;
      '(rest, futures) ← get_all_cached rest futures;
      mret ((partition_id, key_dic) :: rest, futures)
  end.

(** [MapFeatNearCache._get_all_internal(partition_to_keys, futures=None)] *)
Definition MapFeatNearCache__get_all_internal self
           (partition_to_keys : dict Z (dict Obj Data))
           (futures : option (list Future)) : M Future :=
  let futures := match futures with None => [] | Some futures => futures end in
  '(partition_to_keys, futures) ← get_all_cached partition_to_keys futures;
  Map__get_all_internal self partition_to_keys (Some futures).

(** [self._get_all_internal(...)] by the class of [self]. *)
Definition _get_all_internal self (partition_to_keys : dict Z (dict Obj Data))
           (futures : option (list Future)) : M Future :=
  match cls self with
  | Map => Map__get_all_internal self partition_to_keys futures
  | MapFeatNearCache => MapFeatNearCache__get_all_internal self partition_to_keys futures
  end.

(** [Map.get_all(keys)] *)
Definition Map_get_all self (keys : option (list PyVal)) : M Future :=
  keys ← check_not_none keys "keys can't be None";
  match keys with
  | [] => mret (ImmediateFuture (Some empty_dict))
  | _ =>
      partition_to_keys ← get_all_keys self keys [];
      _get_all_internal self partition_to_keys None
  end.

(** ** [Map.execute_on_keys] *)

(** [for key in keys: ...] *)
Fixpoint execute_on_keys_keys self (keys : list PyVal) (key_list : list Data)
  : M (list Data) :=
  match keys with
  | [] => mret key_list
  | key :: keys' =>
      key ← check_not_none key "key can't be None";
      execute_on_keys_keys self keys' (key_list ++ [_to_data self key])
  end.

(** [Map.execute_on_keys(keys, entry_processor)].  [MapFeatNearCache] does
    not override it. *)
Definition Map_execute_on_keys self (keys : list PyVal) (entry_processor : Obj) : M Future :=
  key_list ← execute_on_keys_keys self keys [];
  if bool_decide (length keys = 0%nat) then mret (ImmediateFuture (Some empty_list))
  else
    let handler := fun message =>
      Some (ImmutableLazyDataList (map_execute_on_keys_codec_decode_response message)
                                  (_to_object self)) in
    let entry_processor_data := _to_data self entry_processor in
    request ← encoded (map_execute_on_keys_codec_encode_request
                         (name self) entry_processor_data key_list);
    _invoke self request handler.

(** ** What the operations send *)

(** The invocation of [put_all] for one partition. *)
Definition put_all_invocation self (group : Z * list (Data * Data))
  : Invocation Data Obj Message :=
  mkInvocation (map_put_all_codec_encode_request (name self) group.2 false)
               (Some group.1) default_timeout no_op_response_handler.

(** The invocation of [get_all] for one partition. *)
Definition get_all_invocation self (group : Z * dict Obj Data)
  : Invocation Data Obj Message :=
  mkInvocation (map_get_all_codec_encode_request (name self) (values group.2))
               (Some group.1) default_timeout
               (fun message =>
                  Some (ImmutableLazyDataList (map_get_all_codec_decode_response message)
                                              (_to_object self))).

(** The invocation of [execute_on_keys]. *)
Definition execute_on_keys_invocation self (entry_processor : Obj) (key_list : list Data)
  : Invocation Data Obj Message :=
  mkInvocation (map_execute_on_keys_codec_encode_request
                  (name self) (_to_data self entry_processor) key_list)
               None default_timeout
               (fun message =>
                  Some (ImmutableLazyDataList
                          (map_execute_on_keys_codec_decode_response message)
                          (_to_object self))).

(** The effects of issuing the invocations one after the other, the
    first one under the correlation id [cid], and their futures. *)
Fixpoint issued (cid : nat) (invs : list (Invocation Data Obj Message))
  : list (Effect Data Obj Message) :=
  match invs with
  | [] => []
  | inv :: invs' => Encoded (request inv) :: Invoked cid inv :: issued (S cid) invs'
  end.

Fixpoint futures_of (cid : nat) (invs : list (Invocation Data Obj Message)) : list Future :=
  match invs with
  | [] => []
  | inv :: invs' => InvocationFuture cid inv :: futures_of (S cid) invs'
  end.

(** The client after the invocations were issued: nothing else changed. *)
Definition after_issuing (s : Client Data Obj Message)
           (invs : list (Invocation Data Obj Message)) : Client Data Obj Message :=
  mkClient (near_cache s) (reference_id s) (length invs + correlation_id s) (replies s)
           (trace s ++ issued (correlation_id s) invs).

(** Arguments that are proper objects. *)
Definition proper_items (items : list (Obj * Obj)) : list (PyVal * PyVal) :=
  (fun item => (Some item.1, Some item.2)) <$> items.

Definition proper_keys (keys : list Obj) : list PyVal := Some <$> keys.

(** The serialized entries of the items. *)
Definition entries_of self (items : list (Obj * Obj)) : list (Data * Data) :=
  (fun item => (_to_data self item.1, _to_data self item.2)) <$> items.

(** [groups] holds [entries] gathered by partition: one group for each
    partition that owns an entry, no partition twice, each group holding
    the entries of its partition in their order; so every entry is in one
    group and one only. *)
Definition entries_by_partition self (entries : list (Data * Data))
           (groups : dict Z (list (Data * Data))) : Prop :=
  NoDup (keys groups)
  /\ (forall p es,
        (p, es) ∈ groups ->
        es <> [] /\ es = filter (fun e => get_partition_id self e.1 = p) entries)
  /\ (forall e, e ∈ entries -> get_partition_id self e.1 ∈ keys groups)
  /\ concat (values groups) ≡ₚ entries.

(** The keys among [wanted] that the dictionary of a partition takes for
    [key]: they are the same key as [key] and belong to the partition of
    [key]. *)
Definition same_keys self (wanted : list Obj) (key : Obj) : list Obj :=
  filter (fun key' => same_key key key' = true
                      /\ get_partition_id self (_to_data self key')
                         = get_partition_id self (_to_data self key)) wanted.

(** [(key, key_data)] is an item that the keys [wanted] leave in the
    dictionary of a partition: of the keys that are the same, the first
    one is the key of the item, since the key of an item stays, and the
    serialized form of the last one is its value, since its assignment was
    the last. *)
Definition key_item self (wanted : list Obj) (key : Obj) (key_data : Data) : Prop :=
  head (same_keys self wanted key) = Some key
  /\ _to_data self <$> last (same_keys self wanted key) = Some key_data.

(** No two items of the dictionary have the same key. *)
Definition distinct_keys (d : dict Obj Data) : Prop :=
  NoDup (keys d)
  /\ forall key key', key ∈ keys d -> key' ∈ keys d -> same_key key key' = true -> key = key'.

(** [groups] holds the items of the keys [wanted] whose serialized key
    satisfies [asked], gathered by partition: one dictionary for each
    partition that owns a wanted key, no partition twice, each dictionary
    holding the asked items of its partition, no key twice. *)
Definition keys_by_partition self (wanted : list Obj) (asked : Data -> Prop)
           (groups : dict Z (dict Obj Data)) : Prop :=
  NoDup (keys groups)
  /\ (forall p d,
        (p, d) ∈ groups ->
        distinct_keys d
        /\ forall key kd,
             (key, kd) ∈ d
             <-> key_item self wanted key kd /\ get_partition_id self kd = p /\ asked kd)
  /\ (forall key, key ∈ wanted -> get_partition_id self (_to_data self key) ∈ keys groups).

End Methods.

(** ** Collaborators for the small client

    Stand-ins to run the three operations on: a request keeps the
    parameters it was built from, the combined future is the first of the
    futures, a list of data is its decoded number and a tuple is its key. *)
Definition demo_put_all_request (name : string) (entries : list (string * string))
           (trigger_map_loader : bool) : Proxy.Request string :=
  mkRequest map_put_codec
            [AStr name; ADataList entries.*1; ADataList entries.*2; ABool trigger_map_loader].

Definition demo_get_all_request (name : string) (keys : list string) : Proxy.Request string :=
  mkRequest map_get_codec [AStr name; ADataList keys].

Definition demo_execute_on_keys_request (name : string) (entry_processor : string)
           (keys : list string) : Proxy.Request string :=
  mkRequest map_execute_on_key_codec [AStr name; AData entry_processor; ADataList keys].

Definition demo_combine_futures (futures : list (Proxy.Future string Z Z))
  : Proxy.Future string Z Z :=
  match futures with
  | [] => ImmediateFuture None
  | future :: _ => future
  end.

Definition demo_merge (f : Result (option Z)) : Proxy.M string Z Z (option Z) :=
  match f with
  | Ok value => mret value
  | Raised e => raise e
  end.

Definition demo_lazy_list (decoded : Z) (to_object : option string -> option Z) : Z := decoded.

Definition demo_tuple (key : Z) (value : option Z) : Z := key.

Definition demo_put_all :=
  Map_put_all (Obj := Z) (Message := Z) demo_put_all_request demo_combine_futures.

(** A negative number stands for a key that cannot be hashed, and two
    numbers that differ by a multiple of 100 for keys that are the same
    key of a dictionary, as [1] and [1.0] are. *)
Definition demo_hashable (key : Z) : bool := 0 <=? key.

Definition demo_same_key (key key' : Z) : bool := key mod 100 =? key' mod 100.

Definition demo_get_all :=
  Map_get_all demo_get_all_request (fun message : Z => message) demo_lazy_list
              demo_combine_futures demo_merge demo_tuple 0 demo_hashable demo_same_key.

Definition demo_execute_on_keys :=
  Map_execute_on_keys demo_execute_on_keys_request (fun message : Z => message)
                      demo_lazy_list 0.

End MapBulk.

(* ===================================================================== *)
(** * Properties of [AddressHelper] *)
(* ===================================================================== *)

Section AddressHelperProperties.
Import Core.

Variable int : string -> option Z.

Lemma range_1 : range 1 = [0].
Proof. reflexivity. Qed.

Lemma range_3 : range 3 = [0; 1; 2].
Proof. reflexivity. Qed.

(** Once [address_from_str] has parsed the address: a parsed port other
    than [-1] gives one primary address, the parsed one, and no secondary;
    the parsed port [-1] gives the primary on 5701 and the secondaries on
    5702 and 5703, all on the parsed host. *)
Lemma get_possible_addresses_by_parsed_port (address : string) (a : Address) :
  address_from_str int address (-1) = Some a ->
  (port a <> -1 ->
     get_possible_addresses int address = Some ([a], []))
  /\ (port a = -1 ->
        get_possible_addresses int address =
          Some ([mkAddress (host a) 5701],
                [mkAddress (host a) 5702; mkAddress (host a) 5703])).
Proof.
  intros Hparse. unfold get_possible_addresses. rewrite Hparse. simpl.
  split; intros Hport.
  - apply Z.eqb_neq in Hport. rewrite Hport, range_1. simpl.
    destruct a as [h p]; simpl. by rewrite Z.add_0_r.
  - apply Z.eqb_eq in Hport. rewrite Hport, range_3. reflexivity.
Qed.

End AddressHelperProperties.

(** C10 as stated fails on the address ["localhost:-1"]: the string carries
    the port text [-1], which parses to host [localhost] and port [-1]; the
    result is not the single primary [localhost:-1] with no secondary but
    the three default ports. *)
Lemma get_possible_addresses_explicit_minus_one :
  Core.address_from_str Py.int "localhost:-1" (-1) = Some (Core.mkAddress "localhost" (-1))
  /\ Core.get_possible_addresses Py.int "localhost:-1"
     <> Some ([Core.mkAddress "localhost" (-1)], [])
  /\ Core.get_possible_addresses Py.int "localhost:-1"
     = Some ([Core.mkAddress "localhost" 5701],
             [Core.mkAddress "localhost" 5702; Core.mkAddress "localhost" 5703]).
Proof.
  split; [reflexivity|]. split; [|reflexivity].
  vm_compute. discriminate.
Qed.

(* ===================================================================== *)
(** * Properties of the near-cache map *)
(* ===================================================================== *)

Section NearCacheProperties.
Import Py Proxy MapProxy.

Context {Data : Type} `{Countable Data}.
Context {Obj Message : Type}.

Abbreviation Client := (Proxy.Client Data Obj Message).
Abbreviation Proxy := (Proxy.Proxy Data Obj Message).
Abbreviation InvalidationEvent := (MapProxy.InvalidationEvent Data).

Implicit Types (self : Proxy) (s : Client) (k : Data).

(** Unfolding one step of the state monad. *)
Lemma run_bind {A B} (m : M Data Obj Message A) (f : A -> M Data Obj Message B) s :
  (m ≫= f) s = match m s with
               | (Ok a, s') => f a s'
               | (Raised e, s') => (Raised e, s')
               end.
Proof. reflexivity. Qed.

Ltac run_monad :=
  unfold mbind, M_bind, bind, mret, M_ret, ret, raise, encode_request, _invoke,
    _invoke_on_key, _invoke_on_partition, invoke, get_and_increment, log,
    set_near_cache, check_not_none;
  simpl.

(** ** The near cache after a batch of invalidations *)

Lemma invalidate_batch_run (keys : list Data) s :
  for_each keys (fun key_data => NearCache__invalidate key_data) s
  = (Ok tt,
     mkClient (foldl (fun c k => delete k c) (near_cache s) keys) (reference_id s)
              (correlation_id s) (replies s)
              (trace s ++ (NearCacheInvalidated <$> keys))).
Proof.
  revert s. induction keys as [|k keys IH]; intros s; simpl.
  - unfold ret. destruct s; simpl. by rewrite app_nil_r.
  - rewrite run_bind. unfold NearCache__invalidate at 1. simpl.
    rewrite IH. simpl. by rewrite <- app_assoc.
Qed.

Lemma lookup_foldl_delete (keys : list Data) (c : gmap Data (option Obj)) k :
  foldl (fun c k => delete k c) c keys !! k
  = if bool_decide (k ∈ keys) then None else c !! k.
Proof.
  revert c. induction keys as [|k' keys IH]; intros c; cbn [foldl].
  - case_bool_decide as Hin; [by apply elem_of_nil in Hin | done].
  - rewrite IH. rewrite (bool_decide_ext (k ∈ k' :: keys) (k = k' \/ k ∈ keys))
      by apply elem_of_cons.
    destruct (decide (k = k')) as [->|Hne].
    + rewrite lookup_delete_eq. rewrite (bool_decide_eq_true_2 (_ \/ _)) by by left.
      by case_bool_decide.
    + rewrite lookup_delete_ne by done.
      apply (f_equal (fun b : bool => if b then None else c !! k)).
      apply bool_decide_ext. tauto.
Qed.

(** C4.  A single invalidation event with a null key empties the near
    cache; with a key it removes exactly that key, cached or not; a batch
    removes every key it lists.  No handler raises. *)
Theorem invalidation_handlers self s (source_uuid partition_uuid sequence : Z) :
  (_handle_invalidation self None source_uuid partition_uuid sequence s
   = (Ok tt, log NearCacheCleared (set_near_cache ∅ s)))
  /\ (forall k,
        _handle_invalidation self (Some k) source_uuid partition_uuid sequence s
        = (Ok tt, log (NearCacheInvalidated k) (set_near_cache (delete k (near_cache s)) s)))
  /\ (forall k k',
        near_cache (_handle_invalidation self (Some k) source_uuid partition_uuid sequence s).2
          !! k'
        = if bool_decide (k' = k) then None else near_cache s !! k')
  /\ (forall (keys : list Data) (source_uuids partition_uuids sequences : list Z),
        (_handle_batch_invalidation self keys source_uuids partition_uuids sequences s).1
        = Ok tt
        /\ forall k,
             near_cache
               (_handle_batch_invalidation self keys source_uuids partition_uuids sequences s).2
               !! k
             = if bool_decide (k ∈ keys) then None else near_cache s !! k).
Proof.
  repeat split.
  - intros k k'. simpl. case_bool_decide as Heq.
    + subst. apply lookup_delete_eq.
    + by apply lookup_delete_ne.
  - unfold _handle_batch_invalidation, _invalidate_cache.
    by rewrite invalidate_batch_run.
  - intros k. unfold _handle_batch_invalidation, _invalidate_cache.
    rewrite invalidate_batch_run. simpl.
    apply lookup_foldl_delete.
Qed.

(** ** Events that name keys only *)

Lemma foldl_delete_app (c : gmap Data (option Obj)) (l1 l2 : list Data) :
  foldl (fun c k => delete k c) c (l1 ++ l2)
  = foldl (fun c k => delete k c) (foldl (fun c k => delete k c) c l1) l2.
Proof. apply foldl_app. Qed.

Lemma handle_all_run self (events : list InvalidationEvent) s :
  has_null_key events = false ->
  handle_all self events s
  = (Ok tt,
     mkClient (foldl (fun c k => delete k c) (near_cache s) (named_keys events))
              (reference_id s) (correlation_id s) (replies s)
              (trace s ++ (NearCacheInvalidated <$> named_keys events))).
Proof.
  unfold handle_all. revert s.
  induction events as [|event events IH]; intros s Hnull.
  - simpl. unfold ret. destruct s; simpl. by rewrite app_nil_r.
  - cbn [for_each]. rewrite run_bind.
    simpl in Hnull. apply orb_false_iff in Hnull as [Hevent Hrest].
    destruct event as [[key|] ? ? ?|keys ? ? ?]; [| discriminate |].
    + cbn [handle _handle_invalidation _invalidate_cache NearCache__invalidate].
      rewrite IH by done. simpl. by rewrite <- app_assoc.
    + cbn [handle]. unfold _handle_batch_invalidation, _invalidate_cache.
      rewrite invalidate_batch_run.
      rewrite IH by done. cbn [near_cache reference_id correlation_id replies trace].
      change (named_keys (BatchInvalidation keys source_uuids partition_uuids sequences
                          :: events))
        with (keys ++ named_keys events).
      by rewrite foldl_delete_app, fmap_app, <- app_assoc.
Qed.

(** C1, as amended.  The handlers never look at the sequence numbers:
    for every sequence of invalidation events without a null-key event,
    whatever the sequence numbers and hence with or without a gap, exactly
    the keys named in the events leave the near cache and every other
    entry stays. *)
Theorem invalidation_ignores_sequence_numbers self (events : list InvalidationEvent) s :
  has_null_key events = false ->
  (handle_all self events s).1 = Ok tt
  /\ forall k,
       near_cache (handle_all self events s).2 !! k
       = if bool_decide (k ∈ named_keys events) then None else near_cache s !! k.
Proof.
  intros Hnull. rewrite handle_all_run by done. split; [done|].
  intros k. simpl. apply lookup_foldl_delete.
Qed.

(** ** Map-wide operations *)

(** C6, as amended.  On a near-cache map, [clear], [evict_all] and
    [load_all] called without keys and with [replace_existing_values]
    true clear the whole near cache first and only then build and issue
    the remote call; [load_all] without keys and with
    [replace_existing_values] false leaves the near cache as it is. *)
Theorem map_wide_clears_before_invoking self (c : MapWideCall Obj) s :
  cls self = MapFeatNearCache ->
  (clears_near_cache c = true ->
     exists r inv s',
       run_map_wide self c s = (Ok (InvocationFuture (correlation_id s) inv), s')
       /\ request inv = r
       /\ near_cache s' = ∅
       /\ trace s' = trace s ++ [NearCacheCleared; Encoded r; Invoked (correlation_id s) inv])
  /\ (c = map_wide_load_all None false ->
        exists r inv s',
          run_map_wide self c s = (Ok (InvocationFuture (correlation_id s) inv), s')
          /\ request inv = r
          /\ near_cache s' = near_cache s
          /\ trace s' = trace s ++ [Encoded r; Invoked (correlation_id s) inv]).
Proof.
  intros Hcls. split.
  - intros Hclears.
    destruct c as [| |[keys|] [|]]; try discriminate;
      unfold run_map_wide, clear, evict_all, load_all; rewrite Hcls;
      do 3 eexists; (split; [reflexivity|]); simpl;
      (split; [reflexivity|]); (split; [reflexivity|]);
      by rewrite <- !app_assoc.
  - intros ->. unfold run_map_wide, load_all. rewrite Hcls.
    do 3 eexists. split; [reflexivity|]. simpl.
    split; [reflexivity|]. split; [reflexivity|].
    destruct s; simpl. by rewrite <- !app_assoc.
Qed.

(** ** Key-addressed mutations *)

Lemma get_internal_miss self k s :
  cls self = MapFeatNearCache ->
  near_cache s !! k = None ->
  exists inv continuation,
    _get_internal self k s
    = (Ok (ContinueWith (InvocationFuture (correlation_id s) inv) continuation),
       mkClient (near_cache s) (reference_id s) (S (correlation_id s)) (replies s)
                (trace s ++ [Encoded (request inv); Invoked (correlation_id s) inv]))
    /\ request inv
       = mkRequest map_get_codec [AStr (name self); AData k; ALong (thread_id self)]
    /\ partition_id inv = Some (get_partition_id self k)
    /\ response_handler inv
       = (fun message => _to_object self (decode_data self map_get_codec message))
    /\ continuation = (fun f => _update_cache self f k).
Proof.
  intros Hcls Hmiss. unfold _get_internal. rewrite Hcls.
  unfold MapFeatNearCache__get_internal, except_KeyError.
  rewrite run_bind. unfold NearCache___getitem__. rewrite Hmiss.
  exists (mkInvocation
            (mkRequest map_get_codec [AStr (name self); AData k; ALong (thread_id self)])
            (Some (get_partition_id self k)) default_timeout
            (fun message => _to_object self (decode_data self map_get_codec message))).
  exists (fun f => _update_cache self f k).
  split; [|done].
  unfold Map__get_internal, continue_with. run_monad.
  by rewrite <- !app_assoc.
Qed.

(** C2, as amended.  On a near-cache map every key-addressed mutating
    operation drops its own key or keys from the near cache first and only
    then builds and issues its one remote call; when the operation
    returns none of these keys is cached, and a read of one of them made
    then, before anything stores the key again, goes to the cluster
    instead of answering from the near cache. *)
Theorem mutation_invalidates_before_invoking self (m : Mutation Obj) s :
  cls self = MapFeatNearCache ->
  exists r inv s',
    run_mutation self m s = (Ok (InvocationFuture (correlation_id s) inv), s')
    /\ request inv = r
    /\ trace s'
       = trace s ++ (NearCacheInvalidated <$> mutation_keys self m)
                 ++ [Encoded r; Invoked (correlation_id s) inv]
    /\ (forall k,
          near_cache s' !! k
          = if bool_decide (k ∈ mutation_keys self m) then None else near_cache s !! k)
    /\ (forall k,
          k ∈ mutation_keys self m ->
          exists inv' continuation s'',
            _get_internal self k s'
            = (Ok (ContinueWith (InvocationFuture (correlation_id s') inv') continuation), s'')
            /\ codec (request inv') = map_get_codec
            /\ trace s''
               = trace s' ++ [Encoded (request inv'); Invoked (correlation_id s') inv']).
Proof.
  intros Hcls.
  assert (Hstep : forall r inv s',
    run_mutation self m s = (Ok (InvocationFuture (correlation_id s) inv), s') ->
    request inv = r ->
    trace s' = trace s ++ (NearCacheInvalidated <$> mutation_keys self m)
                       ++ [Encoded r; Invoked (correlation_id s) inv] ->
    near_cache s' = foldl (fun c k => delete k c) (near_cache s) (mutation_keys self m) ->
    exists r inv s',
      run_mutation self m s = (Ok (InvocationFuture (correlation_id s) inv), s')
      /\ request inv = r
      /\ trace s'
         = trace s ++ (NearCacheInvalidated <$> mutation_keys self m)
                   ++ [Encoded r; Invoked (correlation_id s) inv]
      /\ (forall k,
            near_cache s' !! k
            = if bool_decide (k ∈ mutation_keys self m) then None else near_cache s !! k)
      /\ (forall k,
            k ∈ mutation_keys self m ->
            exists inv' continuation s'',
              _get_internal self k s'
              = (Ok (ContinueWith (InvocationFuture (correlation_id s') inv') continuation),
                 s'')
              /\ codec (request inv') = map_get_codec
              /\ trace s''
                 = trace s' ++ [Encoded (request inv'); Invoked (correlation_id s') inv'])).
  { intros r inv s' Hrun Hreq Htrace Hcache.
    exists r, inv, s'. repeat split; try done.
    - intros k. rewrite Hcache. apply lookup_foldl_delete.
    - intros k Hk.
      destruct (get_internal_miss self k s' Hcls) as (inv' & cont & Hget & Hr & _).
      { rewrite Hcache, lookup_foldl_delete. by rewrite bool_decide_eq_true_2. }
      exists inv', cont. eexists. split; [exact Hget|]. split; [by rewrite Hr|done]. }
  destruct m as [key value ttl [max_idle|] | key value ttl [max_idle|]
                | key value ttl [max_idle|] | key value ttl [max_idle|]
                | key ttl | key | key value | key | key value | key old_value new_value
                | key | key value timeout | key timeout | key entry_processor
                | keys replace_existing_values].
  1-18: (eapply Hstep;
            [ unfold run_mutation, Map_put, Map_put_if_absent, Map_put_transient, Map_set,
                Map_set_ttl, Map_remove, Map_remove_if_same, Map_delete, Map_replace,
                Map_replace_if_same, Map_evict, Map_try_put, Map_try_remove,
                Map_execute_on_key,
                _put_internal, _put_if_absent_internal, _put_transient_internal,
                _set_internal, _set_ttl_internal, _remove_internal,
                _remove_if_same_internal_, _delete_internal, _replace_internal,
                _replace_if_same_internal, _evict_internal, _try_put_internal,
                _try_remove_internal, _execute_on_key_internal;
              rewrite Hcls; reflexivity
            | reflexivity
            | simpl; by rewrite <- !app_assoc
            | reflexivity ]).
  (* load_all with given keys *)
  destruct keys as [|key keys].
  - eapply Hstep.
    + unfold run_mutation, load_all. rewrite Hcls. reflexivity.
    + reflexivity.
    + simpl. by rewrite <- !app_assoc.
    + reflexivity.
  - eapply Hstep.
    + unfold run_mutation, load_all. rewrite Hcls.
      unfold MapFeatNearCache_load_all. cbn [Py.is_None andb].
      rewrite run_bind. cbn [mret M_ret ret].
      unfold Map_load_all, _load_all_internal. rewrite Hcls.
      unfold MapFeatNearCache__load_all_internal, _invalidate_cache_batch.
      rewrite run_bind, invalidate_batch_run.
      reflexivity.
    + reflexivity.
    + simpl. by rewrite <- !app_assoc.
    + reflexivity.
Qed.

(** ** Reads through the near cache *)

(** C5.  [get] on a near-cache map.  On a hit the cached value comes back
    as an [ImmediateFuture] and the client is left untouched: nothing is
    encoded, nothing invoked.  On a miss the [map_get] request for the
    serialized key is built and invoked, and the future returned stores
    the decoded value of a successful reply in the near cache under that
    key and resolves to it; a failed invocation stores nothing. *)
Theorem get_through_near_cache self (key : Obj) s :
  cls self = MapFeatNearCache ->
  let k := _to_data self key in
  (forall value,
     near_cache s !! k = Some value ->
     Map_get self (Some key) s = (Ok (ImmediateFuture value), s))
  /\ (near_cache s !! k = None ->
      exists inv future,
        Map_get self (Some key) s
        = (Ok future,
           mkClient (near_cache s) (reference_id s) (S (correlation_id s)) (replies s)
                    (trace s ++ [Encoded (request inv); Invoked (correlation_id s) inv]))
        /\ request inv
           = mkRequest map_get_codec [AStr (name self); AData k; ALong (thread_id self)]
        /\ (forall s2 message,
              replies s2 (correlation_id s) = Ok message ->
              let value := _to_object self (decode_data self map_get_codec message) in
              result future s2
              = (Ok value,
                 mkClient (<[k := value]> (near_cache s2)) (reference_id s2)
                          (correlation_id s2) (replies s2)
                          (trace s2 ++ [NearCacheStored k value])))
        /\ (forall s2 e,
              replies s2 (correlation_id s) = Raised e ->
              result future s2 = (Raised e, s2))).
Proof.
  intros Hcls k. split.
  - intros value Hhit.
    unfold Map_get. run_monad. fold k.
    unfold _get_internal. rewrite Hcls.
    unfold MapFeatNearCache__get_internal, except_KeyError, NearCache___getitem__.
    run_monad. by rewrite Hhit.
  - intros Hmiss.
    destruct (get_internal_miss self k s Hcls Hmiss)
      as (inv & continuation & Hget & Hreq & _ & Hhandler & Hcont).
    exists inv, (ContinueWith (InvocationFuture (correlation_id s) inv) continuation).
    split; [exact Hget|]. split; [exact Hreq|]. split.
    + intros s2 message Hreply value. subst continuation.
      cbn [result]. rewrite Hreply, Hhandler. reflexivity.
    + intros s2 e Hreply. subst continuation.
      cbn [result]. rewrite Hreply. reflexivity.
Qed.

(** ** The guards of the public operations *)

(** C9.  Whatever the class of the map, an operation that takes a key or
    a value and is called with [None] for one of them raises an
    [AssertionError] and leaves the client as it was: no request has been
    built, no invocation issued, no reference id drawn, and the near cache
    is untouched. *)
Theorem none_argument_raises_before_anything self (c : KeyedCall Obj) s :
  some_argument_is_None c = true ->
  exists message, run_keyed self c s = (Raised (AssertionError message), s).
Proof.
  intros HNone.
  destruct c; simpl in HNone;
    repeat match goal with
           | v : option Obj |- _ => destruct v
           end;
    try discriminate; eexists; reflexivity.
Qed.

End NearCacheProperties.

(* ===================================================================== *)
(** * Properties of the blocking facade *)
(* ===================================================================== *)

Section BlockingMapProperties.
Import Py Proxy Blocking.

Context {Data : Type} `{Countable Data}.
Context {Obj Message : Type}.
Variables (IndexType_SORTED zero : Obj).

(** C8.  Every operation of the blocking map, on every argument tuple
    (defaulted arguments given or left out), is the resolved result of the
    same call on the wrapped map: [wrapped.op(args).result()], same state
    changes, same value, same exception. *)
Theorem blocking_map_is_result_of_wrapped
        (wrapped_name wrapped_service_name : string)
        (wrapped : MapObject (Data := Data) (Obj := Obj) (Message := Message))
        (c : MapCall (Obj := Obj)) :
  BlockingMap_call IndexType_SORTED zero
    (BlockingMap___init__ wrapped_name wrapped_service_name wrapped) c
  = blocking_spec IndexType_SORTED zero wrapped c.
Proof. destruct c; reflexivity. Qed.

End BlockingMapProperties.

(* ===================================================================== *)
(** * The properties at work on a small client *)
(* ===================================================================== *)

Import Py Proxy MapProxy.

(** The events with a gap drop [k1] only. *)
Lemma invalidation_ignores_sequence_numbers_witness :
  has_null_key demo_gapped = false
  /\ (handle_all demo_near_cache_map demo_gapped (demo_client demo_two_entries)).1 = Ok tt
  /\ forall k,
       near_cache (handle_all demo_near_cache_map demo_gapped (demo_client demo_two_entries)).2 !! k
       = if bool_decide (k ∈ named_keys demo_gapped) then None
         else near_cache (demo_client demo_two_entries) !! k.
Proof.
  split; [reflexivity|].
  apply (invalidation_ignores_sequence_numbers demo_near_cache_map demo_gapped
           (demo_client demo_two_entries)).
  reflexivity.
Defined.

(** C1 as stated fails: the sequence numbers 1 and 3 of partition 0 have
    a gap, yet after the two events the entry of [k2] is still in the near
    cache, which therefore was not cleared. *)
Lemma sequence_gap_does_not_clear_near_cache :
  spec_sequence_gap demo_gapped = true
  /\ near_cache (handle_all demo_near_cache_map demo_gapped (demo_client demo_two_entries)).2 !! "k2"
     = Some (Some 20)
  /\ near_cache (handle_all demo_near_cache_map demo_gapped (demo_client demo_two_entries)).2 <> ∅.
Proof.
  split; [reflexivity|].
  assert (Hk2 : near_cache (handle_all demo_near_cache_map demo_gapped (demo_client demo_two_entries)).2
                !! "k2" = Some (Some 20)) by reflexivity.
  split; [exact Hk2|].
  intros Hempty. rewrite Hempty, lookup_empty in Hk2. discriminate.
Qed.

(** [put(1, 5)] with key [k1] cached. *)
Lemma mutation_invalidates_before_invoking_witness :
  cls demo_near_cache_map = MapFeatNearCache
  /\ exists r inv s',
       run_mutation demo_near_cache_map (mutation_put 1 5 None None) (demo_client demo_two_entries)
       = (Ok (InvocationFuture (correlation_id (demo_client demo_two_entries)) inv), s')
       /\ request inv = r
       /\ trace s'
          = trace (demo_client demo_two_entries)
            ++ (NearCacheInvalidated
                  <$> mutation_keys demo_near_cache_map (mutation_put 1 5 None None))
            ++ [Encoded r; Invoked (correlation_id (demo_client demo_two_entries)) inv]
       /\ (forall k,
             near_cache s' !! k
             = if bool_decide (k ∈ mutation_keys demo_near_cache_map (mutation_put 1 5 None None))
               then None else near_cache (demo_client demo_two_entries) !! k)
       /\ (forall k,
             k ∈ mutation_keys demo_near_cache_map (mutation_put 1 5 None None) ->
             exists inv' continuation s'',
               _get_internal demo_near_cache_map k s'
               = (Ok (ContinueWith (InvocationFuture (correlation_id s') inv') continuation),
                  s'')
               /\ codec (request inv') = map_get_codec
               /\ trace s''
                  = trace s' ++ [Encoded (request inv'); Invoked (correlation_id s') inv']).
Proof.
  split; [reflexivity|].
  apply (mutation_invalidates_before_invoking demo_near_cache_map (mutation_put 1 5 None None)
           (demo_client demo_two_entries)).
  reflexivity.
Defined.

(** C2 as stated fails when a read of the key is in flight: [get(1)] twice
    on an empty near cache, both missing; the first future resolved, which
    caches the value 7 under [k1]; [put(1, 5)], which removes [k1] from the
    near cache before its invocation; the second future, issued before the
    [put], resolved after it, which stores its reply 7 under [k1] again.
    The following [get(1)] is answered from the near cache with the value
    that was cached before the mutation, and sends nothing. *)
Lemma read_after_mutation_sees_value_cached_before :
  exists f1 s1 f2 s2 s3 f3 s4 s5,
    Map_get demo_near_cache_map (Some 1) (demo_client ∅) = (Ok f1, s1)
    /\ Map_get demo_near_cache_map (Some 1) s1 = (Ok f2, s2)
    /\ result f1 s2 = (Ok (Some 7), s3)
    /\ near_cache s3 !! "k1" = Some (Some 7)
    /\ run_mutation demo_near_cache_map (mutation_put 1 5 None None) s3 = (Ok f3, s4)
    /\ near_cache s4 !! "k1" = None
    /\ result f2 s4 = (Ok (Some 7), s5)
    /\ near_cache s5 !! "k1" = Some (Some 7)
    /\ Map_get demo_near_cache_map (Some 1) s5 = (Ok (ImmediateFuture (Some 7)), s5).
Proof.
  pose (future_of := fun r : Result (Proxy.Future string Z Z) * Client string Z Z =>
                       match r.1 with Ok f => f | Raised _ => ImmediateFuture None end).
  pose (r1 := Map_get demo_near_cache_map (Some 1) (demo_client ∅)).
  pose (r2 := Map_get demo_near_cache_map (Some 1) r1.2).
  pose (s3 := (result (future_of r1) r2.2).2).
  pose (r3 := run_mutation demo_near_cache_map (mutation_put 1 5 None None) s3).
  pose (s5 := (result (future_of r2) r3.2).2).
  exists (future_of r1), r1.2, (future_of r2), r2.2, s3, (future_of r3), r3.2, s5.
  repeat split; vm_compute; reflexivity.
Qed.

(** [get(1)] with key [k1] cached, and with an empty near cache. *)
Lemma get_through_near_cache_witness :
  cls demo_near_cache_map = MapFeatNearCache
  /\ near_cache (demo_client demo_two_entries) !! "k1" = Some (Some 10)
  /\ Map_get demo_near_cache_map (Some 1) (demo_client demo_two_entries)
     = (Ok (ImmediateFuture (Some 10)), demo_client demo_two_entries)
  /\ near_cache (demo_client ∅) !! "k1" = None
  /\ exists inv future,
       Map_get demo_near_cache_map (Some 1) (demo_client ∅)
       = (Ok future,
          mkClient ∅ 0 1 (replies (demo_client ∅)) [Encoded (request inv); Invoked 0%nat inv])
       /\ request inv = mkRequest map_get_codec [AStr "demo"; AData "k1"; ALong 11].
Proof.
  assert (Hcls : cls demo_near_cache_map = MapFeatNearCache) by reflexivity.
  split; [exact Hcls|]. split; [reflexivity|]. split.
  - apply (get_through_near_cache demo_near_cache_map 1 (demo_client demo_two_entries) Hcls).
    reflexivity.
  - split; [reflexivity|].
    assert (Hmiss : near_cache (demo_client ∅) !! _to_data demo_near_cache_map 1 = None)
      by reflexivity.
    destruct (proj2 (get_through_near_cache demo_near_cache_map 1 (demo_client ∅) Hcls)
                Hmiss) as (inv & future & Hget & Hreq & _).
    exists inv, future. split; [exact Hget | exact Hreq].
Defined.

(** [clear()] with two entries cached, and [load_all(None, False)]. *)
Lemma map_wide_clears_before_invoking_witness :
  cls demo_near_cache_map = MapFeatNearCache
  /\ clears_near_cache (map_wide_clear (Obj := Z)) = true
  /\ exists r inv s',
       run_map_wide demo_near_cache_map map_wide_clear (demo_client demo_two_entries)
       = (Ok (InvocationFuture 0%nat inv), s')
       /\ request inv = r
       /\ near_cache s' = ∅
       /\ trace s' = [NearCacheCleared; Encoded r; Invoked 0%nat inv].
Proof.
  split; [reflexivity|]. split; [reflexivity|].
  apply (map_wide_clears_before_invoking demo_near_cache_map map_wide_clear
           (demo_client demo_two_entries)); reflexivity.
Defined.

(** C6 as stated fails for [load_all]: called without keys and with
    [replace_existing_values] false on a near-cache map, it issues the
    remote [map_load_all] call while both entries stay in the near cache,
    which is never cleared. *)
Lemma load_all_without_replacing_keeps_near_cache :
  exists inv s',
    run_map_wide demo_near_cache_map (map_wide_load_all None false) (demo_client demo_two_entries)
    = (Ok (InvocationFuture 0%nat inv), s')
    /\ codec (request inv) = map_load_all_codec
    /\ trace s' = [Encoded (request inv); Invoked 0%nat inv]
    /\ near_cache s' !! "k1" = Some (Some 10)
    /\ near_cache s' <> ∅.
Proof.
  do 2 eexists. split; [reflexivity|].
  split; [reflexivity|]. split; [reflexivity|].
  assert (Hk1 : demo_two_entries !! "k1" = Some (Some 10)) by reflexivity.
  split; [exact Hk1|].
  simpl. intros Hempty. fold demo_two_entries in Hempty.
  rewrite Hempty, lookup_empty in Hk1. discriminate.
Qed.

(** [put(None, 5)] on a map with a near cache. *)
Lemma none_argument_raises_before_anything_witness :
  some_argument_is_None (keyed_put None (Some 5) None None) = true
  /\ exists message,
       run_keyed demo_near_cache_map (keyed_put None (Some 5) None None)
         (demo_client demo_two_entries)
       = (Raised (AssertionError message), demo_client demo_two_entries).
Proof.
  split; [reflexivity|].
  apply (none_argument_raises_before_anything demo_near_cache_map
           (keyed_put None (Some 5) None None) (demo_client demo_two_entries)).
  reflexivity.
Defined.


(* ===================================================================== *)
(** * Properties of the frame codec *)
(* ===================================================================== *)

Section FastForward.
Import ClientMessage Builtin.

Lemma fast_forward_loop_done (rest : list Frame) (c : nat) :
  fast_forward_loop rest 0 c = Some c.
Proof. by destruct rest. Qed.

Lemma fast_forward_loop_members (w : list Frame) :
  members w ->
  forall (rest : list Frame) (n : Z) (c : nat),
    0 < n ->
    fast_forward_loop (w ++ rest) n c = fast_forward_loop rest n (c + length w)%nat.
Proof.
  induction 1 as [|f w Hb He Hw IH|b inner e w Hb Hbe He Hinner IHinner Hw IHw];
    intros rest n c Hn.
  - simpl. by rewrite Nat.add_0_r.
  - cbn [app fast_forward_loop].
    destruct (Z.eqb_spec n 0) as [->|_]; [lia|].
    rewrite He, Hb, IH by done. f_equal. simpl. lia.
  - cbn [app fast_forward_loop].
    destruct (Z.eqb_spec n 0) as [->|_]; [lia|].
    rewrite Hbe, Hb. rewrite <- app_assoc. rewrite IHinner by lia.
    cbn [app fast_forward_loop].
    destruct (Z.eqb_spec (n + 1) 0) as [?|_]; [lia|].
    rewrite He. replace (n + 1 - 1) with n by lia.
    rewrite IHw by done. f_equal. rewrite length_cons, length_app, length_cons. lia.
Qed.

(** C7.  With the cursor on the begin frame of a structure -- whatever
    frames come before and after it, however deep its members nest, and
    also when it has no members -- reading the begin frame and
    fast-forwarding leaves the frames as they are and the cursor on the
    frame right after the matching end frame, the next sibling. *)
Theorem fast_forward_reaches_next_sibling
        (before inner after : list Frame) (begin_frame end_frame : Frame) :
  is_begin_frame begin_frame = true ->
  is_end_frame end_frame = true ->
  members inner ->
  let all_frames := before ++ begin_frame :: inner ++ end_frame :: after in
  let msg := mkInbound all_frames (length before) in
  let sibling := (length before + 1 + length inner + 1)%nat in
  next_frame msg = Some (begin_frame, mkInbound all_frames (S (length before)))
  /\ fast_forward_to_end_frame (mkInbound all_frames (S (length before)))
     = Some (mkInbound all_frames sibling)
  /\ drop sibling all_frames = after.
Proof.
  intros _ Hend Hinner all_frames msg sibling. subst all_frames msg sibling.
  split; [|split].
  - unfold next_frame. cbn [frames cursor].
    rewrite lookup_app_r by lia. by rewrite Nat.sub_diag.
  - unfold fast_forward_to_end_frame. cbn [frames cursor].
    replace (S (length before)) with (length (before ++ [begin_frame]))
      by (rewrite length_app; simpl; lia).
    rewrite (cons_middle begin_frame), app_assoc, drop_app_length.
    rewrite fast_forward_loop_members by (done || lia).
    cbn [fast_forward_loop]. rewrite Hend.
    change (1 =? 0) with false. cbn match. change (1 - 1) with 0.
    rewrite fast_forward_loop_done. simpl.
    do 2 f_equal. rewrite length_app. simpl. lia.
  - rewrite (cons_middle begin_frame), (cons_middle end_frame), !app_assoc.
    replace (length before + 1 + length inner + 1)%nat
      with (length (((before ++ [begin_frame]) ++ inner) ++ [end_frame]))
      by (rewrite !length_app; simpl; lia).
    apply drop_app_length.
Qed.

End FastForward.

Import ClientMessage Builtin.

(** The message of [test_fast_forward]: a structure whose only member is a
    structure with one plain frame; after the fast-forward no frame is
    left. *)
Lemma fast_forward_reaches_next_sibling_witness :
  is_begin_frame BEGIN_FRAME = true
  /\ is_end_frame END_FRAME = true
  /\ members [BEGIN_FRAME; mkFrame [] 0; END_FRAME]
  /\ next_frame test_fast_forward_message
     = Some (BEGIN_FRAME, mkInbound (frames test_fast_forward_message) 1)
  /\ fast_forward_to_end_frame (mkInbound (frames test_fast_forward_message) 1)
     = Some (mkInbound (frames test_fast_forward_message) 5)
  /\ has_next_frame (mkInbound (frames test_fast_forward_message) 5) = false.
Proof.
  assert (Hmembers : members [BEGIN_FRAME; mkFrame [] 0; END_FRAME]).
  { apply (members_structure BEGIN_FRAME [mkFrame [] 0] END_FRAME []);
      try reflexivity.
    - apply members_frame; try reflexivity. apply members_none.
    - apply members_none. }
  split; [reflexivity|]. split; [reflexivity|]. split; [exact Hmembers|].
  destruct (fast_forward_reaches_next_sibling [] [BEGIN_FRAME; mkFrame [] 0; END_FRAME] []
              BEGIN_FRAME END_FRAME eq_refl eq_refl Hmembers) as (Hnext & Hforward & _).
  split; [exact Hnext|]. split; [exact Hforward|]. reflexivity.
Defined.

Section LittleEndian.
Import ClientMessage Builtin.

Lemma length_le_bytes (n : nat) (z : Z) : length (le_bytes n z) = n.
Proof. revert z. induction n as [|n IH]; intros z; simpl; [done | by rewrite IH]. Qed.

Lemma le_value_le_bytes (n : nat) (z : Z) :
  le_value (le_bytes n z) = z mod 2 ^ (8 * Z.of_nat n).
Proof.
  revert z. induction n as [|n IH]; intros z.
  - simpl. by rewrite Z.mod_1_r.
  - cbn [le_bytes le_value]. rewrite IH.
    replace (8 * Z.of_nat (S n)) with (8 + 8 * Z.of_nat n) by lia.
    rewrite Z.pow_add_r by lia. change (2 ^ 8) with 256.
    rewrite Z.rem_mul_r by lia. reflexivity.
Qed.

Lemma signed_mod (w z : Z) :
  0 < w -> - 2 ^ (w - 1) <= z < 2 ^ (w - 1) -> signed w (z mod 2 ^ w) = z.
Proof.
  intros Hw Hz. unfold signed.
  assert (Hpow : 2 ^ w = 2 * 2 ^ (w - 1)).
  { rewrite <- Z.pow_succ_r by lia. f_equal. lia. }
  assert (0 < 2 ^ (w - 1)) by (apply Z.pow_pos_nonneg; lia).
  destruct (Z.le_gt_cases 0 z) as [Hpos|Hneg].
  - rewrite Z.mod_small by lia.
    destruct (Z.ltb_spec z (2 ^ (w - 1))); lia.
  - replace (z mod 2 ^ w) with (z + 2 ^ w).
    + destruct (Z.ltb_spec (z + 2 ^ w) (2 ^ (w - 1))); lia.
    + apply Z.mod_unique with (-1); lia.
Qed.

Lemma length_write_at (b : bytearray) (offset : Z) (bs : bytearray) :
  0 <= offset -> offset + Z.of_nat (length bs) <= Z.of_nat (length b) ->
  length (write_at b offset bs) = length b.
Proof.
  intros Hoff Hlen. unfold write_at.
  rewrite !length_app, length_take, length_drop. lia.
Qed.

Lemma read_at_write_at (b : bytearray) (offset : Z) (bs : bytearray) :
  0 <= offset -> offset + Z.of_nat (length bs) <= Z.of_nat (length b) ->
  read_at (write_at b offset bs) offset (length bs) = bs.
Proof.
  intros Hoff Hlen. unfold read_at, write_at.
  rewrite drop_app_length'; [|rewrite length_take; lia].
  by rewrite take_app_length.
Qed.

(** A later write past the bytes read does not disturb them. *)
Lemma read_at_write_at_before (b : bytearray) (offset offset' : Z) (n : nat) (bs : bytearray) :
  0 <= offset -> offset + Z.of_nat n <= offset' ->
  offset' + Z.of_nat (length bs) <= Z.of_nat (length b) ->
  read_at (write_at b offset' bs) offset n = read_at b offset n.
Proof.
  intros Hoff Hbefore Hlen. unfold read_at, write_at.
  rewrite drop_app_le by (rewrite length_take; lia).
  rewrite take_app_le by (rewrite length_drop, length_take; lia).
  rewrite skipn_firstn_comm, take_take.
  f_equal. lia.
Qed.

(** A write before the bytes read does not disturb them either. *)
Lemma read_at_write_at_after (b : bytearray) (offset offset' : Z) (n : nat) (bs : bytearray) :
  0 <= offset' -> offset' + Z.of_nat (length bs) <= offset ->
  offset' + Z.of_nat (length bs) <= Z.of_nat (length b) ->
  read_at (write_at b offset' bs) offset n = read_at b offset n.
Proof.
  intros Hoff Hafter Hlen. unfold read_at, write_at.
  rewrite app_assoc, drop_app_ge; rewrite ?length_app, ?length_take; [|lia].
  rewrite drop_drop. do 2 f_equal. lia.
Qed.

End LittleEndian.

Section FixedSize.
Import ClientMessage Builtin.

Lemma le_value_read_write (n : nat) (b : bytearray) (offset z : Z) :
  0 <= offset -> offset + Z.of_nat n <= Z.of_nat (length b) ->
  le_value (read_at (write_at b offset (le_bytes n z)) offset n) = z mod 2 ^ (8 * Z.of_nat n).
Proof.
  intros Hoff Hlen.
  rewrite <- (length_le_bytes n z) at 2.
  rewrite read_at_write_at by (rewrite ?length_le_bytes; lia).
  apply le_value_le_bytes.
Qed.

Lemma signed_round_trip (n : nat) (w : Z) (b : bytearray) (offset z : Z) :
  w = 8 * Z.of_nat n -> 0 < w -> - 2 ^ (w - 1) <= z < 2 ^ (w - 1) ->
  0 <= offset -> offset + Z.of_nat n <= Z.of_nat (length b) ->
  signed w (le_value (read_at (write_at b offset (le_bytes n z)) offset n)) = z.
Proof.
  intros -> Hw Hz Hoff Hlen. rewrite le_value_read_write by done. by apply signed_mod.
Qed.

Lemma unsigned_round_trip (n : nat) (b : bytearray) (offset z : Z) :
  0 <= z < 2 ^ (8 * Z.of_nat n) ->
  0 <= offset -> offset + Z.of_nat n <= Z.of_nat (length b) ->
  le_value (read_at (write_at b offset (le_bytes n z)) offset n) = z.
Proof.
  intros Hz Hoff Hlen. rewrite le_value_read_write by done. by apply Z.mod_small.
Qed.

Lemma decode_encode_boolean (b : bytearray) (offset : Z) (value : bool) :
  0 <= offset -> offset + 1 <= Z.of_nat (length b) ->
  decode_boolean (encode_boolean b offset value) offset = value.
Proof.
  intros Hoff Hlen. unfold decode_boolean, encode_boolean.
  rewrite unsigned_round_trip by (destruct value; simpl; lia).
  by destruct value.
Qed.

Lemma decode_encode_uuid (b : bytearray) (offset : Z) (value : option Z) :
  fix_valid TUUID value ->
  0 <= offset -> offset + UUID_SIZE_IN_BYTES <= Z.of_nat (length b) ->
  decode_uuid (encode_uuid b offset value) offset = value.
Proof.
  unfold UUID_SIZE_IN_BYTES. intros Hvalid Hoff Hlen.
  unfold decode_uuid, encode_uuid, BOOLEAN_SIZE_IN_BYTES, LONG_SIZE_IN_BYTES.
  destruct value as [u|]; cbn [Py.is_None].
  - simpl in Hvalid.
    assert (Hb : length (encode_boolean b offset false) = length b).
    { unfold encode_boolean. apply length_write_at; simpl; lia. }
    assert (Hm : length (write_at (encode_boolean b offset false) (offset + 1)
                           (le_bytes 8 (u / 2 ^ 64))) = length b).
    { rewrite length_write_at; rewrite ?length_le_bytes; lia. }
    assert (Hflag : decode_boolean
                      (write_at (write_at (encode_boolean b offset false) (offset + 1)
                                   (le_bytes 8 (u / 2 ^ 64)))
                         (offset + 1 + 8) (le_bytes 8 (u mod 2 ^ 64))) offset = false).
    { unfold decode_boolean.
      rewrite !read_at_write_at_before by (rewrite ?length_le_bytes; lia).
      apply (decode_encode_boolean b offset false); lia. }
    rewrite Hflag.
    rewrite (unsigned_round_trip 8) by (try apply Z.mod_pos_bound; lia).
    rewrite read_at_write_at_before by (rewrite ?length_le_bytes; lia).
    rewrite (unsigned_round_trip 8).
    + f_equal. pose proof (Z.div_mod u (2 ^ 64)). lia.
    + split; [apply Z.div_pos; lia|].
      apply Z.div_lt_upper_bound; [lia|].
      change (2 ^ 64 * 2 ^ (8 * Z.of_nat 8)) with (2 ^ 128). lia.
    + lia.
    + lia.
  - by rewrite decode_encode_boolean by lia.
Qed.

Lemma fix_round_trip (t : FixType) (b : bytearray) (offset : Z) (v : fix_value t) :
  fix_valid t v ->
  0 <= offset -> offset + fix_size t <= Z.of_nat (length b) ->
  fix_decode t (fix_encode t b offset v) offset = v.
Proof.
  destruct t; cbn [fix_valid fix_size fix_decode fix_encode fix_value] in *;
    intros Hvalid Hoff Hlen.
  - apply decode_encode_boolean; [done | unfold BOOLEAN_SIZE_IN_BYTES in Hlen; lia].
  - apply (signed_round_trip 1 8); unfold BYTE_SIZE_IN_BYTES in *; simpl; lia.
  - apply (signed_round_trip 2 16); unfold SHORT_SIZE_IN_BYTES in *; simpl; lia.
  - apply (signed_round_trip 4 32); unfold INT_SIZE_IN_BYTES in *; simpl; lia.
  - apply (signed_round_trip 8 64); unfold LONG_SIZE_IN_BYTES in *; simpl; lia.
  - apply (unsigned_round_trip 4); unfold FLOAT_SIZE_IN_BYTES in *; simpl; lia.
  - apply (unsigned_round_trip 8); unfold DOUBLE_SIZE_IN_BYTES in *; simpl; lia.
  - by apply decode_encode_uuid.
Qed.

End FixedSize.

Section Utf8.
Import ClientMessage Builtin.

Lemma is_scalar_spec (cp : Z) :
  is_scalar cp = true <-> 0 <= cp < 1114112 /\ (cp < 55296 \/ 57344 <= cp).
Proof. unfold is_scalar. lia. Qed.

(** Decide the comparisons of the goal one by one; arithmetic settles
    which way each goes. *)
Ltac decide_comparisons :=
  repeat match goal with
         | |- context [?a <=? ?b] => destruct (Z.leb_spec a b); try lia; cbn [andb orb negb]
         | |- context [?a <? ?b] => destruct (Z.ltb_spec a b); try lia; cbn [andb orb negb]
         end.

Ltac same_code_point :=
  match goal with
  | |- cons ?x <$> _ = cons ?cp <$> _ => replace x with cp by lia; reflexivity
  end.

Lemma utf8_decode_char (cp : Z) (rest : bytearray) :
  is_scalar cp = true ->
  utf8_decode (utf8_char cp ++ rest) = cons cp <$> utf8_decode rest.
Proof.
  intros Hscalar%is_scalar_spec. unfold utf8_char.
  destruct (Z.ltb_spec cp 128); [|destruct (Z.ltb_spec cp 2048); [|destruct (Z.ltb_spec cp 65536)]];
    cbn [app utf8_decode]; unfold is_continuation, is_scalar.
  - decide_comparisons. reflexivity.
  - Z.div_mod_to_equations; decide_comparisons; same_code_point.
  - Z.div_mod_to_equations; decide_comparisons; same_code_point.
  - Z.div_mod_to_equations; decide_comparisons; same_code_point.
Qed.

Lemma utf8_round_trip (s : list Z) :
  Forall (fun cp => is_scalar cp = true) s -> utf8_decode (utf8_encode s) = Some s.
Proof.
  induction 1 as [|cp s Hcp Hs IH]; [reflexivity|].
  unfold utf8_encode in *. cbn [fmap list_fmap concat].
  rewrite utf8_decode_char by done. by rewrite IH.
Qed.

End Utf8.

Section PackedLists.
Import ClientMessage Builtin.

Lemma read_at_app_l (c rest : bytearray) (o : Z) (k : nat) :
  0 <= o -> o + Z.of_nat k <= Z.of_nat (length c) ->
  read_at (c ++ rest) o k = read_at c o k.
Proof.
  intros Ho Hk. unfold read_at.
  rewrite drop_app_le by lia.
  rewrite take_app_le by (rewrite length_drop; lia). reflexivity.
Qed.

Lemma read_at_app_r (c rest : bytearray) (o : Z) (k : nat) :
  0 <= o ->
  read_at (c ++ rest) (Z.of_nat (length c) + o) k = read_at rest o k.
Proof.
  intros Ho. unfold read_at.
  replace (Z.to_nat (Z.of_nat (length c) + o)) with (length c + Z.to_nat o)%nat by lia.
  by rewrite drop_app_add.
Qed.

Lemma read_at_whole (c : bytearray) (k : nat) :
  k = length c -> read_at c 0 k = c.
Proof. intros ->. unfold read_at. simpl. apply firstn_all. Qed.

(** Reading inside the [j]-th of equally long chunks. *)
Lemma read_at_chunk (sz : nat) (chunks : list bytearray) (j : nat) (c : bytearray)
      (o : Z) (k : nat) :
  Forall (fun c => length c = sz) chunks ->
  chunks !! j = Some c ->
  0 <= o -> o + Z.of_nat k <= Z.of_nat sz ->
  read_at (concat chunks) (Z.of_nat j * Z.of_nat sz + o) k = read_at c o k.
Proof.
  intros Hsz. revert j. induction Hsz as [|c0 chunks Hc0 Hchunks IH]; intros j Hj Ho Hk.
  - done.
  - destruct j as [|j]; cbn [concat].
    + injection Hj as ->. rewrite Z.mul_0_l, Z.add_0_l.
      apply read_at_app_l; lia.
    + simpl in Hj.
      replace (Z.of_nat (S j) * Z.of_nat sz + o)
        with (Z.of_nat (length c0) + (Z.of_nat j * Z.of_nat sz + o)) by lia.
      rewrite read_at_app_r by lia. by apply IH.
Qed.

Lemma length_concat_chunks (sz : nat) (chunks : list bytearray) :
  Forall (fun c => length c = sz) chunks ->
  length (concat chunks) = (length chunks * sz)%nat.
Proof.
  induction 1 as [|c chunks Hc Hchunks IH]; [done|].
  cbn [concat]. rewrite length_app, IH, Hc. simpl. lia.
Qed.

(** Decoding item by item what was packed item by item. *)
Lemma packed_round_trip {A} (to_bytes : A -> bytearray) (item : bytearray -> Z -> A)
      (sz : nat) (xs : list A) :
  (0 < sz)%nat ->
  Forall (fun x => length (to_bytes x) = sz) xs ->
  (forall (j : nat) x,
     xs !! j = Some x ->
     item (concat (to_bytes <$> xs)) (Z.of_nat j * Z.of_nat sz) = x) ->
  (fun i => item (concat (to_bytes <$> xs)) (i * Z.of_nat sz))
    <$> range (Z.of_nat (length (concat (to_bytes <$> xs))) / Z.of_nat sz)
  = xs.
Proof.
  intros Hsz Hlen Hitem.
  rewrite (length_concat_chunks sz) by by apply Forall_fmap.
  rewrite length_fmap, Nat2Z.inj_mul, Z.div_mul by lia.
  unfold range. rewrite Nat2Z.id, <- list_fmap_compose.
  apply list_eq. intros j. rewrite list_lookup_fmap.
  destruct (xs !! j) as [x|] eqn:Hx.
  - rewrite lookup_seq_lt by by eapply lookup_lt_Some.
    simpl. f_equal. by apply Hitem.
  - rewrite lookup_seq_ge; [done|]. by apply lookup_ge_None.
Qed.

Lemma length_uuid_bytes (u : option Z) : length (uuid_bytes u) = 17%nat.
Proof.
  unfold uuid_bytes, encode_uuid, encode_boolean, BOOLEAN_SIZE_IN_BYTES, LONG_SIZE_IN_BYTES.
  destruct u; rewrite !length_write_at; rewrite ?length_write_at, ?length_le_bytes;
    try reflexivity; rewrite ?length_write_at, ?length_le_bytes; simpl; lia.
Qed.

Lemma decode_uuid_bytes (u : option Z) :
  valid_uuid u -> decode_uuid (uuid_bytes u) 0 = u.
Proof.
  intros Hu. unfold uuid_bytes. apply decode_encode_uuid; [done | lia | by vm_compute].
Qed.

(** [decode_uuid] looks at the seventeen bytes from the offset on only. *)
Lemma decode_uuid_local (b c : bytearray) (offset : Z) :
  (forall (o : Z) (k : nat),
     0 <= o -> o + Z.of_nat k <= 17 -> read_at b (offset + o) k = read_at c o k) ->
  decode_uuid b offset = decode_uuid c 0.
Proof.
  intros Hread. unfold decode_uuid, decode_boolean, BOOLEAN_SIZE_IN_BYTES, LONG_SIZE_IN_BYTES.
  rewrite <- (Z.add_0_r offset) at 1.
  rewrite <- (Z.add_assoc offset 1 8).
  rewrite (Hread 0 1%nat), (Hread 1 8%nat), (Hread (1 + 8) 8%nat) by lia.
  reflexivity.
Qed.

Lemma list_integer_round_trip (arr : list Z) :
  Forall (fix_valid TInt) arr ->
  (fun i => decode_int (concat (le_bytes 4 <$> arr)) (i * INT_SIZE_IN_BYTES))
    <$> range (Z.of_nat (length (concat (le_bytes 4 <$> arr))) / INT_SIZE_IN_BYTES)
  = arr.
Proof.
  intros Hvalid.
  apply (packed_round_trip (le_bytes 4) decode_int 4); [lia | |].
  - apply Forall_forall. intros x _. apply length_le_bytes.
  - intros j x Hx. unfold decode_int.
    rewrite <- (Z.add_0_r (Z.of_nat j * Z.of_nat 4)).
    rewrite (read_at_chunk 4 _ j (le_bytes 4 x)); [| | |lia|lia].
    + rewrite read_at_whole by by rewrite length_le_bytes.
      rewrite le_value_le_bytes. apply (signed_mod 32); [lia|].
      rewrite Forall_forall in Hvalid. apply Hvalid. eapply list_elem_of_lookup_2, Hx.
    + apply Forall_fmap, Forall_forall. intros y _. apply length_le_bytes.
    + by rewrite list_lookup_fmap, Hx.
Qed.

Lemma list_long_round_trip (arr : list Z) :
  Forall (fix_valid TLong) arr ->
  (fun i => decode_long (concat (le_bytes 8 <$> arr)) (i * LONG_SIZE_IN_BYTES))
    <$> range (Z.of_nat (length (concat (le_bytes 8 <$> arr))) / LONG_SIZE_IN_BYTES)
  = arr.
Proof.
  intros Hvalid.
  apply (packed_round_trip (le_bytes 8) decode_long 8); [lia | |].
  - apply Forall_forall. intros x _. apply length_le_bytes.
  - intros j x Hx. unfold decode_long.
    rewrite <- (Z.add_0_r (Z.of_nat j * Z.of_nat 8)).
    rewrite (read_at_chunk 8 _ j (le_bytes 8 x)); [| | |lia|lia].
    + rewrite read_at_whole by by rewrite length_le_bytes.
      rewrite le_value_le_bytes. apply (signed_mod 64); [lia|].
      rewrite Forall_forall in Hvalid. apply Hvalid. eapply list_elem_of_lookup_2, Hx.
    + apply Forall_fmap, Forall_forall. intros y _. apply length_le_bytes.
    + by rewrite list_lookup_fmap, Hx.
Qed.

Lemma list_uuid_round_trip (arr : list (option Z)) :
  Forall valid_uuid arr ->
  (fun i => decode_uuid (concat (uuid_bytes <$> arr)) (i * UUID_SIZE_IN_BYTES))
    <$> range (Z.of_nat (length (concat (uuid_bytes <$> arr))) / UUID_SIZE_IN_BYTES)
  = arr.
Proof.
  intros Hvalid.
  apply (packed_round_trip uuid_bytes decode_uuid 17); [lia | |].
  - apply Forall_forall. intros x _. apply length_uuid_bytes.
  - intros j x Hx.
    rewrite (decode_uuid_local _ (uuid_bytes x)).
    + apply decode_uuid_bytes. rewrite Forall_forall in Hvalid.
      apply Hvalid. eapply list_elem_of_lookup_2, Hx.
    + intros o k Ho Hk. apply (read_at_chunk 17 _ j); [| |lia|lia].
      * apply Forall_fmap, Forall_forall. intros y _. apply length_uuid_bytes.
      * by rewrite list_lookup_fmap, Hx.
Qed.

Lemma entry_uuid_long_round_trip (entries : list (option Z * Z)) :
  Forall (fun e => valid_uuid (fst e) /\ fix_valid TLong (snd e)) entries ->
  let to_bytes := fun '(key, value) => uuid_bytes key ++ le_bytes 8 value in
  (fun i => (decode_uuid (concat (to_bytes <$> entries)) (i * ENTRY_SIZE_IN_BYTES),
             decode_long (concat (to_bytes <$> entries))
               (i * ENTRY_SIZE_IN_BYTES + UUID_SIZE_IN_BYTES)))
    <$> range (Z.of_nat (length (concat (to_bytes <$> entries))) / ENTRY_SIZE_IN_BYTES)
  = entries.
Proof.
  intros Hvalid to_bytes.
  assert (Hlen : Forall (fun c => length c = 25%nat) (to_bytes <$> entries)).
  { apply Forall_fmap, Forall_forall. intros [key value] _.
    change (length (uuid_bytes key ++ le_bytes 8 value) = 25%nat).
    rewrite length_app, length_uuid_bytes, length_le_bytes. reflexivity. }
  apply (packed_round_trip to_bytes
           (fun b i => (decode_uuid b i, decode_long b (i + UUID_SIZE_IN_BYTES))) 25);
    [lia | | ].
  - by apply Forall_fmap in Hlen.
  - intros j [key value] Hx.
    rewrite Forall_forall in Hvalid.
    destruct (Hvalid (key, value)) as [Hkey Hvalue]; [eapply list_elem_of_lookup_2, Hx|].
    assert (Hj : (to_bytes <$> entries) !! j = Some (uuid_bytes key ++ le_bytes 8 value))
      by by rewrite list_lookup_fmap, Hx.
    f_equal.
    + rewrite (decode_uuid_local _ (uuid_bytes key)); [by apply decode_uuid_bytes|].
      intros o k Ho Hk.
      etrans; [apply (read_at_chunk 25 _ j _ o k Hlen Hj); lia|].
      apply read_at_app_l; [lia | rewrite length_uuid_bytes; lia].
    + unfold decode_long, UUID_SIZE_IN_BYTES.
      etrans;
        [apply (f_equal (fun r => signed 64 (le_value r))),
           (read_at_chunk 25 _ j _ 17 8 Hlen Hj); lia|].
      replace 17 with (Z.of_nat (length (uuid_bytes key)) + 0)
        by (rewrite length_uuid_bytes; lia).
      rewrite read_at_app_r by lia.
      rewrite read_at_whole by by rewrite length_le_bytes.
      rewrite le_value_le_bytes. by apply (signed_mod 64).
Qed.

End PackedLists.

Section FrameCodecs.
Import ClientMessage Builtin.

Lemma inbound_eq (fs fs' : list Frame) (c c' : nat) :
  fs = fs' -> c = c' -> mkInbound fs c = mkInbound fs' c'.
Proof. by intros -> ->. Qed.

Lemma at_cursor_app (before fs rest : list Frame) :
  mkInbound (before ++ fs ++ rest) (length before + length fs)
  = at_cursor (before ++ fs) rest.
Proof. unfold at_cursor. apply inbound_eq; [apply app_assoc | by rewrite length_app]. Qed.

Lemma peek_next_frame_at (before rest : list Frame) (f : Frame) :
  peek_next_frame (at_cursor before (f :: rest)) = Some f.
Proof.
  unfold peek_next_frame, at_cursor. cbn [frames cursor].
  rewrite lookup_app_r by lia. by rewrite Nat.sub_diag.
Qed.

Lemma next_frame_at (before rest : list Frame) (f : Frame) :
  next_frame (at_cursor before (f :: rest)) = Some (f, at_cursor (before ++ [f]) rest).
Proof.
  unfold next_frame. fold (peek_next_frame (at_cursor before (f :: rest))).
  rewrite peek_next_frame_at. cbn [mbind option_bind]. do 2 f_equal.
  unfold at_cursor. cbn [frames cursor].
  apply inbound_eq; [by rewrite <- app_assoc | rewrite length_app; simpl; lia].
Qed.

Lemma frames_left_at (before rest : list Frame) :
  frames_left (at_cursor before rest) = length rest.
Proof. unfold frames_left, at_cursor. cbn [frames cursor]. rewrite length_app. lia. Qed.

Lemma has_next_frame_at_end (before : list Frame) :
  has_next_frame (at_cursor before []) = false.
Proof.
  unfold has_next_frame, at_cursor. cbn [frames cursor].
  rewrite app_nil_r. apply bool_decide_eq_false_2. lia.
Qed.

(** One decoder after the other reads the frames of one value after those
    of the other. *)
Lemma decodes_both {A B C} (d1 : Decoder A) (d2 : Decoder B) (g : A -> B -> C)
      (fs1 fs2 : list Frame) (x1 : A) (x2 : B) :
  decodes_as d1 fs1 x1 -> decodes_as d2 fs2 x2 ->
  decodes_as (fun msg => '(a, msg) ← d1 msg; '(b, msg) ← d2 msg; Some (g a b, msg))
             (fs1 ++ fs2) (g x1 x2).
Proof.
  intros H1 H2 before rest.
  rewrite <- app_assoc, H1. cbn [mbind option_bind].
  rewrite H2. cbn [mbind option_bind].
  by rewrite <- app_assoc.
Qed.

Lemma starts_with_value_app (fs1 fs2 : list Frame) :
  starts_with_value fs1 -> starts_with_value (fs1 ++ fs2).
Proof. by destruct fs1. Qed.

Lemma length_bind_values {A} (fr : A -> list Frame) (xs : list A) :
  Forall (fun x => starts_with_value (fr x)) xs -> (length xs <= length (xs ≫= fr))%nat.
Proof.
  induction 1 as [|x xs Hx Hxs IH]; [done|].
  rewrite bind_cons, length_app. destruct (fr x); [done|]. simpl in *. lia.
Qed.

(** The loop over the items of a composite list stops at its end frame. *)
Lemma decode_until_end_items {A} (item : Decoder A) (fr : A -> list Frame) (xs : list A)
      (e : Frame) :
  Forall (fun x => decodes_as item (fr x) x /\ starts_with_value (fr x)) xs ->
  is_end_frame e = true ->
  forall fuel before rest,
    (length xs < fuel)%nat ->
    decode_until_end fuel item (at_cursor before ((xs ≫= fr) ++ e :: rest))
    = Some (xs, at_cursor (before ++ (xs ≫= fr)) (e :: rest)).
Proof.
  intros Hxs He. induction Hxs as [|x xs [Hx Hstart] Hxs IH]; intros fuel before rest Hfuel.
  - destruct fuel as [|fuel]; [simpl in Hfuel; lia|].
    cbn [decode_until_end mbind list_bind app].
    unfold next_frame_is_data_structure_end_frame.
    rewrite peek_next_frame_at. cbn [fmap option_fmap option_map mbind option_bind].
    rewrite He. by rewrite app_nil_r.
  - destruct fuel as [|fuel]; [simpl in Hfuel; lia|].
    rewrite bind_cons. cbn [decode_until_end].
    unfold next_frame_is_data_structure_end_frame.
    destruct (fr x) as [|f fs] eqn:Hfr; [done|]. destruct Hstart as [Hend _].
    rewrite <- app_assoc. cbn [app]. rewrite peek_next_frame_at.
    cbn [fmap option_fmap option_map mbind option_bind]. rewrite Hend.
    change (f :: fs ++ (xs ≫= fr) ++ e :: rest)
      with ((f :: fs) ++ (xs ≫= fr) ++ e :: rest).
    rewrite Hx. cbn [mbind option_bind].
    rewrite IH by (simpl in Hfuel; lia). cbn [mbind option_bind].
    by rewrite <- app_assoc.
Qed.

Lemma is_end_frame_end_frame_of (is_final : bool) : is_end_frame (end_frame_of is_final) = true.
Proof. by destruct is_final. Qed.

Lemma list_multi_frame_decodes {A} (decoder : Decoder A) (fr : A -> list Frame)
      (xs : list A) (is_final : bool) :
  Forall (fun x => decodes_as decoder (fr x) x /\ starts_with_value (fr x)) xs ->
  decodes_as (ListMultiFrameCodec_decode decoder)
             (BEGIN_FRAME :: (xs ≫= fr) ++ [end_frame_of is_final]) xs.
Proof.
  intros Hxs before rest. unfold ListMultiFrameCodec_decode.
  cbn [app]. rewrite next_frame_at. cbn [mbind option_bind].
  rewrite frames_left_at, <- app_assoc. cbn [app].
  rewrite (decode_until_end_items decoder fr xs (end_frame_of is_final) Hxs).
  - cbn [mbind option_bind]. rewrite next_frame_at. cbn [mbind option_bind].
    do 2 f_equal. unfold at_cursor.
    apply inbound_eq; [|f_equal]; cbn [app]; rewrite <- ?app_assoc; cbn [app];
      by rewrite <- ?app_assoc.
  - apply is_end_frame_end_frame_of.
  - rewrite length_app. cbn [length].
    pose proof (length_bind_values fr xs) as Hlen.
    rewrite Forall_forall in Hxs. rewrite Forall_forall in Hlen.
    specialize (Hlen (fun x Hx => proj2 (Hxs x Hx))). lia.
Qed.

Lemma entry_list_decodes {K V} (key_decoder : Decoder K) (value_decoder : Decoder V)
      (frk : K -> list Frame) (frv : V -> list Frame) (entries : list (K * V))
      (is_final : bool) :
  Forall (fun e => (decodes_as key_decoder (frk (fst e)) (fst e)
                    /\ starts_with_value (frk (fst e)))
                   /\ decodes_as value_decoder (frv (snd e)) (snd e)) entries ->
  decodes_as (EntryListCodec_decode key_decoder value_decoder)
             (BEGIN_FRAME :: (entries ≫= fun e => frk (fst e) ++ frv (snd e))
                          ++ [end_frame_of is_final]) entries.
Proof.
  intros Hentries.
  apply (list_multi_frame_decodes
           (fun msg => '(key, msg) ← key_decoder msg;
                       '(value, msg) ← value_decoder msg;
                       Some ((key, value), msg))
           (fun e => frk (fst e) ++ frv (snd e))).
  eapply Forall_impl; [exact Hentries|].
  intros [key value] [[Hk Hstart] Hv]. split.
  - by apply (decodes_both key_decoder value_decoder pair).
  - by apply starts_with_value_app.
Qed.

Lemma decode_nullable_some {A} (decoder : Decoder A) (fs : list Frame) (x : A) :
  starts_with_value fs -> decodes_as decoder fs x ->
  decodes_as (decode_nullable decoder) fs (Some x).
Proof.
  intros Hstart Hx before rest. unfold decode_nullable, next_frame_is_null_frame.
  destruct fs as [|f fs]; [done|]. destruct Hstart as [_ Hnull].
  cbn [app]. rewrite peek_next_frame_at. cbn [mbind option_bind]. rewrite Hnull.
  cbn [mbind option_bind].
  change (f :: fs ++ rest) with ((f :: fs) ++ rest). by rewrite Hx.
Qed.

Lemma decode_nullable_none {A} (decoder : Decoder A) (is_final : bool) :
  decodes_as (decode_nullable decoder)
             [if is_final then NULL_FINAL_FRAME else NULL_FRAME] None.
Proof.
  intros before rest. unfold decode_nullable, next_frame_is_null_frame.
  cbn [app]. rewrite peek_next_frame_at. cbn [mbind option_bind].
  replace (is_null_frame (if is_final then NULL_FINAL_FRAME else NULL_FRAME)) with true
    by by destruct is_final.
  cbn [mbind option_bind]. do 2 f_equal.
  unfold at_cursor. cbn [frames cursor].
  apply inbound_eq; [by rewrite <- app_assoc | rewrite length_app; simpl; lia].
Qed.

Lemma frame_of_starts_with_value (payload : bytearray) (is_final : bool) :
  starts_with_value [frame_of payload is_final].
Proof. by destruct is_final. Qed.

(** A decoder that turns the payload of one frame into the value. *)
Lemma one_frame_decodes {A} (decoder : Decoder A) (of_payload : bytearray -> option A)
      (payload : bytearray) (is_final : bool) (x : A) :
  (forall msg, decoder msg = '(f, msg) ← next_frame msg;
                             v ← of_payload (ClientMessage.buf f); Some (v, msg)) ->
  of_payload payload = Some x ->
  decodes_as decoder [frame_of payload is_final] x.
Proof.
  intros Hdecoder Hx before rest. rewrite Hdecoder. cbn [app].
  rewrite next_frame_at. cbn [mbind option_bind].
  replace (ClientMessage.buf (frame_of payload is_final)) with payload by by destruct is_final.
  rewrite Hx. reflexivity.
Qed.

(** Every supported type: a valid value is read back from its frames. *)
Lemma var_decodes (t : VarType) :
  forall (x : var_value t) (is_final : bool),
    var_valid t x ->
    starts_with_value (var_frames t x is_final)
    /\ decodes_as (var_decode t) (var_frames t x is_final) x.
Proof.
  induction t as [| |item IH|key IHk value IHv| | | | |]; intros x is_final Hvalid;
    cbn [var_frames var_decode var_valid] in *.
  - split; [apply frame_of_starts_with_value|].
    apply (one_frame_decodes _ utf8_decode); [done|]. by apply utf8_round_trip.
  - split; [apply frame_of_starts_with_value|].
    by apply (one_frame_decodes _ Some).
  - split; [done|].
    apply list_multi_frame_decodes.
    eapply Forall_impl; [exact Hvalid|]. intros y Hy. cbn beta.
    destruct (IH y false Hy). by split.
  - split; [done|].
    apply (entry_list_decodes _ _ (fun k => var_frames key k false)
             (fun v => var_frames value v false)).
    eapply Forall_impl; [exact Hvalid|]. intros [k v] [Hk Hv]. cbn [fst snd] in *.
    destruct (IHk k false Hk), (IHv v false Hv). by repeat split.
  - split; [apply frame_of_starts_with_value|].
    apply (one_frame_decodes _
             (fun b => Some ((fun i => decode_int b (i * INT_SIZE_IN_BYTES))
                               <$> range (Z.of_nat (length b) / INT_SIZE_IN_BYTES))));
      [done|]. f_equal. by apply list_integer_round_trip.
  - split; [apply frame_of_starts_with_value|].
    apply (one_frame_decodes _
             (fun b => Some ((fun i => decode_long b (i * LONG_SIZE_IN_BYTES))
                               <$> range (Z.of_nat (length b) / LONG_SIZE_IN_BYTES))));
      [done|]. f_equal. by apply list_long_round_trip.
  - split; [apply frame_of_starts_with_value|].
    apply (one_frame_decodes _
             (fun b => Some ((fun i => decode_uuid b (i * UUID_SIZE_IN_BYTES))
                               <$> range (Z.of_nat (length b) / UUID_SIZE_IN_BYTES))));
      [done|]. f_equal. by apply list_uuid_round_trip.
  - split; [done|].
    rewrite <- (zip_fst_snd x) at 3.
    apply (decodes_both (ListMultiFrameCodec_decode ListIntegerCodec_decode)
             ListUUIDCodec_decode (fun values keys => zip keys values)).
    + apply (list_multi_frame_decodes ListIntegerCodec_decode
               (fun x => [frame_of (concat (le_bytes 4 <$> x)) false]) (snd <$> x) false).
      apply Forall_fmap. eapply Forall_impl; [exact Hvalid|].
      intros [k v] [_ Hv]. cbn [fst snd compose] in *.
      split; [|apply frame_of_starts_with_value].
      apply (one_frame_decodes _
               (fun b => Some ((fun i => decode_int b (i * INT_SIZE_IN_BYTES))
                                 <$> range (Z.of_nat (length b) / INT_SIZE_IN_BYTES))));
        [done|]. f_equal. by apply list_integer_round_trip.
    + apply (one_frame_decodes _
               (fun b => Some ((fun i => decode_uuid b (i * UUID_SIZE_IN_BYTES))
                                 <$> range (Z.of_nat (length b) / UUID_SIZE_IN_BYTES))));
        [done|]. f_equal. apply list_uuid_round_trip.
      apply Forall_fmap. eapply Forall_impl; [exact Hvalid|]. by intros [k v] [Hk _].
  - split; [apply frame_of_starts_with_value|].
    apply (one_frame_decodes _
             (fun b => Some ((fun i => (decode_uuid b (i * ENTRY_SIZE_IN_BYTES),
                                        decode_long b (i * ENTRY_SIZE_IN_BYTES
                                                       + UUID_SIZE_IN_BYTES)))
                               <$> range (Z.of_nat (length b) / ENTRY_SIZE_IN_BYTES))));
      [done|]. f_equal. by apply entry_uuid_long_round_trip.
Qed.

End FrameCodecs.

Section Wire.
Import ClientMessage Builtin.

Lemma wire_app (fs1 fs2 : list Frame) : wire (fs1 ++ fs2) = wire fs1 ++ wire fs2.
Proof. unfold wire. by rewrite fmap_app, concat_app. Qed.

Lemma wire_cons (f : Frame) (fs : list Frame) : wire (f :: fs) = frame_bytes f ++ wire fs.
Proof. reflexivity. Qed.

Lemma wire_one (f : Frame) : wire [f] = frame_bytes f.
Proof. unfold wire. cbn [fmap list_fmap concat]. apply app_nil_r. Qed.

Lemma foldl_encode {A} (encoder : bytearray -> A -> bytearray) (fr : A -> list Frame)
      (xs : list A) (buf : bytearray) :
  (forall b x, encoder b x = b ++ wire (fr x)) ->
  foldl encoder buf xs = buf ++ wire (xs ≫= fr).
Proof.
  intros Hencoder. revert buf. induction xs as [|x xs IH]; intros buf.
  - simpl. by rewrite app_nil_r.
  - cbn [foldl]. rewrite IH, Hencoder, bind_cons, wire_app. by rewrite <- app_assoc.
Qed.

Lemma frame_bytes_end_frame_of (is_final : bool) :
  frame_bytes (if is_final then END_FINAL_FRAME else END_FRAME)
  = wire [end_frame_of is_final].
Proof. by destruct is_final. Qed.

(** An encoder appends the wire form of the frames of the value. *)
Lemma var_encode_wire (t : VarType) :
  forall (buf : bytearray) (x : var_value t) (is_final : bool),
    var_encode t buf x is_final = buf ++ wire (var_frames t x is_final).
Proof.
  induction t as [| |item IH|key IHk value IHv| | | | |]; intros buf x is_final;
    cbn [var_encode var_frames].
  - unfold StringCodec_encode. by rewrite wire_one.
  - unfold ByteArrayCodec_encode. by rewrite wire_one.
  - unfold ListMultiFrameCodec_encode.
    rewrite (foldl_encode _ (fun x => var_frames item x false)) by (intros; apply IH).
    rewrite (wire_cons BEGIN_FRAME), wire_app, frame_bytes_end_frame_of.
    by rewrite <- !app_assoc.
  - unfold EntryListCodec_encode.
    rewrite (foldl_encode _ (fun e => var_frames key (fst e) false
                                        ++ var_frames value (snd e) false)).
    + rewrite (wire_cons BEGIN_FRAME), wire_app, frame_bytes_end_frame_of.
      by rewrite <- !app_assoc.
    + intros b [k v]. cbn [fst snd]. rewrite IHv, IHk, wire_app. by rewrite <- app_assoc.
  - unfold ListIntegerCodec_encode. by rewrite wire_one.
  - unfold ListLongCodec_encode. by rewrite wire_one.
  - unfold ListUUIDCodec_encode. by rewrite wire_one.
  - unfold EntryListUUIDListIntegerCodec_encode, ListMultiFrameCodec_encode,
      ListUUIDCodec_encode, ListIntegerCodec_encode.
    rewrite (foldl_encode _ (fun x => [frame_of (concat (le_bytes 4 <$> x)) false]))
      by (intros; by rewrite wire_one).
    rewrite wire_app, (wire_cons BEGIN_FRAME), wire_app, !wire_one.
    by rewrite <- !app_assoc.
  - unfold EntryListUUIDLongCodec_encode. by rewrite wire_one.
Qed.

Lemma terminated_one (f : Frame) (is_final : bool) :
  is_final_frame f = is_final -> terminated is_final [f].
Proof. intros Hf. exists [], f. by repeat split. Qed.

Lemma terminated_not_final (fs : list Frame) :
  terminated false fs -> Forall (fun f => is_final_frame f = false) fs.
Proof.
  intros (init & last & -> & Hinit & Hlast).
  apply Forall_app. split; [done|]. by apply Forall_singleton.
Qed.

Lemma not_final_bind {A} (fr : A -> list Frame) (xs : list A) :
  (forall x, terminated false (fr x)) ->
  Forall (fun f => is_final_frame f = false) (xs ≫= fr).
Proof.
  intros Hfr. induction xs as [|x xs IH]; [done|].
  rewrite bind_cons. apply Forall_app. split; [|done].
  apply terminated_not_final, Hfr.
Qed.

Lemma terminated_composite (items : list Frame) (is_final : bool) :
  Forall (fun f => is_final_frame f = false) items ->
  terminated is_final (BEGIN_FRAME :: items ++ [end_frame_of is_final]).
Proof.
  intros Hitems. exists (BEGIN_FRAME :: items), (end_frame_of is_final).
  split; [done|]. split; [by apply Forall_cons|]. by destruct is_final.
Qed.

Lemma terminated_app (fs1 fs2 : list Frame) (is_final : bool) :
  terminated false fs1 -> terminated is_final fs2 -> terminated is_final (fs1 ++ fs2).
Proof.
  intros H1%terminated_not_final (init & last & -> & Hinit & Hlast).
  exists (fs1 ++ init), last. split; [by rewrite app_assoc|].
  split; [|done]. apply Forall_app. by split.
Qed.

Lemma is_final_frame_of (payload : bytearray) (is_final : bool) :
  is_final_frame (frame_of payload is_final) = is_final.
Proof. by destruct is_final. Qed.

(** Only the last frame of a value is ever final. *)
Lemma var_frames_terminated (t : VarType) :
  forall (x : var_value t) (is_final : bool), terminated is_final (var_frames t x is_final).
Proof.
  induction t as [| |item IH|key IHk value IHv| | | | |]; intros x is_final;
    cbn [var_frames]; try (apply terminated_one, is_final_frame_of).
  - apply terminated_composite, not_final_bind. intros y. apply IH.
  - apply terminated_composite, not_final_bind. intros [k v]. cbn [fst snd].
    by apply terminated_app.
  - apply terminated_app; [|apply terminated_one, is_final_frame_of].
    apply (terminated_composite _ false), not_final_bind.
    intros y. apply terminated_one, is_final_frame_of.
Qed.

Lemma flags_fit_frame_of (payload : bytearray) (is_final : bool) :
  flags_fit (frame_of payload is_final).
Proof. unfold flags_fit. by destruct is_final; vm_compute. Qed.

Lemma flags_fit_composite (items : list Frame) (is_final : bool) :
  Forall flags_fit items ->
  Forall flags_fit (BEGIN_FRAME :: items ++ [end_frame_of is_final]).
Proof.
  intros Hitems. apply Forall_cons. split; [by vm_compute|].
  apply Forall_app. split; [done|]. apply Forall_singleton.
  by destruct is_final; vm_compute.
Qed.

Lemma flags_fit_bind {A} (fr : A -> list Frame) (xs : list A) :
  (forall x, Forall flags_fit (fr x)) -> Forall flags_fit (xs ≫= fr).
Proof.
  intros Hfr. induction xs as [|x xs IH]; [done|].
  rewrite bind_cons. apply Forall_app. by split.
Qed.

Lemma var_frames_flags (t : VarType) :
  forall (x : var_value t) (is_final : bool), Forall flags_fit (var_frames t x is_final).
Proof.
  induction t as [| |item IH|key IHk value IHv| | | | |]; intros x is_final;
    cbn [var_frames]; try (apply Forall_singleton, flags_fit_frame_of).
  - apply flags_fit_composite, flags_fit_bind. intros y. apply IH.
  - apply flags_fit_composite, flags_fit_bind. intros [k v]. cbn [fst snd].
    apply Forall_app. by split.
  - apply Forall_app. split; [|apply Forall_singleton, flags_fit_frame_of].
    apply (flags_fit_composite _ false), flags_fit_bind.
    intros y. apply Forall_singleton, flags_fit_frame_of.
Qed.

End Wire.

Section Reader.
Import ClientMessage Builtin.

Lemma length_frame_bytes (f : Frame) :
  length (frame_bytes f) = (6 + length (buf f))%nat.
Proof. unfold frame_bytes. rewrite !length_app, !length_le_bytes. lia. Qed.

Lemma read_frame_header (f : Frame) (rest : bytearray) :
  fits_header f ->
  let data := frame_bytes f ++ rest in
  let frame_length := SIZE_OF_FRAME_LENGTH_AND_FLAGS + Z.of_nat (length (buf f)) in
  signed 32 (le_value (read_at data 0 4)) = frame_length
  /\ le_value (read_at data INT_SIZE_IN_BYTES 2) = flags f
  /\ read_at data SIZE_OF_FRAME_LENGTH_AND_FLAGS (length (buf f)) = buf f
  /\ drop (Z.to_nat frame_length) data = rest.
Proof.
  intros [Hflags Hsize]. cbv zeta.
  unfold flags_fit, frame_bytes, SIZE_OF_FRAME_LENGTH_AND_FLAGS, INT_SIZE_IN_BYTES in *.
  set (len := le_bytes 4 (6 + Z.of_nat (length (buf f)))).
  set (fl := le_bytes 2 (flags f)).
  assert (Hlen : length len = 4%nat) by apply length_le_bytes.
  assert (Hfl : length fl = 2%nat) by apply length_le_bytes.
  repeat split.
  - rewrite <- !app_assoc, read_at_app_l by (rewrite ?Hlen; lia).
    rewrite read_at_whole by done. unfold len. rewrite le_value_le_bytes.
    rewrite Z.mod_small by (change (2 ^ (8 * Z.of_nat 4)) with (2 ^ 32); lia).
    unfold signed. change (2 ^ (32 - 1)) with (2 ^ 31).
    destruct (Z.ltb_spec (6 + Z.of_nat (length (buf f))) (2 ^ 31)); [done | lia].
  - rewrite <- !app_assoc.
    replace 4 with (Z.of_nat (length len) + 0) by lia.
    rewrite read_at_app_r, read_at_app_l by (rewrite ?Hfl; lia).
    rewrite read_at_whole by done. unfold fl. rewrite le_value_le_bytes.
    apply Z.mod_small. change (2 ^ (8 * Z.of_nat 2)) with (2 ^ 16). lia.
  - replace ((len ++ fl ++ buf f) ++ rest) with ((len ++ fl) ++ buf f ++ rest)
      by by rewrite <- !app_assoc.
    replace 6 with (Z.of_nat (length (len ++ fl)) + 0) by (rewrite length_app; lia).
    rewrite read_at_app_r, read_at_app_l by lia.
    by apply read_at_whole.
  - apply drop_app_length'. rewrite !length_app. lia.
Qed.

(** Reading one frame off the wire. *)
Lemma read_frames_frame (f : Frame) (rest : bytearray) (fuel : nat) :
  fits_header f ->
  read_frames (S fuel) (frame_bytes f ++ rest)
  = if is_final_frame f then Some [f] else cons f <$> read_frames fuel rest.
Proof.
  intros Hfits.
  destruct (read_frame_header f rest Hfits) as (Hlength & Hflags & Hpayload & Hdrop).
  cbn [read_frames]. rewrite Hlength, Hflags, Hdrop.
  unfold SIZE_OF_FRAME_LENGTH_AND_FLAGS in *.
  replace (6 + Z.of_nat (length (buf f)) - 6) with (Z.of_nat (length (buf f))) by lia.
  rewrite Nat2Z.id, Hpayload.
  rewrite length_app, length_frame_bytes.
  destruct (Z.ltb_spec (Z.of_nat (6 + length (buf f) + length rest)) 6); [lia|].
  destruct (Z.ltb_spec (Z.of_nat (length (buf f))) 0); [lia|].
  destruct (Z.ltb_spec (Z.of_nat (6 + length (buf f) + length rest))
                       (6 + Z.of_nat (length (buf f)))); [lia|].
  cbn [orb]. by destruct f.
Qed.

(** Reading back the frames of a message: all but the last not final. *)
Lemma read_frames_wire (init : list Frame) (last : Frame) (fuel : nat) :
  Forall (fun f => fits_header f /\ is_final_frame f = false) init ->
  fits_header last -> is_final_frame last = true ->
  (length init < fuel)%nat ->
  read_frames fuel (wire (init ++ [last])) = Some (init ++ [last]).
Proof.
  intros Hinit Hfits Hfinal. revert fuel.
  induction Hinit as [|f init [Hf Hnot] Hinit IH]; intros fuel Hfuel.
  - destruct fuel as [|fuel]; [simpl in Hfuel; lia|].
    cbn [app]. rewrite wire_one, <- (app_nil_r (frame_bytes last)).
    rewrite read_frames_frame by done. by rewrite Hfinal.
  - destruct fuel as [|fuel]; [simpl in Hfuel; lia|].
    cbn [app]. rewrite wire_cons, read_frames_frame by done.
    rewrite Hnot, IH by (simpl in Hfuel; lia). reflexivity.
Qed.

Lemma length_wire_ge (fs : list Frame) (f : Frame) :
  f ∈ fs -> (length (frame_bytes f) <= length (wire fs))%nat.
Proof.
  induction fs as [|g fs IH]; intros Hf; [by apply elem_of_nil in Hf|].
  rewrite wire_cons, length_app.
  apply elem_of_cons in Hf as [->|Hf]; [lia|]. specialize (IH Hf). lia.
Qed.

Lemma length_wire_frames (fs : list Frame) : (length fs <= length (wire fs))%nat.
Proof.
  induction fs as [|f fs IH]; [done|].
  rewrite wire_cons, length_app, length_frame_bytes. simpl. lia.
Qed.

Lemma initial_buffer_wire : initial_buffer = frame_bytes initial_frame.
Proof. reflexivity. Qed.

(** A message of the initial frame and the frames of one value goes
    through the wire: read back, the value is decoded and no frame is left. *)
Lemma wire_round_trip {A} (decoder : Decoder A) (fs : list Frame) (x : A) :
  terminated true fs -> Forall flags_fit fs ->
  Z.of_nat (length (initial_buffer ++ wire fs)) < 2 ^ 31 ->
  decodes_as decoder fs x ->
  exists msg msg',
    after_initial_frame (initial_buffer ++ wire fs) = Some msg
    /\ decoder msg = Some (x, msg')
    /\ has_next_frame msg' = false.
Proof.
  intros (init & last & -> & Hinit & Hlast) Hflags Hsize Hdecodes.
  assert (Hdata : initial_buffer ++ wire (init ++ [last])
                  = wire ((initial_frame :: init) ++ [last])).
  { by rewrite initial_buffer_wire. }
  assert (Hfits : forall f, f ∈ init ++ [last] -> fits_header f).
  { intros f Hf. split; [by apply (proj1 (Forall_forall _ _) Hflags)|].
    pose proof (length_wire_ge _ f Hf) as Hle.
    rewrite length_frame_bytes in Hle. rewrite length_app in Hsize.
    unfold SIZE_OF_FRAME_LENGTH_AND_FLAGS. lia. }
  exists (at_cursor [initial_frame] ((init ++ [last]) ++ [])),
         (at_cursor ([initial_frame] ++ init ++ [last]) []).
  split; [|split].
  - unfold after_initial_frame, read_message. rewrite Hdata.
    rewrite read_frames_wire.
    + cbn [mbind option_bind].
      change (mkInbound ((initial_frame :: init) ++ [last]) 0)
        with (at_cursor [] (initial_frame :: init ++ [last])).
      rewrite next_frame_at. cbn [mbind option_bind app]. by rewrite app_nil_r.
    + apply Forall_cons. split.
      * split; [|reflexivity]. split; [by vm_compute|].
        unfold SIZE_OF_FRAME_LENGTH_AND_FLAGS. vm_compute. reflexivity.
      * apply Forall_forall. intros f Hf. split.
        -- apply Hfits. apply elem_of_app. by left.
        -- by apply (proj1 (Forall_forall _ _) Hinit).
    + apply Hfits. apply elem_of_app. right. by apply list_elem_of_singleton.
    + done.
    + pose proof (length_wire_frames ((initial_frame :: init) ++ [last])) as Hle.
      rewrite length_app in Hle. simpl in Hle. simpl. lia.
  - apply Hdecodes.
  - apply has_next_frame_at_end.
Qed.

End Reader.

Section RoundTrip.
Import ClientMessage Builtin.

Lemma encode_nullable_wire (t : VarType) (buf : bytearray) (x : option (var_value t))
      (is_final : bool) :
  encode_nullable (var_encode t) buf x is_final
  = buf ++ wire (match x with
                 | Some v => var_frames t v is_final
                 | None => [if is_final then NULL_FINAL_FRAME else NULL_FRAME]
                 end).
Proof.
  destruct x as [v|]; cbn [encode_nullable].
  - apply var_encode_wire.
  - by rewrite wire_one.
Qed.

(** C3.  Decoding the encoding gives back the value, for every supported
    type.  A fixed-size scalar written at an offset of a buffer is read back
    from that offset.  A value of a variable-size type -- string, byte
    array, list, entry list, packed list -- encoded after the initial frame
    as the final value of a message, sent over the wire and read back into
    frames, decodes to itself with no frame left; so does a nullable value,
    [None] to [None] and a list, be it empty, to that list.  The entry list
    of [test_entry_list] decodes to itself through the plain and the
    nullable codec, and the encoded [None] to [None]. *)
Theorem codec_round_trip :
  (forall (t : FixType) (b : bytearray) (offset : Z) (v : fix_value t),
     fix_valid t v ->
     0 <= offset -> offset + fix_size t <= Z.of_nat (length b) ->
     fix_decode t (fix_encode t b offset v) offset = v)
  /\ (forall (t : VarType) (x : var_value t),
        var_valid t x ->
        Z.of_nat (length (var_encode t initial_buffer x true)) < 2 ^ 31 ->
        exists msg msg',
          after_initial_frame (var_encode t initial_buffer x true) = Some msg
          /\ var_decode t msg = Some (x, msg')
          /\ has_next_frame msg' = false)
  /\ (forall (t : VarType) (x : option (var_value t)),
        (forall v, x = Some v -> var_valid t v) ->
        Z.of_nat (length (encode_nullable (var_encode t) initial_buffer x true)) < 2 ^ 31 ->
        exists msg msg',
          after_initial_frame (encode_nullable (var_encode t) initial_buffer x true) = Some msg
          /\ decode_nullable (var_decode t) msg = Some (x, msg')
          /\ has_next_frame msg' = false)
  /\ test_entry_list_decoded = Some (test_entries, Some test_entries, None).
Proof.
  split; [exact fix_round_trip|]. split; [|split].
  - intros t x Hvalid Hsize. rewrite var_encode_wire in *.
    apply wire_round_trip; [apply var_frames_terminated | apply var_frames_flags | done |].
    by apply var_decodes.
  - intros t x Hvalid Hsize. rewrite encode_nullable_wire in *.
    destruct x as [v|].
    + apply wire_round_trip;
        [apply var_frames_terminated | apply var_frames_flags | done |].
      destruct (var_decodes t v true (Hvalid v eq_refl)).
      by apply decode_nullable_some.
    + apply wire_round_trip; [by apply terminated_one | | done |].
      * apply Forall_singleton. by vm_compute.
      * apply (decode_nullable_none _ true).
  - reflexivity.
Qed.

End RoundTrip.

(** The entry list of the test through the plain codec, the same list,
    the empty list and [None] through the nullable one, and the integer
    1234 at offset 16 of the initial buffer. *)
Lemma codec_round_trip_witness :
  (fix_valid TInt 1234 /\ fix_decode TInt (fix_encode TInt initial_buffer 16 1234) 16 = 1234)
  /\ (var_valid (TEntryList TString TString) test_entries
      /\ exists msg msg',
           after_initial_frame
             (var_encode (TEntryList TString TString) initial_buffer test_entries true)
           = Some msg
           /\ var_decode (TEntryList TString TString) msg = Some (test_entries, msg')
           /\ has_next_frame msg' = false)
  /\ (exists msg msg',
        after_initial_frame
          (encode_nullable (var_encode (TEntryList TString TString)) initial_buffer
             (Some []) true) = Some msg
        /\ decode_nullable (var_decode (TEntryList TString TString)) msg = Some (Some [], msg')
        /\ has_next_frame msg' = false)
  /\ (exists msg msg',
        after_initial_frame
          (encode_nullable (var_encode (TEntryList TString TString)) initial_buffer
             None true) = Some msg
        /\ decode_nullable (var_decode (TEntryList TString TString)) msg = Some (None, msg')
        /\ has_next_frame msg' = false).
Proof.
  destruct codec_round_trip as (Hfix & Hvar & Hnullable & _).
  assert (Hentries : var_valid (TEntryList TString TString) test_entries).
  { repeat constructor. }
  split; [|split; [|split]].
  - split; [simpl; lia|]. apply (Hfix TInt initial_buffer 16 1234); [simpl; lia | lia |].
    by vm_compute.
  - split; [exact Hentries|].
    apply (Hvar (TEntryList TString TString) test_entries Hentries). by vm_compute.
  - apply (Hnullable (TEntryList TString TString) (Some [])); [|by vm_compute].
    intros v [= <-]. constructor.
  - apply (Hnullable (TEntryList TString TString) None); [|by vm_compute].
    intros v [=].
Defined.

(* ===================================================================== *)
(** * How [AddressHelper.address_from_str] reads an address text *)
(* ===================================================================== *)

Section StringSearch.
Import Py AddressText.

Implicit Types (s t : string) (c : ascii) (i : Z).

Lemma append_String a s t : (String a s ++ t)%string = String a (s ++ t)%string.
Proof. reflexivity. Qed.

Lemma append_empty t : ("" ++ t)%string = t.
Proof. reflexivity. Qed.

Lemma len_nonneg s : 0 <= len s.
Proof. unfold len. lia. Qed.

Lemma len_app s t : len (s ++ t)%string = len s + len t.
Proof.
  unfold len. induction s as [|a s IH]; rewrite ?append_String, ?append_empty;
    cbn [String.length]; lia.
Qed.

Lemma len_String a s : len (String a s) = 1 + len s.
Proof. unfold len. cbn [String.length]. lia. Qed.

(** Without the character, nothing is found. *)
Lemma find_at_absent s c i : count s c = O -> find_at c s i = -1.
Proof.
  revert i. induction s as [|a s IH]; intros i Hc; [reflexivity|].
  cbn [count find_at] in *. destruct (Ascii.eqb a c); [discriminate|]. by apply IH.
Qed.

Lemma rfind_at_absent s c i : count s c = O -> rfind_at c s i = -1.
Proof.
  revert i. induction s as [|a s IH]; intros i Hc; [reflexivity|].
  cbn [count rfind_at] in *. destruct (Ascii.eqb a c); [discriminate|].
  by rewrite IH.
Qed.

(** The first occurrence lies in a prefix that has one. *)
Lemma find_at_app_l s t c i : (1 <= count s c)%nat -> find_at c (s ++ t)%string i = find_at c s i.
Proof.
  revert i. induction s as [|a s IH]; intros i Hc; cbn [count] in Hc; [lia|].
  rewrite ?append_String, ?append_empty. cbn [find_at].
  destruct (Ascii.eqb a c); [reflexivity|]. by apply IH.
Qed.

(** The first occurrence right after a prefix without one. *)
Lemma find_at_app_r s t c i :
  count s c = O -> find_at c (s ++ String c t)%string i = i + len s.
Proof.
  revert i. induction s as [|a s IH]; intros i Hc.
  - rewrite ?append_String, ?append_empty. cbn [find_at]. rewrite Ascii.eqb_refl.
    unfold len. simpl. lia.
  - cbn [count] in Hc. rewrite ?append_String, ?append_empty. cbn [find_at].
    destruct (Ascii.eqb a c); [discriminate|].
    rewrite IH by done. rewrite len_String. lia.
Qed.

(** Where the first occurrence is, when there is one. *)
Lemma find_at_bounds s c i :
  (1 <= count s c)%nat -> i <= find_at c s i < i + len s.
Proof.
  revert i. induction s as [|a s IH]; intros i Hc; cbn [count] in Hc; [lia|].
  cbn [find_at]. rewrite len_String. pose proof (len_nonneg s).
  destruct (Ascii.eqb a c); [lia|].
  specialize (IH (i + 1) Hc). lia.
Qed.

(** Where the last occurrence is, when there is one. *)
Lemma rfind_at_bounds s c i :
  0 <= i -> (1 <= count s c)%nat -> i <= rfind_at c s i < i + len s.
Proof.
  revert i. induction s as [|a s IH]; intros i Hi Hc; cbn [count] in Hc; [lia|].
  cbn [rfind_at]. rewrite len_String. pose proof (len_nonneg s).
  destruct (count s c) as [|n] eqn:Hcount.
  - rewrite rfind_at_absent by done. simpl.
    destruct (Ascii.eqb a c); lia.
  - specialize (IH (i + 1) ltac:(lia) ltac:(lia)).
    destruct (Z.leb_spec 0 (rfind_at c s (i + 1))); lia.
Qed.

(** The last occurrence lies in a suffix that has one. *)
Lemma rfind_at_app_r s t c i :
  0 <= i -> (1 <= count t c)%nat -> rfind_at c (s ++ t)%string i = rfind_at c t (i + len s).
Proof.
  revert i. induction s as [|a s IH]; intros i Hi Hc.
  - rewrite append_empty. unfold len. simpl. by rewrite Z.add_0_r.
  - rewrite append_String. cbn [rfind_at]. rewrite IH by (done || lia).
    rewrite len_String. pose proof (len_nonneg s).
    replace (i + 1 + len s) with (i + (1 + len s)) by lia.
    pose proof (rfind_at_bounds t c (i + (1 + len s)) ltac:(lia) Hc).
    destruct (Z.leb_spec 0 (rfind_at c t (i + (1 + len s)))); [done | lia].
Qed.

(** The last occurrence right before a suffix without one. *)
Lemma rfind_at_last s t c i :
  0 <= i -> count t c = O -> rfind_at c (s ++ String c t)%string i = i + len s.
Proof.
  intros Hi Hc. rewrite rfind_at_app_r.
  - cbn [rfind_at]. rewrite rfind_at_absent by done. simpl.
    by rewrite Ascii.eqb_refl.
  - done.
  - cbn [count]. rewrite Ascii.eqb_refl. lia.
Qed.

(** A suffix without the character does not move the last occurrence. *)
Lemma rfind_at_app_l s t c i : count t c = O -> rfind_at c (s ++ t)%string i = rfind_at c s i.
Proof.
  intros Hc. revert i. induction s as [|a s IH]; intros i.
  - rewrite append_empty. by rewrite rfind_at_absent.
  - rewrite append_String. cbn [rfind_at]. by rewrite IH.
Qed.

(** Two occurrences: the first one comes before the last one. *)
Lemma find_at_lt_rfind_at s c i :
  0 <= i -> (2 <= count s c)%nat -> find_at c s i < rfind_at c s i.
Proof.
  revert i. induction s as [|a s IH]; intros i Hi Hc; cbn [count] in Hc; [lia|].
  cbn [find_at rfind_at]. destruct (Ascii.eqb a c).
  - pose proof (rfind_at_bounds s c (i + 1) ltac:(lia) ltac:(lia)).
    destruct (Z.leb_spec 0 (rfind_at c s (i + 1))); lia.
  - specialize (IH (i + 1) ltac:(lia) Hc).
    pose proof (rfind_at_bounds s c (i + 1) ltac:(lia) ltac:(lia)).
    destruct (Z.leb_spec 0 (rfind_at c s (i + 1))); lia.
Qed.

(** The first occurrence is at index 0 only in a text that starts with it. *)
Lemma find_at_start s c : find_at c s 0 = 0 -> startswith s c = true.
Proof.
  destruct s as [|a s]; cbn [find_at startswith]; [lia|].
  destruct (Ascii.eqb a c); [done|].
  destruct (count s c) as [|n] eqn:Hc.
  - rewrite find_at_absent by done. lia.
  - pose proof (find_at_bounds s c (0 + 1) ltac:(lia)). lia.
Qed.

Lemma count_drop_chars s c (n : nat) : count s c = O -> count (drop_chars n s) c = O.
Proof.
  revert n. induction s as [|a s IH]; intros [|n] Hc; try done.
  cbn [count] in Hc. cbn [drop_chars]. apply IH. by destruct (Ascii.eqb a c).
Qed.

Lemma find_from_absent s c i : count s c = O -> find_from s c i = -1.
Proof.
  intros Hc. unfold find_from.
  destruct (len s <? _); [done|]. apply find_at_absent. by apply count_drop_chars.
Qed.

(** ** Slices of a concatenation *)

Lemma append_assoc s t u : ((s ++ t) ++ u)%string = (s ++ (t ++ u))%string.
Proof.
  induction s as [|a s IH]; [done|]. rewrite !append_String. by rewrite IH.
Qed.

Lemma drop_chars_app s t : drop_chars (String.length s) (s ++ t)%string = t.
Proof. induction s as [|a s IH]; [done|]. rewrite append_String. exact IH. Qed.

Lemma take_chars_app s t : take_chars (String.length s) (s ++ t)%string = s.
Proof.
  induction s as [|a s IH]; [by destruct t|].
  rewrite append_String. cbn [String.length take_chars]. by rewrite IH.
Qed.

Lemma take_chars_all s : take_chars (String.length s) s = s.
Proof. induction s as [|a s IH]; [done|]. cbn [String.length take_chars]. by rewrite IH. Qed.

(** [(s + t)[:len(s)]] *)
Lemma slice_prefix s t : slice (s ++ t)%string None (Some (len s)) = s.
Proof.
  unfold slice, clamp. rewrite len_app.
  pose proof (len_nonneg s). pose proof (len_nonneg t).
  destruct (Z.ltb_spec (len s) 0); [lia|].
  rewrite Z.min_l by lia. rewrite Z.sub_0_r. unfold len. rewrite Nat2Z.id.
  cbn [Z.to_nat drop_chars]. apply take_chars_app.
Qed.

(** [(s + t)[len(s):]] *)
Lemma slice_suffix s t : slice (s ++ t)%string (Some (len s)) None = t.
Proof.
  unfold slice, clamp. rewrite len_app.
  pose proof (len_nonneg s). pose proof (len_nonneg t).
  destruct (Z.ltb_spec (len s) 0); [lia|].
  rewrite Z.min_l by lia.
  replace (len s + len t - len s) with (len t) by lia.
  unfold len. rewrite !Nat2Z.id. rewrite drop_chars_app. apply take_chars_all.
Qed.

(** [(a + s + b)[len(a):len(a) + len(s)]] *)
Lemma slice_middle a s b :
  slice (a ++ s ++ b)%string (Some (len a)) (Some (len a + len s)) = s.
Proof.
  unfold slice, clamp. rewrite !len_app.
  pose proof (len_nonneg a). pose proof (len_nonneg s). pose proof (len_nonneg b).
  destruct (Z.ltb_spec (len a) 0); [lia|].
  destruct (Z.ltb_spec (len a + len s) 0); [lia|].
  rewrite !Z.min_l by lia.
  replace (len a + len s - len a) with (len s) by lia.
  unfold len. rewrite !Nat2Z.id. rewrite drop_chars_app. apply take_chars_app.
Qed.

End StringSearch.

Section AddressFromStr.
Import Py Core AddressText.

Variable int : string -> option Z.

Implicit Types (address host rest : string) (port : Z).

(** The form [host:port]. *)
Lemma host_and_port_parsed host (port_text : string) port :
  host <> "" ->
  count host ":" = O ->
  count port_text ":" = O ->
  address_from_str int (host ++ ":" ++ port_text)%string port
  = (p ← int port_text; Some (mkAddress host p)).
Proof.
  intros Hhost Hh Hp.
  change (host ++ ":" ++ port_text)%string with (host ++ String ":" port_text)%string.
  unfold address_from_str, find, rfind.
  rewrite find_at_app_r by done. rewrite rfind_at_last by (done || lia).
  rewrite !Z.add_0_l.
  assert (0 < len host).
  { destruct host as [|a h]; [done|]. rewrite len_String. pose proof (len_nonneg h). lia. }
  rewrite Z.ltb_irrefl, andb_false_r.
  rewrite (proj2 (Z.ltb_lt 0 (len host))) by done. rewrite Z.eqb_refl.
  cbn [andb]. rewrite slice_prefix.
  change (host ++ String ":" port_text)%string with (host ++ (":" ++ port_text))%string.
  rewrite <- append_assoc.
  replace (len host + 1) with (len (host ++ ":")) by (rewrite len_app; reflexivity).
  by rewrite slice_suffix.
Qed.

(** X1.  An address text of the form [host:port], the host not empty and free
    of colons: the text before the colon is the host, whatever it is, and
    the text after it is handed to [int]; when [int] rejects it, its
    [ValueError] is what the call gives. *)
Theorem address_from_str_host_and_port host (port_text : string) port :
  host <> "" ->
  count host ":" = O ->
  count port_text ":" = O ->
  address_from_str int (host ++ ":" ++ port_text)%string port
  = (p ← int port_text; Some (mkAddress host p)).
Proof. exact (host_and_port_parsed host port_text port). Qed.

(** No colon, or one leading colon only. *)
Lemma without_port_parsed rest port :
  count rest ":" = O ->
  address_from_str int rest port = Some (mkAddress rest port)
  /\ address_from_str int (":" ++ rest)%string port = Some (mkAddress (":" ++ rest)%string port).
Proof.
  intros Hc. split.
  - unfold address_from_str, find, rfind.
    by rewrite find_at_absent, rfind_at_absent.
  - change (":" ++ rest)%string with (String ":" rest).
    unfold address_from_str, find, rfind. cbn [find_at rfind_at].
    rewrite Ascii.eqb_refl. by rewrite rfind_at_absent.
Qed.

(** X2.  A text without a colon, or whose only colon is its first character,
    is taken whole as the host; the port is the default handed in. *)
Theorem address_from_str_without_port rest port :
  count rest ":" = O ->
  address_from_str int rest port = Some (mkAddress rest port)
  /\ address_from_str int (":" ++ rest)%string port = Some (mkAddress (":" ++ rest)%string port).
Proof. exact (without_port_parsed rest port). Qed.

(** The form [[host]:port]. *)
Lemma bracketed_with_port_parsed host (port_text : string) port :
  (1 <= count host ":")%nat ->
  count host "]" = O ->
  count port_text ":" = O ->
  address_from_str int ("[" ++ host ++ "]:" ++ port_text)%string port
  = (p ← int port_text; Some (mkAddress host p)).
Proof.
  intros Hcolon Hbracket Hp.
  assert (Hlast : rfind ("[" ++ host ++ "]:" ++ port_text)%string ":" = len host + 2).
  { change ("[" ++ host ++ "]:" ++ port_text)%string
      with ("[" ++ (host ++ "]" ++ String ":" port_text))%string.
    rewrite <- (append_assoc host), <- (append_assoc "[").
    unfold rfind. rewrite rfind_at_last by (done || lia).
    rewrite !len_app. change (len "[") with 1. change (len "]") with 1. lia. }
  assert (Hfirst : 1 <= find ("[" ++ host ++ "]:" ++ port_text)%string ":" < 1 + len host).
  { change ("[" ++ host ++ "]:" ++ port_text)%string
      with (String "[" (host ++ "]:" ++ port_text))%string.
    unfold find. cbn [find_at]. change (Ascii.eqb "[" ":") with false. cbv iota.
    rewrite find_at_app_l by done. by apply find_at_bounds. }
  assert (Hend : find_from ("[" ++ host ++ "]:" ++ port_text)%string "]" 0 = 1 + len host).
  { unfold find_from. pose proof (len_nonneg ("[" ++ host ++ "]:" ++ port_text)%string).
    rewrite Z.ltb_irrefl.
    destruct (Z.ltb_spec (len ("[" ++ host ++ "]:" ++ port_text)%string) 0); [lia|].
    change (Z.to_nat 0) with O. cbn [drop_chars].
    change ("[" ++ host ++ "]:" ++ port_text)%string
      with (String "[" (host ++ String "]" (String ":" port_text)))%string.
    cbn [find_at]. change (Ascii.eqb "[" "]") with false. cbv iota.
    by rewrite find_at_app_r. }
  unfold address_from_str. rewrite Hlast.
  change (find ("[" ++ host ++ "]:" ++ port_text)%string "[") with 0.
  rewrite Hend.
  pose proof (len_nonneg host).
  rewrite (proj2 (Z.ltb_lt (-1) _)) by lia.
  rewrite (proj2 (Z.ltb_lt _ (len host + 2))) by lia.
  rewrite Z.eqb_refl, (proj2 (Z.ltb_lt 0 (1 + len host))) by lia.
  cbn [andb].
  rewrite (proj2 (Z.eqb_eq _ _)) by lia.
  change (0 + 1) with (len "[").
  replace (1 + len host) with (len "[" + len host) by reflexivity.
  rewrite slice_middle.
  replace (len host + 2 + 1) with (len ("[" ++ host ++ "]:")).
  2:{ rewrite !len_app. change (len "[") with 1. change (len "]:") with 2. lia. }
  rewrite <- (append_assoc host), <- (append_assoc "[").
  by rewrite slice_suffix.
Qed.

(** X3.  A bracketed IPv6 text followed by a port, [[host]:port]: the host is
    the text between the brackets and the text after the last colon is
    handed to [int]. *)
Theorem address_from_str_bracketed_with_port host (port_text : string) port :
  (1 <= count host ":")%nat ->
  count host "]" = O ->
  count port_text ":" = O ->
  address_from_str int ("[" ++ host ++ "]:" ++ port_text)%string port
  = (p ← int port_text; Some (mkAddress host p)).
Proof. exact (bracketed_with_port_parsed host port_text port). Qed.

(** The form [[host]], with or without text behind it. *)
Lemma bracketed_without_port_parsed host rest port :
  (2 <= count host ":")%nat ->
  count host "]" = O ->
  count rest ":" = O ->
  address_from_str int ("[" ++ host ++ "]" ++ rest)%string port = Some (mkAddress host port).
Proof.
  intros Hcolon Hbracket Hrest.
  pose proof (len_nonneg host).
  assert (Hfirst : find ("[" ++ host ++ "]" ++ rest)%string ":" = find_at ":" host 1).
  { change ("[" ++ host ++ "]" ++ rest)%string with (String "[" (host ++ "]" ++ rest))%string.
    unfold find. cbn [find_at]. change (Ascii.eqb "[" ":") with false. cbv iota.
    by rewrite find_at_app_l by lia. }
  assert (Hlast : rfind ("[" ++ host ++ "]" ++ rest)%string ":" = rfind_at ":" host 1).
  { change ("[" ++ host ++ "]" ++ rest)%string with (String "[" (host ++ String "]" rest))%string.
    unfold rfind. cbn [rfind_at]. change (0 + 1) with 1.
    rewrite rfind_at_app_l.
    2:{ cbn [count]. by change (Ascii.eqb "]" ":") with false. }
    pose proof (rfind_at_bounds host ":" 1 ltac:(lia) ltac:(lia)).
    destruct (Z.leb_spec 0 (rfind_at ":" host 1)); [done | lia]. }
  assert (Hend : find_from ("[" ++ host ++ "]" ++ rest)%string "]" 0 = 1 + len host).
  { unfold find_from. pose proof (len_nonneg ("[" ++ host ++ "]" ++ rest)%string).
    rewrite Z.ltb_irrefl.
    destruct (Z.ltb_spec (len ("[" ++ host ++ "]" ++ rest)%string) 0); [lia|].
    change (Z.to_nat 0) with O. cbn [drop_chars].
    change ("[" ++ host ++ "]" ++ rest)%string with (String "[" (host ++ String "]" rest))%string.
    cbn [find_at]. change (Ascii.eqb "[" "]") with false. cbv iota.
    by rewrite find_at_app_r. }
  pose proof (find_at_bounds host ":" 1 ltac:(lia)).
  pose proof (rfind_at_bounds host ":" 1 ltac:(lia) ltac:(lia)).
  pose proof (find_at_lt_rfind_at host ":" 1 ltac:(lia) Hcolon).
  unfold address_from_str. rewrite Hfirst, Hlast.
  change (find ("[" ++ host ++ "]" ++ rest)%string "[") with 0.
  rewrite Hend.
  rewrite (proj2 (Z.ltb_lt (-1) _)) by lia.
  rewrite (proj2 (Z.ltb_lt (find_at ":" host 1) _)) by lia.
  rewrite Z.eqb_refl, (proj2 (Z.ltb_lt 0 (1 + len host))) by lia.
  cbn [andb].
  rewrite (proj2 (Z.eqb_neq _ _)) by lia.
  change (0 + 1) with (len "[").
  replace (1 + len host) with (len "[" + len host) by reflexivity.
  by rewrite slice_middle.
Qed.

(** X4.  A bracketed IPv6 text without a port: the host is the text between
    the brackets, the port is the default, and whatever follows the
    closing bracket is dropped. *)
Theorem address_from_str_bracketed_without_port host rest port :
  (2 <= count host ":")%nat ->
  count host "]" = O ->
  count rest ":" = O ->
  address_from_str int ("[" ++ host ++ "]" ++ rest)%string port = Some (mkAddress host port).
Proof. exact (bracketed_without_port_parsed host rest port). Qed.

(** Two colons or more and no pair of brackets around the host. *)
Lemma unbracketed_parsed address port :
  (2 <= count address ":")%nat ->
  startswith address "[" = false \/ count address "]" = O ->
  address_from_str int address port = Some (mkAddress address port).
Proof.
  intros Hcolon Hbracket.
  pose proof (find_at_bounds address ":" 0 ltac:(lia)).
  pose proof (find_at_lt_rfind_at address ":" 0 ltac:(lia) Hcolon).
  unfold address_from_str. fold (find address ":") in *. fold (rfind address ":") in *.
  rewrite (proj2 (Z.ltb_lt (-1) _)) by lia.
  rewrite (proj2 (Z.ltb_lt (find address ":") _)) by lia.
  cbn [andb].
  destruct (Z.eqb_spec (find address "[") 0) as [Hstart|]; [|done].
  destruct Hbracket as [Hopen|Hclose].
  - apply find_at_start in Hstart. congruence.
  - rewrite find_from_absent by done. rewrite Hstart. done.
Qed.

(** X5.  A text with two colons or more that does not open with a bracket, or
    has no closing bracket, is taken whole as the host: no port is ever
    read from an unbracketed IPv6 text, whatever follows its last colon. *)
Theorem address_from_str_unbracketed address port :
  (2 <= count address ":")%nat ->
  startswith address "[" = false \/ count address "]" = O ->
  address_from_str int address port = Some (mkAddress address port).
Proof. exact (unbracketed_parsed address port). Qed.

(** The primary and the secondary addresses on the three default ports of
    a host. *)
Local Abbreviation default_ports host :=
  ([mkAddress host 5701], [mkAddress host 5702; mkAddress host 5703]).

(** C10, as amended.  What [get_possible_addresses] gives for an address
    text, by the form of the text.

    A text that carries an explicit port other than [-1], [host:port] or
    [[host]:port] with a port text that [int] reads as a number other than
    [-1]: exactly one primary address, with that host and that port, and no
    secondary address.

    A text that carries no port, which is a text without a colon, an IPv6
    host in brackets or an IPv6 text without brackets: the primary address
    on port 5701 and the secondary addresses on ports 5702 and 5703, all
    three on the parsed host, the whole text or the text between the
    brackets.

    The port text [-1] stands for no port and gives the three default
    ports on the host, and a text whose only colon is its first character
    is taken whole as the host. *)
Theorem get_possible_addresses_by_address_text :
  (forall host (port_text : string) p,
     host <> "" -> count host ":" = O -> count port_text ":" = O ->
     int port_text = Some p -> p <> -1 ->
     get_possible_addresses int (host ++ ":" ++ port_text)%string
     = Some ([mkAddress host p], []))
  /\ (forall host (port_text : string) p,
        (1 <= count host ":")%nat -> count host "]" = O -> count port_text ":" = O ->
        int port_text = Some p -> p <> -1 ->
        get_possible_addresses int ("[" ++ host ++ "]:" ++ port_text)%string
        = Some ([mkAddress host p], []))
  /\ (forall host,
        count host ":" = O ->
        get_possible_addresses int host = Some (default_ports host))
  /\ (forall host rest,
        (2 <= count host ":")%nat -> count host "]" = O -> count rest ":" = O ->
        get_possible_addresses int ("[" ++ host ++ "]" ++ rest)%string
        = Some (default_ports host))
  /\ (forall address,
        (2 <= count address ":")%nat ->
        startswith address "[" = false \/ count address "]" = O ->
        get_possible_addresses int address = Some (default_ports address))
  /\ (forall host (port_text : string),
        host <> "" -> count host ":" = O -> count port_text ":" = O ->
        int port_text = Some (-1) ->
        get_possible_addresses int (host ++ ":" ++ port_text)%string
        = Some (default_ports host))
  /\ (forall host (port_text : string),
        (1 <= count host ":")%nat -> count host "]" = O -> count port_text ":" = O ->
        int port_text = Some (-1) ->
        get_possible_addresses int ("[" ++ host ++ "]:" ++ port_text)%string
        = Some (default_ports host))
  /\ (forall rest,
        count rest ":" = O ->
        get_possible_addresses int (":" ++ rest)%string
        = Some (default_ports (":" ++ rest)%string)).
Proof.
  assert (Hone : forall address host p,
            address_from_str int address (-1) = Some (mkAddress host p) -> p <> -1 ->
            get_possible_addresses int address = Some ([mkAddress host p], [])).
  { intros address host p Hparse Hp.
    by apply (get_possible_addresses_by_parsed_port int address _ Hparse). }
  assert (Hthree : forall address host,
            address_from_str int address (-1) = Some (mkAddress host (-1)) ->
            get_possible_addresses int address = Some (default_ports host)).
  { intros address host Hparse.
    by apply (get_possible_addresses_by_parsed_port int address _ Hparse). }
  repeat split.
  - intros host port_text p Hhost Hh Hp Hint Hport. apply Hone; [|done].
    by rewrite host_and_port_parsed, Hint.
  - intros host port_text p Hh Hb Hp Hint Hport. apply Hone; [|done].
    by rewrite bracketed_with_port_parsed, Hint.
  - intros host Hh. apply Hthree. by apply without_port_parsed.
  - intros host rest Hh Hb Hr. apply Hthree. by apply bracketed_without_port_parsed.
  - intros address Hc Hb. apply Hthree. by apply unbracketed_parsed.
  - intros host port_text Hhost Hh Hp Hint. apply Hthree.
    by rewrite host_and_port_parsed, Hint.
  - intros host port_text Hh Hb Hp Hint. apply Hthree.
    by rewrite bracketed_with_port_parsed, Hint.
  - intros rest Hr. apply Hthree. by apply without_port_parsed.
Qed.

End AddressFromStr.

(** ["localhost:5701"], and ["localhost:http"], whose port text [int]
    rejects. *)
Lemma address_from_str_host_and_port_witness :
  Core.address_from_str Py.int "localhost:5701" (-1) = Some (Core.mkAddress "localhost" 5701)
  /\ Core.address_from_str Py.int "localhost:http" (-1) = None.
Proof.
  split.
  - apply (address_from_str_host_and_port Py.int "localhost" "5701" (-1)); [done | done | done].
  - apply (address_from_str_host_and_port Py.int "localhost" "http" (-1)); [done | done | done].
Defined.

(** ["127.0.0.1"] and [":5701"]. *)
Lemma address_from_str_without_port_witness :
  Core.address_from_str Py.int "127.0.0.1" (-1) = Some (Core.mkAddress "127.0.0.1" (-1))
  /\ Core.address_from_str Py.int ":5701" (-1) = Some (Core.mkAddress ":5701" (-1)).
Proof.
  split.
  - apply (address_from_str_without_port Py.int "127.0.0.1" (-1)). reflexivity.
  - apply (address_from_str_without_port Py.int "5701" (-1)). reflexivity.
Defined.

(** ["[fe80::1]:5701"]. *)
Lemma address_from_str_bracketed_with_port_witness :
  Core.address_from_str Py.int "[fe80::1]:5701" (-1) = Some (Core.mkAddress "fe80::1" 5701).
Proof.
  apply (address_from_str_bracketed_with_port Py.int "fe80::1" "5701" (-1));
    [simpl; lia | reflexivity | reflexivity].
Defined.

(** ["[fe80::1]"] and ["[fe80::1]x"]. *)
Lemma address_from_str_bracketed_without_port_witness :
  Core.address_from_str Py.int "[fe80::1]" 5701 = Some (Core.mkAddress "fe80::1" 5701)
  /\ Core.address_from_str Py.int "[fe80::1]x" 5701 = Some (Core.mkAddress "fe80::1" 5701).
Proof.
  split.
  - apply (address_from_str_bracketed_without_port Py.int "fe80::1" "" 5701);
      [simpl; lia | reflexivity | reflexivity].
  - apply (address_from_str_bracketed_without_port Py.int "fe80::1" "x" 5701);
      [simpl; lia | reflexivity | reflexivity].
Defined.

(** The IPv6 address of the unit test, and one that ends in a port-like
    group. *)
Lemma address_from_str_unbracketed_witness :
  Core.address_from_str Py.int "2001:0db8:85a3:0000:0000:8a2e:0370:7334" (-1)
  = Some (Core.mkAddress "2001:0db8:85a3:0000:0000:8a2e:0370:7334" (-1))
  /\ Core.address_from_str Py.int "fe80::1:5701" (-1) = Some (Core.mkAddress "fe80::1:5701" (-1)).
Proof.
  split.
  - apply (address_from_str_unbracketed Py.int "2001:0db8:85a3:0000:0000:8a2e:0370:7334" (-1));
      [simpl; lia | by left].
  - apply (address_from_str_unbracketed Py.int "fe80::1:5701" (-1)); [simpl; lia | by left].
Defined.

(** ["localhost:8080"] and ["[fe80::1]:8080"], which carry a port;
    ["127.0.0.1"], ["[fe80::1]"] and ["fe80::1"], which carry none;
    ["example.org:-1"], ["[fe80::1]:-1"] and [":5701"]. *)
Lemma get_possible_addresses_by_address_text_witness :
  Core.get_possible_addresses Py.int "localhost:8080"
  = Some ([Core.mkAddress "localhost" 8080], [])
  /\ Core.get_possible_addresses Py.int "[fe80::1]:8080"
     = Some ([Core.mkAddress "fe80::1" 8080], [])
  /\ Core.get_possible_addresses Py.int "127.0.0.1"
     = Some ([Core.mkAddress "127.0.0.1" 5701],
             [Core.mkAddress "127.0.0.1" 5702; Core.mkAddress "127.0.0.1" 5703])
  /\ Core.get_possible_addresses Py.int "[fe80::1]"
     = Some ([Core.mkAddress "fe80::1" 5701],
             [Core.mkAddress "fe80::1" 5702; Core.mkAddress "fe80::1" 5703])
  /\ Core.get_possible_addresses Py.int "fe80::1"
     = Some ([Core.mkAddress "fe80::1" 5701],
             [Core.mkAddress "fe80::1" 5702; Core.mkAddress "fe80::1" 5703])
  /\ Core.get_possible_addresses Py.int "example.org:-1"
     = Some ([Core.mkAddress "example.org" 5701],
             [Core.mkAddress "example.org" 5702; Core.mkAddress "example.org" 5703])
  /\ Core.get_possible_addresses Py.int "[fe80::1]:-1"
     = Some ([Core.mkAddress "fe80::1" 5701],
             [Core.mkAddress "fe80::1" 5702; Core.mkAddress "fe80::1" 5703])
  /\ Core.get_possible_addresses Py.int ":5701"
     = Some ([Core.mkAddress ":5701" 5701],
             [Core.mkAddress ":5701" 5702; Core.mkAddress ":5701" 5703]).
Proof.
  pose proof (get_possible_addresses_by_address_text Py.int)
    as (Hport & Hbracketed_port & Hplain & Hbracketed & Hunbracketed
        & Hminus_one & Hbracketed_minus_one & Hleading).
  split; [apply (Hport "localhost" "8080" 8080); [done | done | done | reflexivity | lia]|].
  split; [apply (Hbracketed_port "fe80::1" "8080" 8080);
          [simpl; lia | reflexivity | reflexivity | reflexivity | lia]|].
  split; [apply (Hplain "127.0.0.1"); reflexivity|].
  split; [apply (Hbracketed "fe80::1" ""); [simpl; lia | reflexivity | reflexivity]|].
  split; [apply (Hunbracketed "fe80::1"); [simpl; lia | by left]|].
  split; [apply (Hminus_one "example.org" "-1"); [done | done | done | reflexivity]|].
  split; [apply (Hbracketed_minus_one "fe80::1" "-1");
          [simpl; lia | reflexivity | reflexivity | reflexivity]|].
  apply (Hleading "5701"); reflexivity.
Defined.

(* ===================================================================== *)
(** * What the calls of a map send, and where *)
(* ===================================================================== *)

Section MapCallProperties.
Import Py Proxy MapProxy MapCalls.

Context {Data : Type} `{Countable Data}.
Context {Obj Message : Type}.

Abbreviation Client := (Proxy.Client Data Obj Message).
Abbreviation Proxy := (Proxy.Proxy Data Obj Message).

Implicit Types (self : Proxy) (s : Client) (k : Data).

Lemma invocations_app (l1 l2 : list (Effect Data Obj Message)) :
  invocations (l1 ++ l2) = invocations l1 ++ invocations l2.
Proof. apply omap_app. Qed.

Ltac unfold_calls :=
  unfold run_keyed, Map_get, Map_put, Map_set, Map_remove, Map_delete, Map_replace,
    Map_replace_if_same, Map_remove_if_same, Map_evict, Map_contains_key,
    Map_contains_value, Map_lock, Map_try_lock, Map_unlock, Map_force_unlock,
    Map_try_put, Map_try_remove, Map_put_if_absent, Map_put_transient, Map_set_ttl,
    Map_execute_on_key, Map_get_entry_view, Map_is_locked,
    _put_internal, _put_if_absent_internal, _put_transient_internal,
    _set_internal, _set_ttl_internal, _remove_internal, _get_internal,
    _contains_key_internal, _remove_if_same_internal_, _delete_internal,
    _replace_internal, _replace_if_same_internal, _evict_internal, _try_put_internal,
    _try_remove_internal, _execute_on_key_internal.

(** X6.  Whatever the class of the map, a call with proper arguments issues
    at most one invocation, and that invocation goes to the partition that
    owns the serialized key ([contains_value], which has no key, goes to
    any member); [lock] and [try_lock] wait with the timeout [MAX_SIZE],
    every other call with the one of the invocation service.  On a map
    without a near cache the invocation is always issued. *)
Theorem keyed_calls_go_to_the_owner_of_the_key self (c : KeyedCall Obj) s :
  passes_guards c = true ->
  exists future s' new,
    run_keyed self c s = (Ok future, s')
    /\ trace s' = trace s ++ new
    /\ (length (invocations new) <= 1)%nat
    /\ (forall inv,
          inv ∈ invocations new ->
          partition_id inv = owner_partition self c
          /\ timeout inv = if waits_for_lock c then MAX_SIZE else default_timeout)
    /\ (cls self = Map -> length (invocations new) = 1%nat /\ near_cache s' = near_cache s).
Proof.
  intros Hproper.
  assert (Hsent : forall future s' new inv,
    run_keyed self c s = (Ok future, s') ->
    trace s' = trace s ++ new ->
    invocations new = [inv] ->
    partition_id inv = owner_partition self c ->
    timeout inv = (if waits_for_lock c then MAX_SIZE else default_timeout) ->
    (cls self = Map -> near_cache s' = near_cache s) ->
    exists future s' new,
      run_keyed self c s = (Ok future, s')
      /\ trace s' = trace s ++ new
      /\ (length (invocations new) <= 1)%nat
      /\ (forall inv,
            inv ∈ invocations new ->
            partition_id inv = owner_partition self c
            /\ timeout inv = if waits_for_lock c then MAX_SIZE else default_timeout)
      /\ (cls self = Map -> length (invocations new) = 1%nat /\ near_cache s' = near_cache s)).
  { intros future s' new inv Hrun Htrace Hinv Hpartition Htimeout Hcache.
    exists future, s', new. rewrite Hinv.
    repeat split; try done; try (simpl; lia); try by apply Hcache.
    all: match goal with Hin : _ ∈ [_] |- _ => apply list_elem_of_singleton in Hin as -> end;
      done. }
  destruct (cls self) eqn:Hcls.
  - (* Map *)
    destruct c; cbn in Hproper;
      repeat match goal with
             | v : option Obj |- _ => destruct v
             end;
      try discriminate;
      (eapply Hsent;
       [ unfold_calls; rewrite ?Hcls; reflexivity
       | simpl; rewrite <- ?app_assoc; reflexivity
       | reflexivity | reflexivity | reflexivity | reflexivity ]).
  - (* MapFeatNearCache *)
    destruct c; cbn in Hproper;
      repeat match goal with
             | v : option Obj |- _ => destruct v
             end;
      try discriminate;
      try (eapply Hsent;
           [ unfold_calls; rewrite ?Hcls; reflexivity
           | simpl; rewrite <- ?app_assoc; reflexivity
           | reflexivity | reflexivity | reflexivity | intros; congruence ]).
    + (* get *)
      destruct (near_cache s !! _to_data self o) as [value|] eqn:Hlookup.
      * exists (ImmediateFuture value), s, [].
        split; [|rewrite app_nil_r; split; [done|]; split; [simpl; lia|];
                 split; [intros ? Hin; by apply elem_of_nil in Hin | intros; congruence]].

        unfold_calls. rewrite Hcls.
        unfold MapFeatNearCache__get_internal, except_KeyError, NearCache___getitem__.
        simpl. unfold mbind, M_bind, bind. simpl. by rewrite Hlookup.
      * eapply Hsent.
        -- unfold_calls. rewrite Hcls.
           unfold MapFeatNearCache__get_internal, except_KeyError, NearCache___getitem__.
           simpl. unfold mbind, M_bind, bind. simpl. rewrite Hlookup. reflexivity.
        -- simpl. rewrite <- ?app_assoc. reflexivity.
        -- reflexivity.
        -- reflexivity.
        -- reflexivity.
        -- intros; congruence.
    + (* contains_key *)
      destruct (near_cache s !! _to_data self o) as [value|] eqn:Hlookup.
      * exists (NotAFuture value), s, [].
        split; [|rewrite app_nil_r; split; [done|]; split; [simpl; lia|];
                 split; [intros ? Hin; by apply elem_of_nil in Hin | intros; congruence]].
        unfold_calls. rewrite Hcls.
        unfold MapFeatNearCache__contains_key_internal, except_KeyError, NearCache___getitem__.
        simpl. unfold mbind, M_bind, bind. simpl. by rewrite Hlookup.
      * eapply Hsent.
        -- unfold_calls. rewrite Hcls.
           unfold MapFeatNearCache__contains_key_internal, except_KeyError,
             NearCache___getitem__.
           simpl. unfold mbind, M_bind, bind. simpl. rewrite Hlookup. reflexivity.
        -- simpl. rewrite <- ?app_assoc. reflexivity.
        -- reflexivity.
        -- reflexivity.
        -- reflexivity.
        -- intros; congruence.
Qed.

(** ** The reference ids of the lock operations *)

Lemma run_lock_step self (c : LockCall Obj) s :
  exists inv,
    run_lock self c s
    = (Ok (InvocationFuture (correlation_id s) inv),
       mkClient (near_cache s) (reference_id s + 1) (S (correlation_id s)) (replies s)
                (trace s ++ [Encoded (request inv); Invoked (correlation_id s) inv]))
    /\ reference_id_of inv = Some (reference_id s).
Proof.
  destruct c; eexists; (split; [|shelve]);
    unfold run_lock, Map_lock, Map_try_lock, Map_unlock, Map_force_unlock;
    unfold mbind, M_bind, bind, check_not_none, get_and_increment, encode_request,
      _invoke_on_key, invoke, log; simpl;
    (apply pair_equal_spec; split; [reflexivity | by rewrite <- ?app_assoc]).
  Unshelve. all: reflexivity.
Qed.

(** X7.  [lock], [try_lock], [unlock] and [force_unlock], in any number and
    order: each call draws one reference id, so the requests carry the
    consecutive ids from the one the generator stood at, no two requests
    share an id, and none of the calls touches the near cache. *)
Theorem lock_calls_draw_consecutive_reference_ids self (calls : list (LockCall Obj)) s :
  exists futures s' new,
    run_locks self calls s = (Ok futures, s')
    /\ length futures = length calls
    /\ trace s' = trace s ++ new
    /\ reference_id_of <$> invocations new
       = (fun i : nat => Some (reference_id s + Z.of_nat i)) <$> seq 0 (length calls)
    /\ reference_id s' = reference_id s + Z.of_nat (length calls)
    /\ near_cache s' = near_cache s.
Proof.
  revert s. induction calls as [|c calls IH]; intros s.
  - exists [], s, []. simpl. rewrite app_nil_r, Z.add_0_r. done.
  - destruct (run_lock_step self c s) as (inv & Hrun & Hid).
    destruct (IH (run_lock self c s).2)
      as (futures & s' & new & Hrest & Hlen & Htrace & Hids & Hcounter & Hcache).
    rewrite Hrun in Hrest, Htrace, Hids, Hcounter, Hcache. simpl in *.
    exists (InvocationFuture (correlation_id s) inv :: futures), s',
      ([Encoded (request inv); Invoked (correlation_id s) inv] ++ new).
    split; [|split; [|split; [|split; [|split]]]].
    + unfold mbind, M_bind, bind in *. rewrite Hrun, Hrest. reflexivity.
    + simpl. by rewrite Hlen.
    + by rewrite Htrace, <- app_assoc.
    + rewrite invocations_app, fmap_app, Hids. simpl. rewrite Hid, Z.add_0_r.
      f_equal. rewrite <- fmap_S_seq, <- list_fmap_compose.
      apply list_fmap_ext. intros _ i _. simpl. f_equal. lia.
    + rewrite Hcounter. lia.
    + exact Hcache.
Qed.

(** ** [contains_key] through the near cache *)

(** X8.  [contains_key] on a near-cache map.  When the key is cached, what
    comes back is the cached value itself and not a future of a boolean,
    and the client is left untouched.  Otherwise the [map_contains_key]
    request goes to the partition of the key; neither the call nor the
    reply stores anything in the near cache. *)
Theorem contains_key_through_near_cache self (key : Obj) s :
  cls self = MapFeatNearCache ->
  let k := _to_data self key in
  (forall value,
     near_cache s !! k = Some value ->
     Map_contains_key self (Some key) s = (Ok (NotAFuture value), s))
  /\ (near_cache s !! k = None ->
      exists inv,
        Map_contains_key self (Some key) s
        = (Ok (InvocationFuture (correlation_id s) inv), after_invocation s inv)
        /\ request inv
           = mkRequest map_contains_key_codec [AStr (name self); AData k; ALong (thread_id self)]
        /\ partition_id inv = Some (get_partition_id self k)
        /\ forall s2, (result (InvocationFuture (correlation_id s) inv) s2).2 = s2).
Proof.
  intros Hcls k. split.
  - intros value Hhit.
    unfold Map_contains_key, _contains_key_internal. rewrite Hcls.
    unfold MapFeatNearCache__contains_key_internal, except_KeyError, NearCache___getitem__.
    simpl. unfold mbind, M_bind, bind. simpl. fold k. by rewrite Hhit.
  - intros Hmiss. eexists. split; [|split; [|split]].
    + unfold Map_contains_key, _contains_key_internal. rewrite Hcls.
      unfold MapFeatNearCache__contains_key_internal, except_KeyError, NearCache___getitem__.
      simpl. unfold mbind, M_bind, bind. simpl. fold k. rewrite Hmiss.
      unfold after_invocation, Map__contains_key_internal, encode_request, _invoke_on_key,
        invoke, log. simpl.
      apply pair_equal_spec; split; [reflexivity | simpl; by rewrite <- ?app_assoc].
    + reflexivity.
    + reflexivity.
    + intros s2. simpl. by destruct (replies s2 (correlation_id s)).
Qed.

(** ** [load_all] with an empty sequence of keys *)

(** X9.  [load_all] called with an empty sequence of keys, on either class of
    map: the sequence counts as no keys, so the request is the map-wide
    [map_load_all] with the flag as given, sent to any member; but the
    near cache, which [load_all] without keys clears when the flag is
    true, stays as it is. *)
Theorem load_all_of_no_keys_loads_the_map self (replace_existing_values : bool) s :
  exists inv,
    load_all self (Some []) replace_existing_values s
    = (Ok (InvocationFuture (correlation_id s) inv), after_invocation s inv)
    /\ request inv
       = mkRequest map_load_all_codec [AStr (name self); ABool replace_existing_values]
    /\ partition_id inv = None.
Proof.
  destruct (cls self) eqn:Hcls.
  - eexists. split; [|split].
    + unfold load_all, Map_load_all, after_invocation. rewrite Hcls.
      unfold mbind, M_bind, bind, encode_request, _invoke, invoke, log. simpl.
      apply pair_equal_spec; split; [reflexivity | simpl; by rewrite <- ?app_assoc].
    + reflexivity.
    + reflexivity.
  - eexists. split; [|split].
    + unfold load_all, MapFeatNearCache_load_all, Map_load_all, after_invocation.
      rewrite Hcls.
      unfold mbind, M_bind, bind, mret, M_ret, ret, encode_request, _invoke, invoke, log.
      simpl.
      apply pair_equal_spec; split; [reflexivity|].
      simpl. by rewrite <- ?app_assoc.
    + reflexivity.
    + reflexivity.
Qed.

(** ** A second [get] *)

(** X10.  On a near-cache map, after a [get] that missed the near cache and
    whose future was resolved with a reply of the cluster, a second [get]
    of the key is answered from the near cache with the very value the
    first one resolved to, the value [None] of an absent entry included,
    and sends nothing. *)
Theorem second_get_is_answered_from_the_near_cache self (key : Obj) s :
  cls self = MapFeatNearCache ->
  near_cache s !! _to_data self key = None ->
  exists future s1,
    Map_get self (Some key) s = (Ok future, s1)
    /\ forall s2 message,
         replies s2 (correlation_id s) = Ok message ->
         exists value s3,
           result future s2 = (Ok value, s3)
           /\ value = _to_object self (decode_data self map_get_codec message)
           /\ Map_get self (Some key) s3 = (Ok (ImmediateFuture value), s3).
Proof.
  intros Hcls Hmiss.
  destruct (get_internal_miss self _ s Hcls Hmiss)
    as (inv & continuation & Hget & _ & _ & Hhandler & Hcont).
  do 2 eexists. split; [exact Hget|].
  intros s2 message Hreply. subst continuation.
  do 2 eexists. split; [|split; [reflexivity|]].
  - cbn [result]. rewrite Hreply, Hhandler. reflexivity.
  - unfold Map_get, _get_internal. rewrite Hcls.
    unfold MapFeatNearCache__get_internal, except_KeyError, NearCache___getitem__.
    simpl. unfold mbind, M_bind, bind. simpl.
    by rewrite lookup_insert_eq.
Qed.

End MapCallProperties.

Import Py Proxy MapProxy MapCalls.

(** [put(1, 5)] on a map with a near cache. *)
Lemma keyed_calls_go_to_the_owner_of_the_key_witness :
  passes_guards (keyed_put (Some 1) (Some 5) None None) = true
  /\ exists future s' new,
       run_keyed demo_near_cache_map (keyed_put (Some 1) (Some 5) None None)
         (demo_client demo_two_entries) = (Ok future, s')
       /\ trace s' = trace (demo_client demo_two_entries) ++ new
       /\ (length (invocations new) <= 1)%nat
       /\ (forall inv,
             inv ∈ invocations new ->
             partition_id inv
             = owner_partition demo_near_cache_map (keyed_put (Some 1) (Some 5) None None)
             /\ timeout inv = default_timeout)
       /\ (cls demo_near_cache_map = Map ->
           length (invocations new) = 1%nat
           /\ near_cache s' = near_cache (demo_client demo_two_entries)).
Proof.
  split; [reflexivity|].
  apply (keyed_calls_go_to_the_owner_of_the_key demo_near_cache_map
           (keyed_put (Some 1) (Some 5) None None) (demo_client demo_two_entries)).
  reflexivity.
Defined.

(** [contains_key(1)] with [k1] cached, and with an empty near cache. *)
Lemma contains_key_through_near_cache_witness :
  cls demo_near_cache_map = MapFeatNearCache
  /\ near_cache (demo_client demo_two_entries) !! "k1" = Some (Some 10)
  /\ Map_contains_key demo_near_cache_map (Some 1) (demo_client demo_two_entries)
     = (Ok (NotAFuture (Some 10)), demo_client demo_two_entries)
  /\ near_cache (demo_client ∅) !! "k1" = None
  /\ exists inv,
       Map_contains_key demo_near_cache_map (Some 1) (demo_client ∅)
       = (Ok (InvocationFuture 0%nat inv), after_invocation (demo_client ∅) inv)
       /\ request inv = mkRequest map_contains_key_codec [AStr "demo"; AData "k1"; ALong 11].
Proof.
  assert (Hcls : cls demo_near_cache_map = MapFeatNearCache) by reflexivity.
  split; [exact Hcls|]. split; [reflexivity|]. split.
  - apply (contains_key_through_near_cache demo_near_cache_map 1
             (demo_client demo_two_entries) Hcls).
    reflexivity.
  - split; [reflexivity|].
    assert (Hmiss : near_cache (demo_client ∅) !! _to_data demo_near_cache_map 1 = None)
      by reflexivity.
    destruct (proj2 (contains_key_through_near_cache demo_near_cache_map 1 (demo_client ∅)
                       Hcls) Hmiss) as (inv & Hrun & Hreq & _).
    exists inv. split; [exact Hrun | exact Hreq].
Defined.

(** [get(1)] twice, the near cache empty at first. *)
Lemma second_get_is_answered_from_the_near_cache_witness :
  cls demo_near_cache_map = MapFeatNearCache
  /\ near_cache (demo_client ∅) !! _to_data demo_near_cache_map 1 = None
  /\ exists future s1,
       Map_get demo_near_cache_map (Some 1) (demo_client ∅) = (Ok future, s1)
       /\ forall s2 message,
            replies s2 (correlation_id (demo_client ∅)) = Ok message ->
            exists value s3,
              result future s2 = (Ok value, s3)
              /\ value
                 = _to_object demo_near_cache_map
                     (decode_data demo_near_cache_map map_get_codec message)
              /\ Map_get demo_near_cache_map (Some 1) s3 = (Ok (ImmediateFuture value), s3).
Proof.
  split; [reflexivity|]. split; [reflexivity|].
  apply (second_get_is_answered_from_the_near_cache demo_near_cache_map 1 (demo_client ∅));
    reflexivity.
Defined.

(* ===================================================================== *)
(** * Invalidation events only remove *)
(* ===================================================================== *)

Section InvalidationEvents.
Import Py Proxy MapProxy.

Context {Data : Type} `{Countable Data}.
Context {Obj Message : Type}.

Abbreviation Client := (Proxy.Client Data Obj Message).
Abbreviation Proxy := (Proxy.Proxy Data Obj Message).
Abbreviation InvalidationEvent := (MapProxy.InvalidationEvent Data).

Implicit Types (self : Proxy) (s : Client) (k : Data).

Lemma handle_all_lookup self (events : list InvalidationEvent) s k :
  (handle_all self events s).1 = Ok tt
  /\ near_cache (handle_all self events s).2 !! k
     = if has_null_key events then None
       else if bool_decide (k ∈ named_keys events) then None else near_cache s !! k.
Proof.
  unfold handle_all. revert s. induction events as [|event events IH]; intros s.
  - split; [done|]. reflexivity.
  - cbn [for_each]. rewrite run_bind.
    destruct event as [[key|] ? ? ?|keys ? ? ?].
    + cbn [handle _handle_invalidation _invalidate_cache NearCache__invalidate].
      destruct (IH (log (NearCacheInvalidated key)
                        (set_near_cache (delete key (near_cache s)) s))) as [Hok Hlookup].
      split; [exact Hok|]. rewrite Hlookup. cbn [has_null_key existsb orb].
      fold (has_null_key events). destruct (has_null_key events); [done|].
      change (named_keys (SingleInvalidation (Some key) source_uuid partition_uuid sequence
                          :: events))
        with (key :: named_keys events).
      rewrite (bool_decide_ext (k ∈ key :: named_keys events)
                 (k = key \/ k ∈ named_keys events)) by apply elem_of_cons.
      simpl. destruct (decide (k = key)) as [->|Hne].
      * rewrite lookup_delete_eq. rewrite (bool_decide_eq_true_2 (_ \/ _)) by by left.
        by case_bool_decide.
      * rewrite lookup_delete_ne by done.
        apply (f_equal (fun b : bool => if b then None else near_cache s !! k)).
        apply bool_decide_ext. tauto.
    + cbn [handle _handle_invalidation NearCache__clear NearCache_clear].
      destruct (IH (log NearCacheCleared (set_near_cache ∅ s))) as [Hok Hlookup].
      split; [exact Hok|]. rewrite Hlookup. simpl. rewrite lookup_empty.
      by repeat case_match.
    + cbn [handle]. unfold _handle_batch_invalidation, _invalidate_cache.
      rewrite invalidate_batch_run.
      match goal with |- context [for_each events _ ?s1] => destruct (IH s1) as [Hok Hlookup] end.
      split; [exact Hok|]. rewrite Hlookup. cbn [has_null_key existsb orb].
      fold (has_null_key events). destruct (has_null_key events); [done|].
      change (named_keys (BatchInvalidation keys source_uuids partition_uuids sequences
                          :: events))
        with (keys ++ named_keys events).
      cbn [near_cache]. rewrite lookup_foldl_delete.
      rewrite (bool_decide_ext (k ∈ keys ++ named_keys events)
                 (k ∈ keys \/ k ∈ named_keys events)) by apply elem_of_app.
      destruct (decide (k ∈ keys)) as [Hin|Hout].
      * rewrite (bool_decide_eq_true_2 (_ \/ _)) by by left.
        rewrite (bool_decide_eq_true_2 (k ∈ keys)) by done. by case_bool_decide.
      * rewrite (bool_decide_eq_false_2 (k ∈ keys)) by done.
        apply (f_equal (fun b : bool => if b then None else near_cache s !! k)).
        apply bool_decide_ext. tauto.
Qed.

Lemma handle_all_ok self (events : list InvalidationEvent) s :
  (handle_all self events s).1 = Ok tt.
Proof.
  unfold handle_all. revert s. induction events as [|event events IH]; intros s; [done|].
  cbn [for_each]. rewrite run_bind.
  destruct event as [[key|] ? ? ?|keys ? ? ?].
  - cbn [handle _handle_invalidation _invalidate_cache NearCache__invalidate]. apply IH.
  - cbn [handle _handle_invalidation NearCache__clear NearCache_clear]. apply IH.
  - cbn [handle]. unfold _handle_batch_invalidation, _invalidate_cache.
    rewrite invalidate_batch_run. apply IH.
Qed.

Lemma has_null_key_elem_of (events : list InvalidationEvent) :
  has_null_key events = true
  <-> exists source_uuid partition_uuid sequence,
        SingleInvalidation None source_uuid partition_uuid sequence ∈ events.
Proof.
  unfold has_null_key. rewrite existsb_exists. split.
  - intros ([[key|] ? ? ?|] & Hin%list_elem_of_In & Hnull); try done. by do 3 eexists.
  - intros (? & ? & ? & Hin). eexists. split; [by apply list_elem_of_In|done].
Qed.

Lemma elem_of_named_keys (events : list InvalidationEvent) k :
  k ∈ named_keys events
  <-> exists event,
        event ∈ events
        /\ match event with
           | SingleInvalidation key _ _ _ => key = Some k
           | BatchInvalidation keys _ _ _ => k ∈ keys
           end.
Proof.
  unfold named_keys. rewrite list_elem_of_bind. split.
  - intros (event & Hk & Hin). exists event. split; [done|].
    destruct event as [[key|] ? ? ?|keys ? ? ?]; [|by apply elem_of_nil in Hk|done].
    by apply list_elem_of_singleton in Hk as ->.
  - intros (event & Hin & Hk). exists event. split; [|done].
    destruct event as [[key|] ? ? ?|keys ? ? ?]; [|done|done].
    injection Hk as ->. apply list_elem_of_here.
Qed.

(** X17.  Invalidation events only ever remove entries.  After any
    sequence of events, with or without null keys, single or batched, the
    near cache is empty if one of the events had a null key, and otherwise
    holds exactly the entries it held before whose key no event names,
    with their values; no handler raises.  So the order in which the
    events arrive does not matter, nor does it matter when one arrives
    twice: sequences with the same events leave the same near cache. *)
Theorem invalidation_events_only_remove self (events : list InvalidationEvent) s :
  (handle_all self events s).1 = Ok tt
  /\ (forall k,
        near_cache (handle_all self events s).2 !! k
        = if has_null_key events then None
          else if bool_decide (k ∈ named_keys events) then None else near_cache s !! k)
  /\ (forall events' : list InvalidationEvent,
        (forall event, event ∈ events <-> event ∈ events') ->
        near_cache (handle_all self events' s).2 = near_cache (handle_all self events s).2).
Proof.
  split; [apply handle_all_ok|].
  split; [intros k; apply handle_all_lookup|].
  intros events' Hsame. apply map_eq. intros k.
  rewrite (proj2 (handle_all_lookup self events' s k)),
    (proj2 (handle_all_lookup self events s k)).
  assert (Hnull : has_null_key events' = has_null_key events).
  { apply eq_true_iff_eq. rewrite !has_null_key_elem_of.
    split; intros (a & b & c & Hin); exists a, b, c; by apply Hsame. }
  assert (Hnamed : k ∈ named_keys events' <-> k ∈ named_keys events).
  { rewrite !elem_of_named_keys.
    split; intros (event & Hin & Hk); exists event; (split; [by apply Hsame | done]). }
  rewrite Hnull. destruct (has_null_key events); [done|].
  by rewrite (bool_decide_ext _ _ Hnamed).
Qed.

End InvalidationEvents.

(** The two events for [k1], in the order received and the other way
    round. *)
Lemma invalidation_events_only_remove_witness :
  (forall event, event ∈ MapProxy.demo_gapped <-> event ∈ reverse MapProxy.demo_gapped)
  /\ Proxy.near_cache
       (MapProxy.handle_all MapProxy.demo_near_cache_map (reverse MapProxy.demo_gapped)
          (MapProxy.demo_client MapProxy.demo_two_entries)).2
     = Proxy.near_cache
         (MapProxy.handle_all MapProxy.demo_near_cache_map MapProxy.demo_gapped
            (MapProxy.demo_client MapProxy.demo_two_entries)).2.
Proof.
  assert (Hsame : forall event,
            event ∈ MapProxy.demo_gapped <-> event ∈ reverse MapProxy.demo_gapped).
  { intros event. by rewrite elem_of_reverse. }
  split; [exact Hsame|].
  exact (proj2 (proj2 (invalidation_events_only_remove MapProxy.demo_near_cache_map
                         MapProxy.demo_gapped
                         (MapProxy.demo_client MapProxy.demo_two_entries)))
           _ Hsame).
Defined.

(* ===================================================================== *)
(** * Python dictionaries: lookups after updates *)
(* ===================================================================== *)

Section DictProperties.
Import PyDict.

Context {K V : Type} `{EqDecision K}.

Implicit Types (d : dict K V) (k : K) (v : V).

Lemma getitem_None d k : getitem d k = None <-> k ∉ keys d.
Proof.
  unfold keys. induction d as [|[k' v'] d IH]; simpl.
  - split; [intros _; apply not_elem_of_nil | done].
  - rewrite not_elem_of_cons. destruct (decide (k' = k)) as [->|Hne].
    + split; [done | by intros [? _]].
    + rewrite IH. split; [by intros ?; split | by intros [_ ?]].
Qed.

Lemma getitem_Some_elem_of d k v : getitem d k = Some v -> (k, v) ∈ d.
Proof.
  induction d as [|[k' v'] d IH]; simpl; [done|].
  destruct (decide (k' = k)) as [->|Hne].
  - intros [= ->]. apply list_elem_of_here.
  - intros Hget. apply list_elem_of_further. by apply IH.
Qed.

Lemma elem_of_keys d k v : (k, v) ∈ d -> k ∈ keys d.
Proof. intros Hin. unfold keys. apply list_elem_of_fmap. by exists (k, v). Qed.

Lemma elem_of_getitem d k v : NoDup (keys d) -> (k, v) ∈ d -> getitem d k = Some v.
Proof.
  unfold keys. induction d as [|[k' v'] d IH]; simpl; intros Hnodup Hin.
  - by apply elem_of_nil in Hin.
  - apply NoDup_cons in Hnodup as [Hfresh Hnodup].
    apply elem_of_cons in Hin as [[= -> ->]|Hin].
    + by rewrite decide_True.
    + rewrite decide_False; [by apply IH|].
      intros ->. apply Hfresh. by apply (elem_of_keys d k v).
Qed.

(** A new key goes last. *)
Lemma setitem_absent d k v : getitem d k = None -> setitem d k v = d ++ [(k, v)].
Proof.
  induction d as [|[k' v'] d IH]; simpl; [done|].
  destruct (decide (k' = k)); [done|]. intros Hget. by rewrite IH.
Qed.

(** The value of a key that is present is replaced where it stands. *)
Lemma setitem_present d k v v0 :
  getitem d k = Some v0 ->
  exists d1 d2, d = d1 ++ (k, v0) :: d2 /\ setitem d k v = d1 ++ (k, v) :: d2.
Proof.
  induction d as [|[k' v'] d IH]; simpl; [done|].
  destruct (decide (k' = k)) as [->|Hne].
  - intros [= ->]. by exists [], d.
  - intros Hget. destruct (IH Hget) as (d1 & d2 & -> & ->).
    by exists ((k', v') :: d1), d2.
Qed.

Lemma filter_none {A} (P : A -> Prop) `{forall x, Decision (P x)} (l : list A) :
  Forall (fun x => ~ P x) l -> filter P l = [].
Proof.
  induction 1 as [|x l HP _ IH]; [done|]. by rewrite filter_cons_False.
Qed.

(** What a lookup finds after an assignment. *)
Lemma getitem_setitem d k v k' :
  getitem (setitem d k v) k' = if decide (k = k') then Some v else getitem d k'.
Proof.
  induction d as [|[k0 v0] d IH]; simpl.
  - destruct (decide (k = k')); [done|]. done.
  - destruct (decide (k0 = k)) as [->|Hne]; simpl.
    + by destruct (decide (k = k')).
    + rewrite IH. destruct (decide (k0 = k')) as [->|?]; [|done].
      by rewrite decide_False.
Qed.

Lemma keys_setitem d k v :
  keys (setitem d k v)
  = match getitem d k with Some _ => keys d | None => keys d ++ [k] end.
Proof.
  unfold keys. induction d as [|[k0 v0] d IH]; [done|].
  cbn [setitem getitem]. destruct (decide (k0 = k)) as [->|Hne]; [done|].
  rewrite !fmap_cons, IH. by destruct (getitem d k).
Qed.

Lemma NoDup_keys_setitem d k v : NoDup (keys d) -> NoDup (keys (setitem d k v)).
Proof.
  intros Hnodup. rewrite keys_setitem. destruct (getitem d k) eqn:Hget; [done|].
  apply NoDup_app. split; [done|]. split; [|apply NoDup_singleton].
  intros k' Hin ->%list_elem_of_singleton. by apply getitem_None in Hget.
Qed.

Lemma elem_of_keys_setitem d k v k' : k' ∈ keys (setitem d k v) <-> k' = k \/ k' ∈ keys d.
Proof.
  rewrite keys_setitem. destruct (getitem d k) eqn:Hget.
  - split; [by right|]. intros [->|?]; [|done].
    apply getitem_Some_elem_of in Hget. by apply (elem_of_keys d k v0).
  - rewrite elem_of_app, list_elem_of_singleton. tauto.
Qed.

(** The items after an assignment, for a dictionary as Python keeps it,
    no key twice. *)
Lemma elem_of_setitem d k v k' v' :
  NoDup (keys d) ->
  (k', v') ∈ setitem d k v <-> (k' = k /\ v' = v) \/ (k' <> k /\ (k', v') ∈ d).
Proof.
  intros Hnodup. split.
  - intros Hin. apply elem_of_getitem in Hin; [|by apply NoDup_keys_setitem].
    rewrite getitem_setitem in Hin. destruct (decide (k = k')) as [<-|Hne].
    + left. by injection Hin.
    + right. split; [done|]. by apply getitem_Some_elem_of.
  - intros [[-> ->]|[Hne Hin]]; apply getitem_Some_elem_of; rewrite getitem_setitem.
    + by rewrite decide_True.
    + rewrite decide_False by done. by apply elem_of_getitem.
Qed.



End DictProperties.

(* ===================================================================== *)
(** * The operations on several keys *)
(* ===================================================================== *)

Section BulkProperties.
Import Py Proxy MapProxy MapCalls PyDict MapBulk.

Context {Data : Type} `{Countable Data}.
Context {Obj Message : Type} `{EqDecision Obj}.
Context {Decoded : Type}.

Abbreviation Client := (Proxy.Client Data Obj Message).
Abbreviation Proxy := (Proxy.Proxy Data Obj Message).
Abbreviation Future := (Proxy.Future Data Obj Message).
Abbreviation PyVal := (option Obj).

Variable map_put_all_codec_encode_request : string -> list (Data * Data) -> bool -> Request Data.
Variable map_get_all_codec_encode_request : string -> list Data -> Request Data.
Variable map_execute_on_keys_codec_encode_request : string -> Data -> list Data -> Request Data.
Variable map_get_all_codec_decode_response : Message -> Decoded.
Variable map_execute_on_keys_codec_decode_response : Message -> Decoded.
Variable ImmutableLazyDataList : Decoded -> (option Data -> PyVal) -> Obj.
Variable combine_futures : list Future -> Future.
Variable dict_of_chained_results : Result PyVal -> M Data Obj Message PyVal.
Variable tuple : Obj -> PyVal -> Obj.
Variables (empty_dict empty_list : Obj).
Variable hashable : Obj -> bool.
Variable same_key : Obj -> Obj -> bool.

Abbreviation put_all := (Map_put_all map_put_all_codec_encode_request combine_futures).
Abbreviation put_all_inv := (put_all_invocation map_put_all_codec_encode_request).
Abbreviation get_all :=
  (Map_get_all map_get_all_codec_encode_request map_get_all_codec_decode_response
     ImmutableLazyDataList combine_futures dict_of_chained_results tuple empty_dict
     hashable same_key).
Abbreviation get_all_inv :=
  (get_all_invocation map_get_all_codec_encode_request map_get_all_codec_decode_response
     ImmutableLazyDataList).
Abbreviation execute_on_keys :=
  (Map_execute_on_keys map_execute_on_keys_codec_encode_request
     map_execute_on_keys_codec_decode_response ImmutableLazyDataList empty_list).
Abbreviation execute_on_keys_inv :=
  (execute_on_keys_invocation map_execute_on_keys_codec_encode_request
     map_execute_on_keys_codec_decode_response ImmutableLazyDataList).

Implicit Types (self : Proxy) (s : Client).

Ltac run :=
  unfold mbind, M_bind, bind, mret, M_ret, ret, raise, check_not_none, encoded,
    _invoke, _invoke_on_partition, invoke, log;
  simpl.

(** ** [put_all] *)

Lemma entries_by_partition_nil self : entries_by_partition self [] [].
Proof.
  split; [apply NoDup_nil_2|].
  split; [intros p es Hin; by apply elem_of_nil in Hin|].
  split; [intros e Hin; by apply elem_of_nil in Hin|].
  done.
Qed.

Lemma entries_by_partition_step self (seen : list (Data * Data))
      (groups : dict Z (list (Data * Data))) (e : Data * Data) :
  entries_by_partition self seen groups ->
  entries_by_partition self (seen ++ [e])
    (match getitem groups (get_partition_id self e.1) with
     | Some entry_list => setitem groups (get_partition_id self e.1) (entry_list ++ [e])
     | None => setitem groups (get_partition_id self e.1) [e]
     end).
Proof.
  intros (Hnodup & Hgroups & Hcover & Hperm).
  set (p := get_partition_id self e.1).
  assert (Hin : forall es' p' es,
    (p', es) ∈ setitem groups p es' ->
    (p' = p /\ es = es') \/ (p' <> p /\ (p', es) ∈ groups)).
  { intros es' p' es Hin.
    apply elem_of_getitem in Hin; [|by apply NoDup_keys_setitem].
    rewrite getitem_setitem in Hin. destruct (decide (p = p')) as [<-|Hne].
    - left. by injection Hin.
    - right. split; [done|]. by apply getitem_Some_elem_of. }
  destruct (getitem groups p) as [entry_list|] eqn:Hget.
  - pose proof (getitem_Some_elem_of _ _ _ Hget) as Hgroup.
    destruct (Hgroups _ _ Hgroup) as [_ Hentries].
    split; [by apply NoDup_keys_setitem|]. split; [|split].
    + intros p' es Hes. apply Hin in Hes as [[-> ->]|[Hne Hes]].
      * split; [by destruct entry_list|].
        rewrite filter_app, <- Hentries. by rewrite filter_cons_True.
      * destruct (Hgroups _ _ Hes) as [Hnonempty ->]. split; [done|].
        rewrite filter_app. rewrite (filter_cons_False _ e) by (simpl; fold p; congruence).
        by rewrite app_nil_r.
    + intros e' [He'|He']%elem_of_app; apply elem_of_keys_setitem.
      * right. by apply Hcover.
      * apply list_elem_of_singleton in He' as ->. by left.
    + destruct (setitem_present groups p (entry_list ++ [e]) entry_list Hget)
        as (d1 & d2 & Hd & ->).
      rewrite <- Hperm, Hd. unfold values.
      rewrite !fmap_app, !fmap_cons, !concat_app, !concat_cons. simpl.
      rewrite <- !app_assoc. apply Permutation_app_head. apply Permutation_app_head.
      apply Permutation_app_comm.
  - assert (Hfresh : filter (fun e' => get_partition_id self e'.1 = p) seen = []).
    { apply filter_none, Forall_forall. intros e' He' Hp.
      apply getitem_None in Hget. apply Hget. rewrite <- Hp. by apply Hcover. }
    split; [by apply NoDup_keys_setitem|]. split; [|split].
    + intros p' es Hes. apply Hin in Hes as [[-> ->]|[Hne Hes]].
      * split; [done|]. rewrite filter_app, Hfresh. by rewrite filter_cons_True.
      * destruct (Hgroups _ _ Hes) as [Hnonempty ->]. split; [done|].
        rewrite filter_app. rewrite (filter_cons_False _ e) by (simpl; fold p; congruence).
        by rewrite app_nil_r.
    + intros e' [He'|He']%elem_of_app; apply elem_of_keys_setitem.
      * right. by apply Hcover.
      * apply list_elem_of_singleton in He' as ->. by left.
    + rewrite setitem_absent by done. unfold values.
      rewrite fmap_app, concat_app. simpl.
      by apply Permutation_app_tail.
Qed.

Lemma put_all_entries_run self (items : list (Obj * Obj)) groups seen s :
  entries_by_partition self seen groups ->
  exists groups',
    put_all_entries self (proper_items items) groups s = (Ok groups', s)
    /\ entries_by_partition self (seen ++ entries_of self items) groups'.
Proof.
  revert groups seen. induction items as [|[key value] items IH]; intros groups seen Hinv.
  - exists groups. split; [done|]. unfold entries_of. simpl. by rewrite app_nil_r.
  - destruct (IH _ _ (entries_by_partition_step self seen groups
                        (_to_data self key, _to_data self value) Hinv))
      as (groups' & Hrun & Hinv').
    exists groups'. split.
    + unfold proper_items. rewrite fmap_cons. cbn [put_all_entries]. run. exact Hrun.
    + unfold entries_of in *. rewrite fmap_cons. simpl. by rewrite <- app_assoc in Hinv'.
Qed.

Lemma put_all_partitions_run self (groups : dict Z (list (Data * Data)))
      (futures : list Future) s :
  put_all_partitions map_put_all_codec_encode_request self groups futures s
  = (Ok (futures ++ futures_of (correlation_id s) (put_all_inv self <$> groups)),
     after_issuing s (put_all_inv self <$> groups)).
Proof.
  revert futures s. induction groups as [|[p es] groups IH]; intros futures s.
  - unfold after_issuing. simpl. rewrite !app_nil_r. by destruct s.
  - cbn [put_all_partitions]. run. rewrite IH. unfold after_issuing.
    simpl. by rewrite Nat.add_succ_r, <- !app_assoc.
Qed.

Lemma put_all_unfold self (item : PyVal * PyVal) (items : list (PyVal * PyVal)) s :
  put_all self (Some (item :: items)) s
  = match put_all_entries self (item :: items) [] s with
    | (Ok partition_map, s') =>
        match put_all_partitions map_put_all_codec_encode_request self partition_map [] s' with
        | (Ok futures, s'') => (Ok (combine_futures futures), s'')
        | (Raised e, s'') => (Raised e, s'')
        end
    | (Raised e, s') => (Raised e, s')
    end.
Proof. reflexivity. Qed.

(** X11.  [put_all] with a dictionary of proper keys and values that is not
    empty: the entries are gathered by the partition that owns the key,
    and one [map_put_all] request is issued for each such partition, to
    that partition, with exactly the entries it owns; the future combines
    the futures of these invocations.  Nothing else changes: in
    particular the near cache of a near-cache map is left as it is. *)
Theorem put_all_sends_each_entry_to_its_partition self (item : Obj * Obj)
        (items : list (Obj * Obj)) s :
  exists groups,
    entries_by_partition self (entries_of self (item :: items)) groups
    /\ put_all self (Some (proper_items (item :: items))) s
       = (Ok (combine_futures (futures_of (correlation_id s) (put_all_inv self <$> groups))),
          after_issuing s (put_all_inv self <$> groups)).
Proof.
  destruct (put_all_entries_run self (item :: items) [] [] s (entries_by_partition_nil self))
    as (groups & Hrun & Hinv).
  exists groups. split; [exact Hinv|].
  unfold proper_items in *. rewrite fmap_cons in *.
  by rewrite put_all_unfold, Hrun, put_all_partitions_run.
Qed.

(** ** [get_all] *)

Abbreviation same := (fun key key' : Obj => same_key key key' = true).
Abbreviation can_be_hashed := (fun key : Obj => hashable key = true).
Abbreviation partition_of self := (fun key : Obj => get_partition_id self (_to_data self key)).

Lemma get_all_partitions_run self (groups : dict Z (dict Obj Data)) (futures : list Future) s :
  get_all_partitions map_get_all_codec_encode_request self
    (fun message =>
       Some (ImmutableLazyDataList (map_get_all_codec_decode_response message)
                                   (_to_object self)))
    groups futures s
  = (Ok (futures ++ futures_of (correlation_id s) (get_all_inv self <$> groups)),
     after_issuing s (get_all_inv self <$> groups)).
Proof.
  revert futures s. induction groups as [|[p d] groups IH]; intros futures s.
  - unfold after_issuing. simpl. rewrite !app_nil_r. by destruct s.
  - cbn [get_all_partitions]. run. rewrite IH. unfold after_issuing.
    simpl. by rewrite Nat.add_succ_r, <- !app_assoc.
Qed.

(** The keys up to the first one that is [None] or cannot be hashed are
    gathered without a trace. *)
Lemma get_all_keys_app self (before : list Obj) (rest : list PyVal) groups s :
  Forall can_be_hashed before ->
  exists groups',
    get_all_keys hashable same_key self (proper_keys before ++ rest) groups s
    = get_all_keys hashable same_key self rest groups' s.
Proof.
  intros Hhashable. revert groups.
  induction Hhashable as [|key before Hkey _ IH]; intros groups; [by exists groups|].
  unfold proper_keys in *. rewrite fmap_cons. simpl app. cbn [get_all_keys].
  unfold check_not_none. unfold mbind at 1, M_bind at 1, bind at 1, ret at 1.
  unfold setitem_object. rewrite Hkey.
  destruct (getitem groups (get_partition_id self (_to_data self key))); run; apply IH.
Qed.

(** The items of a dictionary that the near cache holds, with the value
    cached, and the finished future of such an item. *)
Abbreviation cached_items s :=
  (omap (fun kv : Obj * Data => value ← near_cache s !! kv.2; Some (kv.1, value))).
Abbreviation finished :=
  (fun kv : Obj * PyVal => ImmediateFuture (Message := Message) (Some (tuple kv.1 kv.2))).

Section KeysThatBehave.

Hypothesis same_key_equivalence : Equivalence same.

Implicit Types (d : dict Obj Data) (key : Obj) (kd : Data).

Lemma same_refl key : same_key key key = true.
Proof. by destruct same_key_equivalence as [Hrefl _ _]. Qed.

Lemma same_sym key key' : same_key key key' = true -> same_key key' key = true.
Proof. destruct same_key_equivalence as [_ Hsym _]. apply Hsym. Qed.

Lemma same_trans key key' key'' :
  same_key key key' = true -> same_key key' key'' = true -> same_key key key'' = true.
Proof. destruct same_key_equivalence as [_ _ Htrans]. apply Htrans. Qed.

(** *** Dictionaries of keys that behave *)

Lemma lookup_key_None d key :
  lookup_key same_key d key = None
  <-> forall key', key' ∈ keys d -> same_key key' key = false.
Proof.
  unfold keys. induction d as [|[k v] d IH]; simpl.
  - split; [|done]. intros _ key' Hin. by apply elem_of_nil in Hin.
  - destruct (same_key k key) eqn:Hsame.
    + split; [done|]. intros Hfresh. rewrite Hfresh in Hsame; [done|]. apply list_elem_of_here.
    + rewrite IH. split.
      * intros Hfresh key' [->|Hin]%elem_of_cons; [done | by apply Hfresh].
      * intros Hfresh key' Hin. apply Hfresh. by apply list_elem_of_further.
Qed.

Lemma lookup_key_Some d key v :
  lookup_key same_key d key = Some v ->
  exists key', (key', v) ∈ d /\ same_key key' key = true.
Proof.
  induction d as [|[k v'] d IH]; simpl; [done|].
  destruct (same_key k key) eqn:Hsame.
  - intros [= ->]. exists k. split; [apply list_elem_of_here | done].
  - intros (key' & Hin & Hkey')%IH. exists key'. split; [by apply list_elem_of_further | done].
Qed.

Lemma store_key_absent d key kd :
  lookup_key same_key d key = None -> store_key same_key d key kd = d ++ [(key, kd)].
Proof.
  induction d as [|[k v] d IH]; simpl; [done|].
  destruct (same_key k key); [done|]. intros Hlookup. by rewrite IH.
Qed.

Lemma store_key_present d key kd v :
  lookup_key same_key d key = Some v ->
  exists d1 key0 d2,
    d = d1 ++ (key0, v) :: d2
    /\ same_key key0 key = true
    /\ store_key same_key d key kd = d1 ++ (key0, kd) :: d2.
Proof.
  induction d as [|[k v'] d IH]; simpl; [done|].
  destruct (same_key k key) eqn:Hsame.
  - intros [= ->]. by exists [], k, d.
  - intros (d1 & key0 & d2 & -> & Hkey0 & ->)%IH. by exists ((k, v') :: d1), key0, d2.
Qed.

Lemma keys_store_key d key kd :
  keys (store_key same_key d key kd)
  = match lookup_key same_key d key with Some _ => keys d | None => keys d ++ [key] end.
Proof.
  unfold keys. induction d as [|[k v] d IH]; [done|].
  cbn [store_key lookup_key]. destruct (same_key k key); [done|].
  rewrite !fmap_cons, IH. by destruct (lookup_key same_key d key).
Qed.

Lemma distinct_keys_store_key d key kd :
  distinct_keys same_key d -> distinct_keys same_key (store_key same_key d key kd).
Proof.
  intros [Hnodup Hdistinct]. unfold distinct_keys. rewrite keys_store_key.
  destruct (lookup_key same_key d key) eqn:Hlookup; [done|].
  pose proof (proj1 (lookup_key_None d key) Hlookup) as Hfresh.
  split.
  - apply NoDup_app. split; [done|]. split; [|apply NoDup_singleton].
    intros k Hin ->%list_elem_of_singleton. specialize (Hfresh _ Hin).
    by rewrite same_refl in Hfresh.
  - intros k k'. rewrite !elem_of_app, !list_elem_of_singleton.
    intros [Hk| ->] [Hk'| ->] Hsame; try done.
    + by apply Hdistinct.
    + by rewrite (Hfresh _ Hk) in Hsame.
    + apply same_sym in Hsame. by rewrite (Hfresh _ Hk') in Hsame.
Qed.

(** The items after an assignment. *)
Lemma elem_of_store_key d key kd key' kd' :
  distinct_keys same_key d ->
  (key', kd') ∈ store_key same_key d key kd
  <-> (same_key key' key = true /\ kd' = kd
       /\ (key' ∈ keys d \/ (key' = key /\ lookup_key same_key d key = None)))
      \/ (same_key key' key = false /\ (key', kd') ∈ d).
Proof.
  intros [Hnodup Hdistinct]. destruct (lookup_key same_key d key) as [v|] eqn:Hlookup.
  - destruct (store_key_present d key kd v Hlookup) as (d1 & key0 & d2 & Hd & Hkey0 & ->).
    assert (Hin0 : key0 ∈ keys d).
    { apply (elem_of_keys d key0 v). rewrite Hd. apply elem_of_app. right.
      apply list_elem_of_here. }
    assert (Hother : forall k v', (k, v') ∈ d1 ++ d2 -> same_key k key = false).
    { intros k v' Hin. destruct (same_key k key) eqn:Hsame; [|done].
      assert (k = key0) as ->.
      { apply Hdistinct; [|done|].
        - apply (elem_of_keys d k v'). rewrite Hd.
          apply elem_of_app in Hin as [?|?]; apply elem_of_app; [by left|].
          right. by apply list_elem_of_further.
        - apply (same_trans _ key); [done | by apply same_sym]. }
      unfold keys in Hnodup. rewrite Hd, fmap_app, fmap_cons in Hnodup.
      apply NoDup_app in Hnodup as (_ & Hdisjoint & [Hfresh _]%NoDup_cons).
      apply elem_of_app in Hin as [Hin|Hin].
      - destruct (Hdisjoint key0); [by apply (elem_of_keys d1 key0 v')|].
        apply list_elem_of_here.
      - destruct Hfresh. by apply (elem_of_keys d2 key0 v'). }
    rewrite Hd, !elem_of_app, !elem_of_cons. split.
    + intros [Hin|[[= -> ->]|Hin]].
      * right. split; [|by left]. apply (Hother key' kd'), elem_of_app. by left.
      * left. split; [done|]. split; [done|]. left. by rewrite <- Hd.
      * right. split; [|by right; right]. apply (Hother key' kd'), elem_of_app. by right.
    + intros [(Hsame & -> & [Hin|[_ ?]])|[Hsame [Hin|[[= -> ->]|Hin]]]]; try done.
      * right. left. f_equal. apply Hdistinct; [by rewrite Hd|done|].
        apply (same_trans _ key); [done | by apply same_sym].
      * by left.
      * by rewrite Hkey0 in Hsame.
      * by right; right.
  - pose proof (proj1 (lookup_key_None d key) Hlookup) as Hfresh.
    rewrite store_key_absent by done. rewrite elem_of_app, list_elem_of_singleton. split.
    + intros [Hin|[= -> ->]].
      * right. split; [|done]. apply Hfresh. by apply (elem_of_keys d key' kd').
      * left. split; [apply same_refl|]. split; [done|]. by right.
    + intros [(Hsame & -> & [Hin|[-> _]])|[_ Hin]].
      * by rewrite (Hfresh _ Hin) in Hsame.
      * by right.
      * by left.
Qed.





(** *** The keys that are the same *)

Lemma elem_of_same_keys self (wanted : list Obj) key key' :
  key' ∈ same_keys same_key self wanted key
  <-> key' ∈ wanted /\ same_key key key' = true /\ partition_of self key' = partition_of self key.
Proof. unfold same_keys. rewrite list_elem_of_filter. tauto. Qed.

Lemma same_keys_same self (wanted : list Obj) key key' :
  same_key key key' = true ->
  partition_of self key' = partition_of self key ->
  same_keys same_key self wanted key' = same_keys same_key self wanted key.
Proof.
  intros Hsame Hp. unfold same_keys. apply list_filter_iff. intros k. rewrite Hp. split.
  - intros [Hk ?]. split; [|done]. by apply (same_trans _ key').
  - intros [Hk ?]. split; [|done]. apply (same_trans _ key); [by apply same_sym | done].
Qed.

Lemma same_keys_snoc self (seen : list Obj) key key' :
  same_keys same_key self (seen ++ [key]) key'
  = same_keys same_key self seen key'
    ++ (if decide (same_key key' key = true /\ partition_of self key = partition_of self key')
        then [key] else []).
Proof. unfold same_keys. by rewrite filter_app, filter_singleton. Qed.

Lemma key_item_elem_of self (wanted : list Obj) key kd :
  key_item same_key self wanted key kd -> key ∈ wanted.
Proof. intros [Hhead%head_Some_elem_of _]. by apply elem_of_same_keys in Hhead as [? _]. Qed.

Lemma key_item_partition self (wanted : list Obj) key kd :
  key_item same_key self wanted key kd -> get_partition_id self kd = partition_of self key.
Proof.
  intros [_ Hlast]. destruct (last (same_keys same_key self wanted key)) as [key'|] eqn:Hkey';
    [|done].
  injection Hlast as <-. apply last_Some_elem_of, elem_of_same_keys in Hkey' as (_ & _ & Hp).
  exact Hp.
Qed.

(** A key of [wanted] has its item, under the first of the keys that are
    the same. *)
Lemma key_item_of self (wanted : list Obj) key :
  key ∈ wanted ->
  exists key0 kd,
    key_item same_key self wanted key0 kd
    /\ same_key key0 key = true
    /\ get_partition_id self kd = partition_of self key.
Proof.
  intros Hin.
  assert (Hown : key ∈ same_keys same_key self wanted key).
  { apply elem_of_same_keys. split; [done|]. split; [apply same_refl | done]. }
  destruct (same_keys same_key self wanted key) as [|key0 l] eqn:Hl;
    [by apply elem_of_nil in Hown|].
  assert (Hkey0 : key0 ∈ same_keys same_key self wanted key).
  { rewrite Hl. apply list_elem_of_here. }
  apply elem_of_same_keys in Hkey0 as (_ & Hsame & Hp).
  assert (Hlast : is_Some (last (key0 :: l))) by (by apply last_is_Some).
  destruct Hlast as [key1 Hlast].
  assert (Hkey1 : key1 ∈ same_keys same_key self wanted key).
  { rewrite Hl. by apply last_Some_elem_of. }
  apply elem_of_same_keys in Hkey1 as (_ & _ & Hp1).
  exists key0, (_to_data self key1). split; [|split].
  - unfold key_item. rewrite (same_keys_same self wanted key key0), Hl by done.
    split; [done|]. by rewrite Hlast.
  - by apply same_sym.
  - exact Hp1.
Qed.

(** *** The keys gathered *)

Lemma keys_by_partition_nil self : keys_by_partition same_key self [] (fun _ => True) [].
Proof.
  split; [apply NoDup_nil_2|].
  split; [intros p d Hin; by apply elem_of_nil in Hin|].
  intros key Hin. by apply elem_of_nil in Hin.
Qed.

(** The keys gathered so far, with no dictionary empty. *)
Lemma keys_by_partition_step self (seen : list Obj) (groups : dict Z (dict Obj Data))
      (key : Obj) :
  keys_by_partition same_key self seen (fun _ => True) groups ->
  (forall p d, (p, d) ∈ groups -> d <> []) ->
  let key_data := _to_data self key in
  let groups' :=
    setitem groups (get_partition_id self key_data)
            (store_key same_key (default [] (getitem groups (get_partition_id self key_data)))
                       key key_data) in
  keys_by_partition same_key self (seen ++ [key]) (fun _ => True) groups'
  /\ (forall p d, (p, d) ∈ groups' -> d <> []).
Proof.
  intros (Hnodup & Hgroups & Hcover) Hnonempty key_data.
  set (p := get_partition_id self key_data).
  set (d0 := default [] (getitem groups p)). intros groups'.
  assert (Hd0 : distinct_keys same_key d0
                /\ forall k kd,
                     (k, kd) ∈ d0
                     <-> key_item same_key self seen k kd /\ get_partition_id self kd = p).
  { subst d0. destruct (getitem groups p) as [key_dict|] eqn:Hget; simpl.
    - apply getitem_Some_elem_of in Hget. destruct (Hgroups _ _ Hget) as [Hdistinct Hitems].
      split; [done|]. intros k kd. rewrite Hitems. tauto.
    - split; [split; [apply NoDup_nil_2|]; by intros k k' ?%elem_of_nil|].
      intros k kd. split; [by intros ?%elem_of_nil|]. intros [Hitem Hp].
      apply getitem_None in Hget. destruct Hget. rewrite <- Hp.
      rewrite (key_item_partition _ _ _ _ Hitem). apply Hcover.
      by apply (key_item_elem_of self seen k kd). }
  destruct Hd0 as [Hdistinct0 Hitems0].
  assert (Hin : forall p' d,
    (p', d) ∈ groups' ->
    (p' = p /\ d = store_key same_key d0 key key_data) \/ (p' <> p /\ (p', d) ∈ groups)).
  { intros p' d Hd. by apply elem_of_setitem in Hd. }
  assert (Hsnoc_other : forall k,
    same_key k key = false \/ partition_of self k <> p ->
    same_keys same_key self (seen ++ [key]) k = same_keys same_key self seen k).
  { intros k Hk. rewrite same_keys_snoc. rewrite decide_False; [by rewrite app_nil_r|].
    intros [Hsame Hp]. destruct Hk as [Hk|Hk]; [by rewrite Hsame in Hk|]. by destruct Hk. }
  assert (Hsnoc_same : forall k,
    same_key k key = true -> partition_of self k = p ->
    same_keys same_key self (seen ++ [key]) k = same_keys same_key self seen k ++ [key]).
  { intros k Hsame Hp. rewrite same_keys_snoc. by rewrite decide_True. }
  split; [split; [by apply NoDup_keys_setitem|split]|].
  - intros p' d [[-> ->]|[Hne Hd]]%Hin.
    + split; [by apply distinct_keys_store_key|].
      intros k kd. rewrite elem_of_store_key by done. split.
      * intros [(Hsame & -> & [Hk|[-> Hlookup]])|[Hsame Hk]].
        -- unfold keys in Hk. apply list_elem_of_fmap in Hk as ([k' v0] & -> & Hk). simpl in *.
           apply Hitems0 in Hk as [[Hhead Hlast] Hp].
           assert (Hpk : partition_of self k' = p).
           { rewrite <- Hp. symmetry. by apply (key_item_partition self seen k' v0). }
           split; [|split; [done|done]].
           unfold key_item. rewrite Hsnoc_same by done.
           rewrite head_app, Hhead, last_snoc. done.
        -- split; [|split; [done|done]].
           assert (Hnone : same_keys same_key self seen key = []).
           { destruct (same_keys same_key self seen key) as [|x l] eqn:Hl; [done|].
             assert (Hx : x ∈ same_keys same_key self seen key).
             { rewrite Hl. apply list_elem_of_here. }
             apply elem_of_same_keys in Hx as (Hx & Hsame_x & Hpx).
             destruct (key_item_of self seen x Hx) as (key0 & kd0 & Hitem & Hsame0 & Hp0).
             assert (Hin0 : (key0, kd0) ∈ d0).
             { apply Hitems0. split; [done|]. by rewrite Hp0, Hpx. }
             pose proof (proj1 (lookup_key_None d0 key) Hlookup key0
                           (elem_of_keys d0 key0 kd0 Hin0)) as Hfresh.
             rewrite (same_trans key0 x key) in Hfresh; [done|done|by apply same_sym]. }
           unfold key_item. rewrite Hsnoc_same by done. by rewrite Hnone.
        -- apply Hitems0 in Hk as [Hitem Hp]. split; [|split; [done|done]].
           unfold key_item. rewrite Hsnoc_other by (by left). exact Hitem.
      * intros (Hitem & Hp & _).
        assert (Hpk : partition_of self k = p).
        { rewrite <- Hp. symmetry. by apply (key_item_partition self (seen ++ [key]) k kd). }
        destruct Hitem as [Hhead Hlast].
        destruct (same_key k key) eqn:Hsame.
        -- left. split; [done|]. rewrite Hsnoc_same in Hhead, Hlast by done.
           rewrite last_snoc in Hlast. split; [by injection Hlast|].
           destruct (same_keys same_key self seen k) as [|x l] eqn:Hl.
           ++ right. injection Hhead as <-. split; [done|].
              destruct (lookup_key same_key d0 key) as [v0|] eqn:Hlookup; [|done].
              apply lookup_key_Some in Hlookup as (key0 & Hin0 & Hsame0).
              apply Hitems0 in Hin0 as [Hitem0 Hp0].
              pose proof (key_item_partition _ _ _ _ Hitem0) as Hpk0.
              pose proof (key_item_elem_of _ _ _ _ Hitem0) as Hseen0.
              assert (key0 ∈ same_keys same_key self seen key) as Hcontra.
              { apply elem_of_same_keys. split; [done|]. split; [by apply same_sym|].
                by rewrite <- Hpk0, Hp0. }
              rewrite Hl in Hcontra. by apply elem_of_nil in Hcontra.
           ++ left. injection Hhead as ->.
              assert (Hlast' : is_Some (last (k :: l))) by (by apply last_is_Some).
              destruct Hlast' as [key1 Hkey1].
              apply (elem_of_keys d0 k (_to_data self key1)), Hitems0.
              assert (Hitem : key_item same_key self seen k (_to_data self key1)).
              { unfold key_item. rewrite Hl. split; [done|]. by rewrite Hkey1. }
              split; [done|]. by rewrite (key_item_partition _ _ _ _ Hitem).
        -- right. split; [done|]. apply Hitems0. split; [|done].
           unfold key_item. rewrite <- (Hsnoc_other k) by (by left). done.
    + destruct (Hgroups _ _ Hd) as [Hdistinct Hitems]. split; [done|].
      intros k kd. rewrite Hitems. split.
      * intros (Hitem & Hp & _). split; [|done].
        unfold key_item. rewrite Hsnoc_other; [done|]. right.
        by rewrite <- (key_item_partition _ _ _ _ Hitem), Hp.
      * intros (Hitem & Hp & _). split; [|done].
        unfold key_item. rewrite <- (Hsnoc_other k); [done|]. right.
        by rewrite <- (key_item_partition _ _ _ _ Hitem), Hp.
  - intros key' Hkey'. apply elem_of_keys_setitem.
    apply elem_of_app in Hkey' as [Hseen|Hkey]; [right; by apply Hcover|].
    apply list_elem_of_singleton in Hkey as ->. by left.
  - intros p' d [[-> ->]|[Hne Hd]]%Hin; [|by apply (Hnonempty p')].
    by destruct d0 as [|[??]?]; simpl; try destruct (same_key _ _).
Qed.

Lemma get_all_keys_run self (keys : list Obj) groups seen s :
  Forall can_be_hashed keys ->
  keys_by_partition same_key self seen (fun _ => True) groups ->
  (forall p d, (p, d) ∈ groups -> d <> []) ->
  exists groups',
    get_all_keys hashable same_key self (proper_keys keys) groups s = (Ok groups', s)
    /\ keys_by_partition same_key self (seen ++ keys) (fun _ => True) groups'
    /\ (forall p d, (p, d) ∈ groups' -> d <> []).
Proof.
  intros Hhashable. revert groups seen.
  induction Hhashable as [|key keys Hkey _ IH]; intros groups seen Hinv Hnonempty.
  - exists groups. rewrite app_nil_r. done.
  - destruct (keys_by_partition_step self seen groups key Hinv Hnonempty) as [Hinv' Hnonempty'].
    destruct (IH _ _ Hinv' Hnonempty') as (groups' & Hrun & Hinv'' & Hnonempty'').
    exists groups'. split; [|by rewrite <- app_assoc in Hinv''].
    unfold proper_keys. rewrite fmap_cons. cbn [get_all_keys].
    unfold check_not_none. unfold mbind at 1, M_bind at 1, bind at 1, ret at 1.
    unfold setitem_object. rewrite Hkey.
    destruct (getitem groups (get_partition_id self (_to_data self key))); run; exact Hrun.
Qed.

(** *** Through the near cache *)






End KeysThatBehave.

(** X12.  [get_all] on a map without a near cache, with a sequence of proper
    keys that is not empty, all of which can be hashed and for which being
    the same key of a dictionary is an equivalence.  The keys are gathered
    by the partition that owns them, keys that are the same key of the
    dictionary of a partition counting once: the first of them is kept
    and the serialized form of the last of them is what is asked for.
    One [map_get_all] request is issued for each partition that owns a
    key, to that partition, for exactly the items gathered for it.  The
    future merges the combined futures of these invocations. *)
Theorem get_all_asks_each_partition_for_its_keys self (key : Obj) (keys : list Obj) s :
  cls self = Map ->
  Equivalence same ->
  Forall can_be_hashed (key :: keys) ->
  exists groups,
    keys_by_partition same_key self (key :: keys) (fun _ => True) groups
    /\ (forall p d, (p, d) ∈ groups -> d <> [])
    /\ get_all self (Some (proper_keys (key :: keys))) s
       = (Ok (continue_with
                (combine_futures (futures_of (correlation_id s) (get_all_inv self <$> groups)))
                dict_of_chained_results),
          after_issuing s (get_all_inv self <$> groups)).
Proof.
  intros Hcls Hequivalence Hhashable.
  destruct (get_all_keys_run Hequivalence self (key :: keys) [] [] s Hhashable
              (keys_by_partition_nil self))
    as (groups & Hrun & Hinv & Hnonempty).
  { intros p d Hin. by apply elem_of_nil in Hin. }
  exists groups. split; [exact Hinv|]. split; [exact Hnonempty|].
  unfold Map_get_all, proper_keys in *. rewrite fmap_cons in *.
  unfold check_not_none, mbind at 1 2, M_bind at 1 2, bind at 1 2, ret at 1.
  rewrite Hrun. unfold _get_all_internal. rewrite Hcls.
  unfold Map__get_all_internal, items. unfold mbind, M_bind, bind.
  by rewrite get_all_partitions_run.
Qed.


(** ** [execute_on_keys] *)

Lemma execute_on_keys_keys_run self (keys : list Obj) (key_list : list Data) s :
  execute_on_keys_keys self (proper_keys keys) key_list s
  = (Ok (key_list ++ (_to_data self <$> keys)), s).
Proof.
  revert key_list. induction keys as [|key keys IH]; intros key_list.
  - simpl. by rewrite app_nil_r.
  - unfold proper_keys in *. rewrite !fmap_cons. cbn [execute_on_keys_keys]. run.
    rewrite IH. by rewrite <- app_assoc.
Qed.

Lemma execute_on_keys_run self (key : Obj) (keys : list Obj) (entry_processor : Obj) s :
  execute_on_keys self (proper_keys (key :: keys)) entry_processor s
  = (Ok (InvocationFuture (correlation_id s)
           (execute_on_keys_inv self entry_processor (_to_data self <$> key :: keys))),
     after_issuing s [execute_on_keys_inv self entry_processor (_to_data self <$> key :: keys)]).
Proof.
  unfold Map_execute_on_keys. unfold mbind at 1, M_bind at 1, bind at 1.
  rewrite execute_on_keys_keys_run.
  unfold proper_keys. rewrite fmap_cons. cbn [length bool_decide decide_rel].
  rewrite bool_decide_eq_false_2 by done.
  unfold after_issuing, execute_on_keys_invocation. run. by rewrite <- app_assoc.
Qed.

(** X14.  [execute_on_keys] with a sequence of proper keys that is not empty:
    whatever the partitions of the keys, exactly one invocation is issued,
    to any member and not to a partition; its [map_execute_on_keys]
    request holds the serialized entry processor and the serialized keys
    in the order given, a key given twice being sent twice. *)
Theorem execute_on_keys_sends_one_request self (key : Obj) (keys : list Obj)
        (entry_processor : Obj) s :
  exists inv,
    execute_on_keys self (proper_keys (key :: keys)) entry_processor s
    = (Ok (InvocationFuture (correlation_id s) inv), after_issuing s [inv])
    /\ partition_id inv = None
    /\ request inv
       = map_execute_on_keys_codec_encode_request (name self) (_to_data self entry_processor)
           (_to_data self <$> key :: keys).
Proof.
  eexists. split; [apply execute_on_keys_run|]. done.
Qed.

(** ** The guards *)

Lemma put_all_entries_raises self (items : list (PyVal * PyVal)) groups s :
  (exists key value, (key, value) ∈ items /\ (key = None \/ value = None)) ->
  exists message,
    put_all_entries self items groups s = (Raised (AssertionError message), s).
Proof.
  revert groups. induction items as [|[key value] items IH]; intros groups Hnone.
  - destruct Hnone as (? & ? & ?%elem_of_nil & _). done.
  - destruct key as [key|]; [destruct value as [value|]|]; try by eexists.
    cbn [put_all_entries]. run. apply IH.
    destruct Hnone as (k & v & Hin & Hk). exists k, v. split; [|done].
    apply elem_of_cons in Hin as [[= -> ->]|Hin]; [|done].
    by destruct Hk.
Qed.

Lemma get_all_stops self (before : list Obj) (bad : PyVal) (rest : list PyVal) s :
  Forall can_be_hashed before ->
  match bad with Some key => hashable key = false | None => True end ->
  get_all self (Some (proper_keys before ++ bad :: rest)) s
  = (Raised (match bad with
             | Some _ => TypeError
             | None => AssertionError "key can't be None"
             end), s).
Proof.
  intros Hhashable Hbad.
  assert (Hkeys : forall groups,
    get_all_keys hashable same_key self (proper_keys before ++ bad :: rest) groups s
    = (Raised (match bad with
               | Some _ => TypeError
               | None => AssertionError "key can't be None"
               end), s)).
  { intros groups.
    destruct (get_all_keys_app self before (bad :: rest) groups s Hhashable) as [groups' ->].
    destruct bad as [key|]; [|done].
    cbn [get_all_keys]. unfold check_not_none.
    unfold mbind at 1, M_bind at 1, bind at 1, ret at 1.
    unfold setitem_object. rewrite Hbad.
    by destruct (getitem groups' (get_partition_id self (_to_data self key))). }
  unfold Map_get_all. unfold check_not_none, mbind at 1, M_bind at 1, bind at 1, ret at 1.
  destruct (proper_keys before ++ bad :: rest) as [|key keys] eqn:Hlist.
  - by destruct before.
  - unfold mbind, M_bind, bind. by rewrite Hkeys.
Qed.

Lemma execute_on_keys_keys_raises self (keys : list PyVal) key_list s :
  None ∈ keys ->
  execute_on_keys_keys self keys key_list s
  = (Raised (AssertionError "key can't be None"), s).
Proof.
  revert key_list. induction keys as [|key keys IH]; intros key_list Hnone.
  - by apply elem_of_nil in Hnone.
  - destruct key as [key|]; [|done].
    cbn [execute_on_keys_keys]. run. apply IH.
    by apply elem_of_cons in Hnone as [?|?].
Qed.

(** X15.  The guards of [put_all], [get_all] and [execute_on_keys].  [None] for
    the dictionary of [put_all] or for the keys of [get_all] raises an
    [AssertionError], and so does [None] anywhere among the keys or the
    values of [put_all] and among the keys of [execute_on_keys], even
    after proper ones.  [get_all] stops at the first key that is [None]
    or that cannot be hashed, whatever follows it: the one raises an
    [AssertionError], the other the [TypeError] of the dictionary.  In
    each case the client is left as it was: no request has gone out, not
    even for the entries before.  An empty dictionary or an empty sequence
    of keys gives a finished future and sends nothing either. *)
Theorem bulk_operations_check_before_sending self s :
  put_all self None s = (Raised (AssertionError "map can't be None"), s)
  /\ get_all self None s = (Raised (AssertionError "keys can't be None"), s)
  /\ (forall items,
        (exists key value, (key, value) ∈ items /\ (key = None \/ value = None)) ->
        exists message, put_all self (Some items) s = (Raised (AssertionError message), s))
  /\ (forall before rest,
        Forall can_be_hashed before ->
        get_all self (Some (proper_keys before ++ None :: rest)) s
        = (Raised (AssertionError "key can't be None"), s))
  /\ (forall before key rest,
        Forall can_be_hashed before ->
        hashable key = false ->
        get_all self (Some (proper_keys before ++ Some key :: rest)) s
        = (Raised TypeError, s))
  /\ (forall keys entry_processor,
        None ∈ keys ->
        execute_on_keys self keys entry_processor s
        = (Raised (AssertionError "key can't be None"), s))
  /\ put_all self (Some []) s = (Ok (ImmediateFuture None), s)
  /\ get_all self (Some []) s = (Ok (ImmediateFuture (Some empty_dict)), s)
  /\ (forall entry_processor,
        execute_on_keys self [] entry_processor s
        = (Ok (ImmediateFuture (Some empty_list)), s)).
Proof.
  split; [done|]. split; [done|]. split; [|split; [|split; [|split; [|done]]]].
  - intros items Hnone. destruct items as [|item items].
    + destruct Hnone as (? & ? & ?%elem_of_nil & _). done.
    + destruct (put_all_entries_raises self (item :: items) [] s Hnone) as (message & Hrun).
      exists message. by rewrite put_all_unfold, Hrun.
  - intros before rest Hhashable. by apply (get_all_stops self before None rest s).
  - intros before key rest Hhashable Hkey.
    by apply (get_all_stops self before (Some key) rest s).
  - intros keys entry_processor Hnone.
    unfold Map_execute_on_keys. unfold mbind, M_bind, bind.
    by rewrite execute_on_keys_keys_raises.
Qed.

(** ** The near cache after a write to several keys *)

(** X16.  [put_all] and [execute_on_keys] on a near-cache map, which has no
    override for them: unlike [put] and [execute_on_key] they do not drop
    the keys they write from the near cache.  An entry that was cached
    before the call is cached after it, and a [get] of its key is then
    still answered from the near cache with the value cached before, even
    when the key is among those written. *)
Theorem writes_to_several_keys_keep_the_near_cache self (cached_key : Obj)
        (cached_value : PyVal) s :
  cls self = MapFeatNearCache ->
  near_cache s !! _to_data self cached_key = Some cached_value ->
  (forall item items,
     exists future s',
       put_all self (Some (proper_items (item :: items))) s = (Ok future, s')
       /\ near_cache s' = near_cache s
       /\ Map_get self (Some cached_key) s' = (Ok (ImmediateFuture cached_value), s'))
  /\ (forall key keys entry_processor,
        exists future s',
          execute_on_keys self (proper_keys (key :: keys)) entry_processor s = (Ok future, s')
          /\ near_cache s' = near_cache s
          /\ Map_get self (Some cached_key) s' = (Ok (ImmediateFuture cached_value), s')).
Proof.
  intros Hcls Hcached.
  assert (Hget : forall s', near_cache s' = near_cache s ->
    Map_get self (Some cached_key) s' = (Ok (ImmediateFuture cached_value), s')).
  { intros s' Hsame. unfold Map_get, _get_internal. rewrite Hcls.
    unfold MapFeatNearCache__get_internal, except_KeyError, NearCache___getitem__.
    run. by rewrite Hsame, Hcached. }
  split.
  - intros item items.
    destruct (put_all_entries_run self (item :: items) [] [] s (entries_by_partition_nil self))
      as (groups & Hrun & _).
    do 2 eexists. split.
    + unfold proper_items in *. rewrite fmap_cons in *.
      by rewrite put_all_unfold, Hrun, put_all_partitions_run.
    + split; [reflexivity | by apply Hget].
  - intros key keys entry_processor.
    do 2 eexists. split; [apply execute_on_keys_run|].
    split; [reflexivity | by apply Hget].
Qed.

End BulkProperties.

Import Py Proxy MapProxy MapCalls PyDict MapBulk.

Lemma demo_same_key_equivalence :
  Equivalence (fun key key' : Z => demo_same_key key key' = true).
Proof.
  unfold demo_same_key. split.
  - intros key. apply Z.eqb_refl.
  - intros key key'. rewrite !Z.eqb_eq. congruence.
  - intros key key' key''. rewrite !Z.eqb_eq. congruence.
Qed.

(** [get_all([3, 103, 1])]: the keys [3] and [103] are the same key and
    belong to one partition, which is asked for one key; the other
    partition is asked for the key [1]. *)
Lemma get_all_counts_the_same_key_once :
  demo_get_all (demo_map Map) (Some (proper_keys [3; 103; 1])) (demo_client ∅)
  = (Ok (continue_with
           (demo_combine_futures
              (futures_of 0
                 (get_all_invocation demo_get_all_request (fun message : Z => message)
                    demo_lazy_list (demo_map Map) <$> [(1, [(3, "k")]); (2, [(1, "k1")])])))
           demo_merge),
     after_issuing (demo_client ∅)
       (get_all_invocation demo_get_all_request (fun message : Z => message)
          demo_lazy_list (demo_map Map) <$> [(1, [(3, "k")]); (2, [(1, "k1")])])).
Proof. reflexivity. Qed.

(** [get_all([1, 2])] on a map without a near cache. *)
Lemma get_all_asks_each_partition_for_its_keys_witness :
  cls (demo_map Map) = Map
  /\ Equivalence (fun key key' : Z => demo_same_key key key' = true)
  /\ Forall (fun key => demo_hashable key = true) [1; 2]
  /\ exists groups,
       keys_by_partition demo_same_key (demo_map Map) [1; 2] (fun _ => True) groups
       /\ (forall p d, (p, d) ∈ groups -> d <> [])
       /\ demo_get_all (demo_map Map) (Some (proper_keys [1; 2])) (demo_client ∅)
          = (Ok (continue_with
                   (demo_combine_futures
                      (futures_of 0
                         (get_all_invocation demo_get_all_request (fun message : Z => message)
                            demo_lazy_list (demo_map Map) <$> groups)))
                   demo_merge),
             after_issuing (demo_client ∅)
               (get_all_invocation demo_get_all_request (fun message : Z => message)
                  demo_lazy_list (demo_map Map) <$> groups)).
Proof.
  assert (Hhashable : Forall (fun key => demo_hashable key = true) [1; 2]).
  { repeat constructor. }
  split; [reflexivity|]. split; [exact demo_same_key_equivalence|].
  split; [exact Hhashable|].
  apply (get_all_asks_each_partition_for_its_keys demo_get_all_request
           (fun message : Z => message) demo_lazy_list demo_combine_futures demo_merge
           demo_tuple 0 demo_hashable demo_same_key (demo_map Map) 1 [2] (demo_client ∅)).
  - reflexivity.
  - exact demo_same_key_equivalence.
  - exact Hhashable.
Defined.


(** [put_all({1: 5, None: 6})], [get_all([1, None])], [get_all([1, -3,
    None])], whose second key cannot be hashed, and
    [execute_on_keys([1, None], 9)]. *)
Lemma bulk_operations_check_before_sending_witness :
  (exists key value,
     (key, value) ∈ [(Some 1, Some 5); (None, Some 6)] /\ (key = None \/ value = None))
  /\ (exists message,
        demo_put_all demo_near_cache_map (Some [(Some 1, Some 5); (None, Some 6)])
          (demo_client demo_two_entries)
        = (Raised (AssertionError message), demo_client demo_two_entries))
  /\ Forall (fun key => demo_hashable key = true) [1]
  /\ demo_get_all demo_near_cache_map (Some [Some 1; None]) (demo_client demo_two_entries)
     = (Raised (AssertionError "key can't be None"), demo_client demo_two_entries)
  /\ demo_hashable (-3) = false
  /\ demo_get_all demo_near_cache_map (Some [Some 1; Some (-3); None])
       (demo_client demo_two_entries)
     = (Raised TypeError, demo_client demo_two_entries)
  /\ None ∈ [Some 1; None]
  /\ demo_execute_on_keys demo_near_cache_map [Some 1; None] 9 (demo_client demo_two_entries)
     = (Raised (AssertionError "key can't be None"), demo_client demo_two_entries).
Proof.
  assert (Hitem : exists key value : option Z,
            (key, value) ∈ [(Some 1, Some 5); (None, Some 6)]
            /\ (key = None \/ value = None)).
  { exists None, (Some 6). split; [|by left].
    apply list_elem_of_further, list_elem_of_here. }
  assert (Hkey : None ∈ [Some 1; @None Z]).
  { apply list_elem_of_further, list_elem_of_here. }
  assert (Hhashable : Forall (fun key => demo_hashable key = true) [1]).
  { repeat constructor. }
  assert (Hunhashable : demo_hashable (-3) = false) by reflexivity.
  pose proof (bulk_operations_check_before_sending demo_put_all_request demo_get_all_request
                demo_execute_on_keys_request (fun message : Z => message)
                (fun message : Z => message) demo_lazy_list demo_combine_futures demo_merge
                demo_tuple 0 0 demo_hashable demo_same_key demo_near_cache_map
                (demo_client demo_two_entries))
    as (_ & _ & Hput & Hnone & Htype & Hexecute & _).
  split; [exact Hitem|]. split; [exact (Hput _ Hitem)|]. split; [exact Hhashable|].
  split; [exact (Hnone [1] [] Hhashable)|]. split; [exact Hunhashable|].
  split; [exact (Htype [1] (-3) [None] Hhashable Hunhashable)|].
  split; [exact Hkey | exact (Hexecute _ 9 Hkey)].
Defined.

(** [put_all({1: 5})] and [execute_on_keys([1], 9)] with [k1] cached,
    each followed by [get(1)]. *)
Lemma writes_to_several_keys_keep_the_near_cache_witness :
  cls demo_near_cache_map = MapFeatNearCache
  /\ near_cache (demo_client demo_two_entries) !! _to_data demo_near_cache_map 1
     = Some (Some 10)
  /\ (exists future s',
        demo_put_all demo_near_cache_map (Some (proper_items [(1, 5)]))
          (demo_client demo_two_entries) = (Ok future, s')
        /\ near_cache s' = near_cache (demo_client demo_two_entries)
        /\ Map_get demo_near_cache_map (Some 1) s' = (Ok (ImmediateFuture (Some 10)), s'))
  /\ (exists future s',
        demo_execute_on_keys demo_near_cache_map (proper_keys [1]) 9
          (demo_client demo_two_entries) = (Ok future, s')
        /\ near_cache s' = near_cache (demo_client demo_two_entries)
        /\ Map_get demo_near_cache_map (Some 1) s' = (Ok (ImmediateFuture (Some 10)), s')).
Proof.
  assert (Hcls : cls demo_near_cache_map = MapFeatNearCache) by reflexivity.
  assert (Hcached : near_cache (demo_client demo_two_entries)
                      !! _to_data demo_near_cache_map 1 = Some (Some 10)) by reflexivity.
  pose proof (writes_to_several_keys_keep_the_near_cache demo_put_all_request
                demo_execute_on_keys_request (fun message : Z => message) demo_lazy_list
                demo_combine_futures 0 demo_near_cache_map 1 (Some 10)
                (demo_client demo_two_entries) Hcls Hcached) as [Hput Hexecute].
  split; [exact Hcls|]. split; [exact Hcached|].
  split; [exact (Hput (1, 5) []) | exact (Hexecute 1 [] 9)].
Defined.
